(** * WebMesh: key prefixes, raft defaults, network ACL storage and the
      reachability engine, embedded from the Go sources.

    Go [string] and [[]byte] values are byte sequences; both are embedded as
    [string] (a list of 8-bit characters).  [time.Duration] is an [int64]
    count of nanoseconds and is embedded as [Z]. *)

From Stdlib Require Import ZArith Lia Bool Ascii String.
From stdpp Require Import gmap strings list fin_maps sorting.

Set Warnings "-clear-no-such-hyp".

(* ===================================================================== *)
(** * Part I: definitions                                                  *)
(* ===================================================================== *)

(** ** Package [bytes] / [strings]: the few functions the sources call *)

Module GoBytes.

(** [s[n:]] *)
Fixpoint drop (n : nat) (s : string) : string :=
  match n, s with
  | O, _ => s
  | S _, EmptyString => EmptyString
  | S n', String _ s' => drop n' s'
  end.

(** [bytes.HasPrefix(s, prefix)]:
    [len(s) >= len(prefix) && Equal(s[:len(prefix)], prefix)]. *)
Definition HasPrefix (s prefix : string) : bool :=
  (String.length prefix <=? String.length s)%nat
  && String.eqb (String.substring 0 (String.length prefix) s) prefix.

(** [bytes.TrimPrefix(s, prefix)]: [s[len(prefix):]] when [s] has the
    prefix, [s] otherwise. *)
Definition TrimPrefix (s prefix : string) : string :=
  if HasPrefix s prefix then drop (String.length prefix) s else s.

(** [bytes.Join(a, sep)] *)
Fixpoint Join (a : list string) (sep : string) : string :=
  match a with
  | [] => ""
  | [x] => x
  | x :: rest => x +:+ sep +:+ Join rest sep
  end.

End GoBytes.

(** ** Package [storage]: prefixes (src/unnamed/part_002) *)

Module Storage.
Import GoBytes.

(** [type Prefix []byte] *)
Definition Prefix := string.

Definition RegistryPrefix : Prefix := "/registry".
Definition ConsensusPrefix : Prefix := "/raft".

(** [func (p Prefix) Contains(key []byte) bool] *)
Definition Contains (p : Prefix) (key : string) : bool := HasPrefix key p.

(** [func (p Prefix) For(key []byte) Prefix] *)
Definition For (p : Prefix) (key : string) : Prefix :=
  Join [p; TrimPrefix key "/"] "/".

(** [func (p Prefix) ForString(key string) Prefix] *)
Definition ForString (p : Prefix) (key : string) : Prefix := For p key.

(** [func (p Prefix) TrimFrom(key []byte) []byte]; [append(p, '/')] is
    [p] followed by the one byte ['/']. *)
Definition TrimFrom (p : Prefix) (key : string) : string :=
  TrimPrefix key (p +:+ "/").

Definition ReservedPrefixes : list Prefix := [RegistryPrefix; ConsensusPrefix].

(** The [for _, prefix := range ReservedPrefixes] loop of
    [IsReservedPrefix], returning at the first prefix that contains
    the key. *)
Fixpoint anyContains (prefixes : list Prefix) (key : string) : bool :=
  match prefixes with
  | [] => false
  | prefix :: rest => if Contains prefix key then true else anyContains rest key
  end.

(** [func IsReservedPrefix(key []byte) bool] *)
Definition IsReservedPrefix (key : string) : bool :=
  anyContains ReservedPrefixes key.

(** "[s] begins with [p]". *)
Definition begins_with (s p : string) : Prop := exists rest, s = p +:+ rest.

End Storage.

(** ** Package [store]: raft options (src/pkg/store/options_raft.go) *)

Module RaftOpts.

Definition Duration := Z.
Definition Nanosecond : Duration := 1%Z.
Definition Second : Duration := (1000000000 * Nanosecond)%Z.
Definition Minute : Duration := (60 * Second)%Z.

Definition RaftLogFormatProtobufSnappy : string := "protobuf+snappy".

Record RaftOptions := {
  ListenAddress : string;
  DataDir : string;
  InMemory : bool;
  ConnectionPoolCount : Z;
  ConnectionTimeout : Duration;
  HeartbeatTimeout : Duration;
  ElectionTimeout : Duration;
  ApplyTimeout : Duration;
  CommitTimeout : Duration;
  MaxAppendEntries : Z;
  LeaderLeaseTimeout : Duration;
  SnapshotInterval : Duration;
  SnapshotThreshold : Z;
  SnapshotRetention : Z;
  ObserverChanBuffer : Z;
  LogLevel : string;
  PreferIPv6 : bool;
  LeaveOnShutdown : bool;
  LogFormat : string;
  StartupTimeout : Duration;
  ShutdownTimeout : Duration
}.

(** [func NewRaftOptions() *RaftOptions]; the fields the literal leaves
    out take Go's zero value. *)
Definition NewRaftOptions : RaftOptions := {|
  ListenAddress := ":9443";
  DataDir := "/var/lib/webmesh/store";
  InMemory := false;
  ConnectionPoolCount := 0;
  ConnectionTimeout := Second * 3;
  HeartbeatTimeout := Second * 3;
  ElectionTimeout := Second * 3;
  ApplyTimeout := Second * 10;
  CommitTimeout := Second * 15;
  MaxAppendEntries := 16;
  LeaderLeaseTimeout := Second * 3;
  SnapshotInterval := Minute * 5;
  SnapshotThreshold := 50;
  SnapshotRetention := 3;
  ObserverChanBuffer := 100;
  LogLevel := "info";
  PreferIPv6 := false;
  LeaveOnShutdown := false;
  LogFormat := RaftLogFormatProtobufSnappy;
  StartupTimeout := Minute;
  ShutdownTimeout := Minute
|}%Z.

(** The helpers of package [util] that [BindFlags] calls: each reads an
    environment variable and falls back to the default it is given. *)
Class EnvDefaults := {
  GetEnvDefault : string -> string -> string;
  GetEnvIntDefault : string -> Z -> Z;
  GetEnvDurationDefault : string -> Duration -> Duration
}.

(** An environment in which none of the variables is set. *)
Definition unset_env : EnvDefaults := {|
  GetEnvDefault := fun _ d => d;
  GetEnvIntDefault := fun _ d => d;
  GetEnvDurationDefault := fun _ d => d
|}.

(** [func (o *RaftOptions) BindFlags(fl *flag.FlagSet)]: every
    [fl.XxxVar(&o.F, name, value, usage)] stores [value] in [o.F] as the
    flag's default. *)
Definition BindFlags `{EnvDefaults} (o : RaftOptions) : RaftOptions := {|
  ListenAddress := GetEnvDefault "RAFT_LISTEN_ADDRESS" ":9443";
  DataDir := GetEnvDefault "RAFT_DATA_DIR" "/var/lib/webmesh/store";
  InMemory := String.eqb (GetEnvDefault "RAFT_IN_MEMORY" "false") "true";
  ConnectionPoolCount := GetEnvIntDefault "RAFT_CONNECTION_POOL_COUNT" 0;
  ConnectionTimeout := GetEnvDurationDefault "RAFT_CONNECTION_TIMEOUT" (Second * 3);
  HeartbeatTimeout := GetEnvDurationDefault "RAFT_HEARTBEAT_TIMEOUT" (Second * 3);
  ElectionTimeout := GetEnvDurationDefault "RAFT_ELECTION_TIMEOUT" (Second * 3);
  ApplyTimeout := GetEnvDurationDefault "RAFT_APPLY_TIMEOUT" (Second * 10);
  CommitTimeout := GetEnvDurationDefault "RAFT_COMMIT_TIMEOUT" (Second * 15);
  MaxAppendEntries := GetEnvIntDefault "RAFT_MAX_APPEND_ENTRIES" 16;
  LeaderLeaseTimeout := GetEnvDurationDefault "RAFT_LEADER_LEASE_TIMEOUT" (Second * 3);
  SnapshotInterval := GetEnvDurationDefault "RAFT_SNAPSHOT_INTERVAL" (Minute * 5);
  SnapshotThreshold := GetEnvIntDefault "RAFT_SNAPSHOT_THRESHOLD" 50;
  SnapshotRetention := GetEnvIntDefault "RAFT_SNAPSHOT_RETENTION" 3;
  ObserverChanBuffer := GetEnvIntDefault "RAFT_OBSERVER_CHAN_BUFFER" 100;
  LogLevel := GetEnvDefault "RAFT_LOG_LEVEL" "info";
  PreferIPv6 := String.eqb (GetEnvDefault "RAFT_PREFER_IPV6" "false") "true";
  LeaveOnShutdown := String.eqb (GetEnvDefault "LEAVE_ON_SHUTDOWN" "false") "true";
  LogFormat := GetEnvDefault "RAFT_LOG_FORMAT" RaftLogFormatProtobufSnappy;
  StartupTimeout := GetEnvDurationDefault "STARTUP_TIMEOUT" (Minute * 3);
  ShutdownTimeout := GetEnvDurationDefault "SHUTDOWN_TIMEOUT" Minute
|}%Z.

End RaftOpts.

(** ** Go errors and the [(value, error)] results of fallible calls *)

Module GoErr.

Inductive error :=
| ErrKeyNotFound                         (* storage.ErrKeyNotFound *)
| ErrACLNotFound                         (* networking.ErrACLNotFound *)
| ErrRouteNotFound                       (* networking.ErrRouteNotFound *)
| Errorf (msg : string)                  (* errors.New / fmt.Errorf without %w *)
| Wrap (msg : string) (cause : error).   (* fmt.Errorf("msg: %w", cause) *)

(** [errors.Is(err, storage.ErrKeyNotFound)], following the [%w] chain. *)
Fixpoint IsKeyNotFound (err : error) : bool :=
  match err with
  | ErrKeyNotFound => true
  | Wrap _ cause => IsKeyNotFound cause
  | _ => false
  end.

(** [err == ErrACLNotFound] *)
Definition isErrACLNotFound (err : error) : bool :=
  match err with ErrACLNotFound => true | _ => false end.

Inductive result (A : Type) :=
| Ok (a : A)
| Err (e : error).
Arguments Ok {A} a.
Arguments Err {A} e.

#[global] Instance result_ret : MRet result := @Ok.
#[global] Instance result_bind : MBind result :=
  fun A B (k : A -> result B) (r : result A) =>
    match r with Ok a => k a | Err e => Err e end.

End GoErr.

(** ** The key/value backend behind [storage.MeshStorage] *)

Module MeshStorage.
Import GoBytes GoErr.

(** Modelled from the spec: the implementation of [storage.MeshStorage]
    is not among the sources.  Section 4.A describes it as an ordered map
    from keys to values whose iteration is in ascending lexicographic key
    order; the state is the list of its entries in that order.  Expiry is
    a real-time effect and is left out: [ttl] is accepted and ignored. *)
Abbreviation Store := (list (string * string)).

(** Modelled from the spec: the backend with no entry. *)
Definition empty : Store := [].

(** The lexicographic order of keys, byte by byte. *)
Definition key_lt (a b : string) : Prop := String.compare a b = Lt.

(** The entries are in strictly ascending key order. *)
Definition ordered (s : Store) : Prop := StronglySorted key_lt (s.*1).

(** Modelled from the spec: [GetValue(ctx, key)] of the backend, section
    4.A's [Get(key) → value|NotFound]. *)
Fixpoint GetValue (s : Store) (key : string) : result string :=
  match s with
  | [] => Err ErrKeyNotFound
  | (k, v) :: rest => if String.eqb k key then Ok v else GetValue rest key
  end.

(** Modelled from the spec: the write of section 4.A's [Put], atomic
    per key: insertion at the key's place in the order, replacing an
    entry that has the key. *)
Fixpoint put (s : Store) (key value : string) : Store :=
  match s with
  | [] => [(key, value)]
  | (k, v) :: rest =>
      match String.compare key k with
      | Lt => (key, value) :: (k, v) :: rest
      | Eq => (key, value) :: rest
      | Gt => (k, v) :: put rest key value
      end
  end.

(** Modelled from the spec: the removal of section 4.A's [Delete(key)]. *)
Fixpoint remove (s : Store) (key : string) : Store :=
  match s with
  | [] => []
  | (k, v) :: rest => if String.eqb k key then rest else (k, v) :: remove rest key
  end.

(** Modelled from the spec: [PutValue(ctx, key, value, ttl)] of the
    backend: the new state and the returned error.  Writes of this
    backend do not fail. *)
Definition PutValue (s : Store) (key value : string) (ttl : Z) : Store * option error :=
  (put s key value, None).

(** Modelled from the spec: [Delete(ctx, key)] of the backend. *)
Definition Delete (s : Store) (key : string) : Store * option error :=
  (remove s key, None).

(** Modelled from the spec: the entries [IterPrefix(ctx, prefix, fn)] of
    the backend visits, in ascending key order. *)
Definition entriesWithPrefix (s : Store) (prefix : string) : list (string * string) :=
  filter (fun kv => HasPrefix kv.1 prefix = true) s.

(** Modelled from the spec: the callback loop of [IterPrefix].  [fn] is
    a Go closure that updates captured variables (the state [A]) and may
    return an error, which stops the iteration; the state reached so far
    stays visible to the caller. *)
Fixpoint iterate {A} (entries : list (string * string))
    (fn : string -> string -> A -> A * option error) (acc : A) : A * option error :=
  match entries with
  | [] => (acc, None)
  | (k, v) :: rest =>
      match fn k v acc with
      | (acc', None) => iterate rest fn acc'
      | (acc', Some e) => (acc', Some e)
      end
  end.

(** Modelled from the spec: [IterPrefix(ctx, prefix, fn)] of the
    backend. *)
Definition IterPrefix {A} (s : Store) (prefix : string)
    (fn : string -> string -> A -> A * option error) (acc : A) : A * option error :=
  iterate (entriesWithPrefix s prefix) fn acc.

End MeshStorage.

(** ** API messages ([github.com/webmeshproj/api/v1]) *)

Module V1.

Inductive ACLAction := ACTION_UNKNOWN | ACTION_ACCEPT | ACTION_DENY.

Record NetworkACL := {
  acl_Name : string;
  acl_Priority : Z;
  acl_Action : ACLAction;
  acl_SourceNodes : list string;
  acl_DestinationNodes : list string;
  acl_SourceCidrs : list string;
  acl_DestinationCidrs : list string
}.

Record Route := {
  route_Name : string;
  route_Node : string;
  route_DestinationCidrs : list string
}.

Record NetworkAction := {
  SrcNode : string;
  SrcCidr : string;
  DstNode : string;
  DstCidr : string
}.

(** [peergraph.MeshNode], a wrapper of [v1.MeshNode]. *)
Record MeshNode := {
  Id : string;
  PrivateIpv4 : string;
  PrivateIpv6 : string
}.

End V1.

(** ** Package [networking] (src/pkg/meshdb/networking/networking.go) *)

Module Networking.
Import GoBytes GoErr MeshStorage V1.

Definition BootstrapNodesNetworkACLName : string := "bootstrap-nodes".

(** Modelled from the spec: [networking.go] builds its prefixes with
    [storage.RegistryPrefix + "network-acls"], that is from a string
    constant of package [storage] that is not among the sources (the
    [Prefix] of [Storage] above is a byte slice).  Section 3 files the
    entities under [/registry/network-acls/<name>] and
    [/registry/routes/<name>], which fixes the constant. *)
Definition RegistryPrefix : string := "/registry/".

Definition NetworkACLsPrefix : string := RegistryPrefix +:+ "network-acls".
Definition RoutesPrefix : string := RegistryPrefix +:+ "routes".
Definition GroupReference : string := "group:".

(** [func IsSystemNetworkACL(name string) bool] *)
Definition IsSystemNetworkACL (name : string) : bool :=
  String.eqb name BootstrapNodesNetworkACLName.

(** [protojson.Marshal] / [protojson.Unmarshal] at the two message
    types, an external library. *)
Class Protojson := {
  MarshalACL : NetworkACL -> result string;
  UnmarshalACL : string -> result NetworkACL;
  MarshalRoute : Route -> result string;
  UnmarshalRoute : string -> result Route
}.

(** [type ACLs []*ACL] *)
Abbreviation ACLs := (list NetworkACL).

(** The methods of [ACLs] that [FilterGraph] calls; their file is not
    among the sources.  [Expand] rewrites the group references of the
    list and may fail on a storage error. *)
Class ACLEval := {
  Expand : Store -> ACLs -> result ACLs;
  AllowNodesToCommunicate : ACLs -> MeshNode -> MeshNode -> bool;
  Accept : ACLs -> NetworkAction -> bool
}.

(** [netip.ParsePrefix(cidr)] and [prefix.Addr().Is4()] *)
Record NetipPrefix := { Addr_Is4 : bool }.
Class Netip := { ParsePrefix : string -> result NetipPrefix }.

(** [type NodeGetter interface] *)
Record NodeGetter := { Get : string -> result MeshNode }.

(** [graph.Edge[string]] *)
Record Edge := { Source : string; Target : string; Weight : Z }.

(** [type AdjacencyMap map[string]map[string]graph.Edge[string]] *)
Abbreviation AdjacencyMap := (gmap string (gmap string Edge)).

(** [peergraph.Graph], of which [FilterGraph] calls [AdjacencyMap()]. *)
Record PeerGraph := { AdjacencyMapOf : result AdjacencyMap }.

Section WithExternals.
Context `{Protojson} `{ACLEval} `{Netip}.

(** [func (n *networking) GetNetworkACL(ctx, name)], returning the ACL or an error *)
Definition GetNetworkACL (n : Store) (name : string) : result NetworkACL :=
  let key := NetworkACLsPrefix +:+ "/" +:+ name in
  match GetValue n key with
  | Err err =>
      if IsKeyNotFound err then Err ErrACLNotFound
      else Err (Wrap "get network acl" err)
  | Ok data =>
      match UnmarshalACL data with
      | Err err => Err (Wrap "unmarshal network acl" err)
      | Ok acl => Ok acl
      end
  end.

(** The guard at the head of [PutNetworkACL]: [Some err] when the
    function returns [err] from inside the [if IsSystemNetworkACL]. *)
Definition systemACLGuard (n : Store) (acl : NetworkACL) : option error :=
  if IsSystemNetworkACL (acl_Name acl) then
    match GetNetworkACL n (acl_Name acl) with
    | Err err => if negb (isErrACLNotFound err) then Some err else None
    | Ok _ => Some (Errorf ("cannot update system network acl " +:+ acl_Name acl))
    end
  else None.

(** [func (n *networking) PutNetworkACL(ctx, acl) error] *)
Definition PutNetworkACL (n : Store) (acl : NetworkACL) : Store * option error :=
  match systemACLGuard n acl with
  | Some err => (n, Some err)
  | None =>
      let key := NetworkACLsPrefix +:+ "/" +:+ acl_Name acl in
      match MarshalACL acl with
      | Err err => (n, Some (Wrap "marshal network acl" err))
      | Ok data =>
          match PutValue n key data 0 with
          | (n', Some err) => (n', Some (Wrap "put network acl" err))
          | (n', None) => (n', None)
          end
      end
  end.

(** [func (n *networking) DeleteNetworkACL(ctx, name) error] *)
Definition DeleteNetworkACL (n : Store) (name : string) : Store * option error :=
  if IsSystemNetworkACL name then
    (n, Some (Errorf ("cannot delete system network acl " +:+ name)))
  else
    let key := NetworkACLsPrefix +:+ "/" +:+ name in
    match Delete n key with
    | (n', Some err) => (n', Some (Wrap "delete network acl" err))
    | (n', None) => (n', None)
    end.

(** The closure passed to [IterPrefix] by [ListNetworkACLs]; [out] is
    the captured slice. *)
Definition listACLsFn (key value : string) (out : ACLs) : ACLs * option error :=
  if String.eqb key NetworkACLsPrefix then (out, None)
  else
    match UnmarshalACL value with
    | Err err => (out, Some (Wrap "unmarshal network acl" err))
    | Ok acl => (out ++ [acl], None)
    end.

(** [func (n *networking) ListNetworkACLs(ctx) (ACLs, error)] *)
Definition ListNetworkACLs (n : Store) : ACLs * option error :=
  IterPrefix n NetworkACLsPrefix listACLsFn [].

(** [func (n *networking) PutRoute(ctx, route) error] *)
Definition PutRoute (n : Store) (route : Route) : Store * option error :=
  let key := RoutesPrefix +:+ "/" +:+ route_Name route in
  match MarshalRoute route with
  | Err err => (n, Some (Wrap "marshal route" err))
  | Ok data =>
      match PutValue n key data 0 with
      | (n', Some err) => (n', Some (Wrap "put network route" err))
      | (n', None) => (n', None)
      end
  end.

Definition listRoutesFn (key value : string) (out : list Route)
    : list Route * option error :=
  if String.eqb key RoutesPrefix then (out, None)
  else
    match UnmarshalRoute value with
    | Err err => (out, Some (Wrap "unmarshal network route" err))
    | Ok route => (out ++ [route], None)
    end.

(** [func (n *networking) ListRoutes(ctx) ([]*v1.Route, error)] *)
Definition ListRoutes (n : Store) : list Route * option error :=
  IterPrefix n RoutesPrefix listRoutesFn [].

(** [func (n *networking) GetRoutesByNode(ctx, nodeName)] *)
Definition GetRoutesByNode (n : Store) (nodeName : string) : result (list Route) :=
  match ListRoutes n with
  | (_, Some err) => Err (Wrap "list network routes" err)
  | (routes, None) =>
      Ok (filter (fun r => String.eqb (route_Node r) nodeName = true) routes)
  end.

(** *** [FilterGraph]

    The two maps the function works on.  [filtered[thisNode.Id] =
    fullMap[thisNode.Id]] stores in [filtered] the very row object of
    [fullMap] (a Go map is a reference), so a later [delete] or
    assignment through [filtered[thisNode.Id]] is seen through
    [fullMap[thisNode.Id]] too.  [shared] records whether the two
    entries still denote one object: it starts true when [fullMap] has
    the row and ends when [filtered[thisNode.Id]] is assigned a new
    map.  A missing row and a nil row read alike and are both [∅];
    the function assigns into [filtered[node]] only after
    [fullMap[node]] was found, when the row is never nil. *)
Record maps := {
  fullMap : AdjacencyMap;
  filtered : AdjacencyMap;
  shared : bool
}.

Definition initMaps (full : AdjacencyMap) (this : string) : maps := {|
  fullMap := full;
  filtered := {[ this := default ∅ (full !! this) ]};
  shared := bool_decide (is_Some (full !! this))
|}.

(** [delete(filtered[thisNode.Id], id)] *)
Definition deleteFromThisRow (st : maps) (this id : string) : maps := {|
  fullMap := if shared st then alter (delete id) this (fullMap st) else fullMap st;
  filtered := alter (delete id) this (filtered st);
  shared := shared st
|}.

(** [filtered[id] = make(map[string]graph.Edge[string])] *)
Definition makeRow (st : maps) (this id : string) : maps := {|
  fullMap := fullMap st;
  filtered := <[ id := ∅ ]> (filtered st);
  shared := shared st && negb (String.eqb id this)
|}.

(** [filtered[node][peerID] = e] *)
Definition setEdge (st : maps) (this node peerID : string) (e : Edge) : maps := {|
  fullMap :=
    if shared st && String.eqb node this
    then alter (<[ peerID := e ]>) this (fullMap st) else fullMap st;
  filtered := alter (<[ peerID := e ]>) node (filtered st);
  shared := shared st
|}.

(** The action built for one destination CIDR of a route of [dst]. *)
Definition routeAction (thisNode : MeshNode) (dst cidr : string)
    (prefix : NetipPrefix) : NetworkAction :=
  if Addr_Is4 prefix then
    {| SrcNode := Id thisNode; SrcCidr := PrivateIpv4 thisNode;
       DstNode := dst; DstCidr := cidr |}
  else
    {| SrcNode := Id thisNode; SrcCidr := PrivateIpv6 thisNode;
       DstNode := dst; DstCidr := cidr |}.

(** [for _, cidr := range route.GetDestinationCidrs()]: [Ok true] when
    the loop runs to its end, [Ok false] when it leaves through
    [continue Nodes] (or [continue Peers]) at a CIDR that is not
    accepted, [Err] when it returns a parse error. *)
Fixpoint checkCidrs (acls : ACLs) (thisNode : MeshNode) (dst : string)
    (cidrs : list string) : result bool :=
  match cidrs with
  | [] => Ok true
  | cidr :: rest =>
      match ParsePrefix cidr with
      | Err err => Err (Wrap "parse prefix" err)
      | Ok prefix =>
          if negb (Accept acls (routeAction thisNode dst cidr prefix))
          then Ok false
          else checkCidrs acls thisNode dst rest
      end
  end.

(** [for _, route := range routes] around the loop above. *)
Fixpoint checkRoutes (acls : ACLs) (thisNode : MeshNode) (dst : string)
    (routes : list Route) : result bool :=
  match routes with
  | [] => Ok true
  | route :: rest =>
      match checkCidrs acls thisNode dst (route_DestinationCidrs route) with
      | Err err => Err err
      | Ok false => Ok false
      | Ok true => checkRoutes acls thisNode dst rest
      end
  end.

(** One round of the loop labelled [Nodes]. *)
Definition filterNode (n : Store) (acls : ACLs) (getter : NodeGetter)
    (thisNode : MeshNode) (st : maps) (nodeID : string) : result maps :=
  if String.eqb nodeID (Id thisNode) then Ok st
  else
    match Get getter nodeID with
    | Err err => Err (Wrap "get node" err)
    | Ok node =>
        if negb (AllowNodesToCommunicate acls thisNode node)
        then Ok (deleteFromThisRow st (Id thisNode) (Id node))
        else
          match GetRoutesByNode n (Id node) with
          | Err err => Err (Wrap "get routes by node" err)
          | Ok routes =>
              match checkRoutes acls thisNode (Id node) routes with
              | Err err => Err err
              | Ok false => Ok (deleteFromThisRow st (Id thisNode) (Id node))
              | Ok true => Ok (makeRow st (Id thisNode) (Id node))
              end
          end
    end.

(** [for nodeID := range fullMap], over the keys in the order the
    range statement yields them. *)
Fixpoint filterNodes (n : Store) (acls : ACLs) (getter : NodeGetter)
    (thisNode : MeshNode) (st : maps) (nodeIDs : list string) : result maps :=
  match nodeIDs with
  | [] => Ok st
  | nodeID :: rest =>
      match filterNode n acls getter thisNode st nodeID with
      | Err err => Err err
      | Ok st' => filterNodes n acls getter thisNode st' rest
      end
  end.

(** One round of the loop labelled [Peers], for the row of [node]. *)
Definition filterPeer (n : Store) (acls : ACLs) (getter : NodeGetter)
    (thisNode : MeshNode) (node : string) (st : maps)
    (peerID : string) (e : Edge) : result maps :=
  if String.eqb peerID (Id thisNode)
  then Ok (setEdge st (Id thisNode) node peerID e)
  else
    match Get getter peerID with
    | Err err => Err (Wrap "get peer" err)
    | Ok peer =>
        if negb (AllowNodesToCommunicate acls thisNode peer) then Ok st
        else
          match GetRoutesByNode n peerID with
          | Err err => Err (Wrap "get routes by node" err)
          | Ok routes =>
              match checkRoutes acls thisNode peerID routes with
              | Err err => Err err
              | Ok false => Ok st
              | Ok true => Ok (setEdge st (Id thisNode) node peerID e)
              end
          end
    end.

(** [for peerID, edge := range edges] *)
Fixpoint filterPeers (n : Store) (acls : ACLs) (getter : NodeGetter)
    (thisNode : MeshNode) (node : string) (st : maps)
    (edges : list (string * Edge)) : result maps :=
  match edges with
  | [] => Ok st
  | (peerID, e) :: rest =>
      match filterPeer n acls getter thisNode node st peerID e with
      | Err err => Err err
      | Ok st' => filterPeers n acls getter thisNode node st' rest
      end
  end.

(** [for node := range filtered] *)
Fixpoint filterRows (n : Store) (acls : ACLs) (getter : NodeGetter)
    (thisNode : MeshNode) (st : maps) (nodes : list string) : result maps :=
  match nodes with
  | [] => Ok st
  | node :: rest =>
      match fullMap st !! node with
      | None => filterRows n acls getter thisNode st rest
      | Some edges =>
          match filterPeers n acls getter thisNode node st (map_to_list edges) with
          | Err err => Err err
          | Ok st' => filterRows n acls getter thisNode st' rest
          end
      end
  end.

(** [func (n *networking) FilterGraph(ctx, getter, peerGraph, thisNode)].
    A range over a Go map yields the keys in an unspecified order;
    here it is the order of [map_to_list].  A round of either loop
    decides about its own key only (to delete it from the row of
    [thisNode], to give it a row, to assign one edge), so the order
    decides which error is returned when several rounds fail, and
    nothing else. *)
Definition FilterGraph (n : Store) (getter : NodeGetter) (peerGraph : PeerGraph)
    (thisNode : MeshNode) : result AdjacencyMap :=
  match ListNetworkACLs n with
  | (_, Some err) => Err (Wrap "list network acls" err)
  | (acls, None) =>
      match Expand n acls with
      | Err err => Err (Wrap "expand network acls" err)
      | Ok acls =>
          match AdjacencyMapOf peerGraph with
          | Err err => Err (Wrap "build adjacency map" err)
          | Ok full =>
              st1 ← filterNodes n acls getter thisNode
                      (initMaps full (Id thisNode)) (map_to_list full).*1;
              st2 ← filterRows n acls getter thisNode st1
                      (map_to_list (filtered st1)).*1;
              Ok (filtered st2)
          end
      end
  end.

(** *** Vocabulary for the statements about [FilterGraph] *)

(** The row of [v] in an adjacency map; a missing row reads as empty. *)
Definition rowOf (m : AdjacencyMap) (v : string) : gmap string Edge :=
  default ∅ (m !! v).

(** One destination CIDR of one of the [routes] of [dst] is denied for
    traffic from [thisNode]. *)
Definition someRouteDenied (acls : ACLs) (thisNode : MeshNode) (dst : string)
    (routes : list Route) : Prop :=
  exists route cidr prefix,
    route ∈ routes /\ cidr ∈ route_DestinationCidrs route
    /\ ParsePrefix cidr = Ok prefix
    /\ Accept acls (routeAction thisNode dst cidr prefix) = false.

(** [id] is a node of the adjacency map: the key of a row or of an
    entry of a row. *)
Definition knownNode (m : AdjacencyMap) (id : string) : Prop :=
  is_Some (m !! id) \/ exists v row, m !! v = Some row /\ is_Some (row !! id).

(** The getter resolves every node of the map to a node of that id. *)
Definition getterOK (getter : NodeGetter) (m : AdjacencyMap) : Prop :=
  forall id, knownNode m id -> exists node, Get getter id = Ok node /\ Id node = id.

(** The ACLs permit all communication from [thisNode], and every
    stored route decodes and has destination CIDRs that parse. *)
Record permits (n : Store) (acls : ACLs) (thisNode : MeshNode) : Prop := {
  pm_nodes : forall node, AllowNodesToCommunicate acls thisNode node = true;
  pm_actions : forall action, Accept acls action = true;
  pm_routes : exists routes, ListRoutes n = (routes, None)
      /\ forall route cidr, route ∈ routes -> cidr ∈ route_DestinationCidrs route ->
           exists prefix, ParsePrefix cidr = Ok prefix
}.

(** [row[p] = e] for each pair of the list, in its order. *)
Definition setAll (edges : list (string * Edge)) (row : gmap string Edge)
    : gmap string Edge :=
  foldl (fun r pe => <[pe.1 := pe.2]> r) row edges.

(** [k] is absent from the row of [this], in [filtered] and, as long as
    the row object is shared, in [fullMap]. *)
Definition absentFromThisRow (this k : string) (st : maps) : Prop :=
  rowOf (filtered st) this !! k = None
  /\ (shared st = true -> rowOf (fullMap st) this !! k = None).

End WithExternals.

End Networking.

(** ** Package [svcutil]: WireGuard peers of a node (src/unnamed/part_008) *)

Module Svcutil.
Import GoBytes GoErr.
Import Networking (Edge, rowOf).

(** [netip.Prefix] as far as the code looks at it: [None] when
    [IsValid()] is false, [Some s] with [s] its [String()] otherwise. *)
Abbreviation NetipPrefix := (option string).

(** [peers.Node]; the public key is kept as its [String()]. *)
Record Node := {
  ID : string;
  PublicKey : string;
  PrimaryEndpoint : string;
  WireGuardEndpoints : list string;
  ZoneAwarenessID : string;
  PrivateIPv4 : NetipPrefix;
  NetworkIPv6 : NetipPrefix
}.

(** [v1.WireGuardPeer] *)
Record WireGuardPeer := {
  wg_Id : string;
  wg_PublicKey : string;
  wg_ZoneAwarenessId : string;
  wg_PrimaryEndpoint : string;
  wg_WireguardEndpoints : list string;
  wg_AddressIpv4 : string;
  wg_AddressIpv6 : string;
  wg_AllowedIps : list string
}.

(** [peers.Graph], of which the code calls [Vertex]. *)
Record Graph := { Vertex : string -> result Node }.

(** The result of a call that recurses: a value, a Go error, or the
    bound on the recursion depth was reached. *)
Inductive outcome (A : Type) :=
| Done (a : A)
| Failed (e : error)
| OutOfFuel.
Arguments Done {A} a.
Arguments Failed {A} e.
Arguments OutOfFuel {A}.

(** [if p.IsValid() { allowedIPs = append(allowedIPs, p.String()) }] *)
Definition appendIfValid (allowedIPs : list string) (p : NetipPrefix) : list string :=
  match p with
  | Some s => allowedIPs ++ [s]
  | None => allowedIPs
  end.

(** [func contains(ss []string, s string) bool] *)
Fixpoint contains (ss : list string) (s : string) : bool :=
  match ss with
  | [] => false
  | v :: rest => if String.eqb v s then true else contains rest s
  end.

(** The [for _, endpoint := range node.WireGuardEndpoints] loop that
    looks for the primary endpoint: the value of [primaryEndpoint] after
    it. *)
Fixpoint firstWithPrefix (endpoints : list string) (primary : string) : string :=
  match endpoints with
  | [] => ""
  | endpoint :: rest =>
      if HasPrefix endpoint primary then endpoint
      else firstWithPrefix rest primary
  end.

(** "Determine the preferred wireguard endpoint" in [WireGuardPeersFor]. *)
Definition preferredEndpoint (node : Node) : string :=
  let primaryEndpoint :=
    if negb (String.eqb (PrimaryEndpoint node) "")
    then firstWithPrefix (WireGuardEndpoints node) (PrimaryEndpoint node)
    else "" in
  if String.eqb primaryEndpoint "" && (0 <? length (WireGuardEndpoints node))%nat
  then default "" (head (WireGuardEndpoints node))
  else primaryEndpoint.

Section Recurse.
Variable graph : Graph.
Variable adjacencyMap : gmap string (gmap string Edge).
Variable thisPeer : string.

(** The loop [for target := range targets] of [recurseEdgeAllowedIPs],
    with the call the function makes to itself as [recurse].  [visited]
    is the map the calls share and update in place: it is passed in and
    handed back. *)
Fixpoint visitTargets
    (recurse : Node -> gset string -> outcome (list string * gset string))
    (directAdjacents : gmap string Edge)
    (targets : list string) (allowedIPs : list string) (visited : gset string)
    : outcome (list string * gset string) :=
  match targets with
  | [] => Done (allowedIPs, visited)
  | target :: rest =>
      if String.eqb target thisPeer
      then visitTargets recurse directAdjacents rest allowedIPs visited
      else if bool_decide (is_Some (directAdjacents !! target))
      then visitTargets recurse directAdjacents rest allowedIPs visited
      else if bool_decide (target ∈ visited)
      then visitTargets recurse directAdjacents rest allowedIPs visited
      else
        match Vertex graph target with
        | Err err => Failed (Wrap "get vertex" err)
        | Ok targetNode =>
            let allowedIPs := appendIfValid allowedIPs (PrivateIPv4 targetNode) in
            let allowedIPs := appendIfValid allowedIPs (NetworkIPv6 targetNode) in
            let visited := {[ target ]} ∪ visited in
            match recurse targetNode visited with
            | OutOfFuel => OutOfFuel
            | Failed err => Failed (Wrap "recurse allowed IPs" err)
            | Done (ips, visited') =>
                visitTargets recurse directAdjacents rest (allowedIPs ++ ips) visited'
            end
        end
  end.

(** [func recurseEdgeAllowedIPs(graph, adjacencyMap, thisPeer, node,
    visited)].  [fuel] bounds the depth of the recursion.  The keys of
    [targets] come in the order of [map_to_list]; Go leaves the order of
    a range over a map open. *)
Fixpoint recurseEdge (fuel : nat) (node : Node) (visited : gset string)
    : outcome (list string * gset string) :=
  match fuel with
  | O => OutOfFuel
  | S fuel' =>
      let directAdjacents := default ∅ (adjacencyMap !! thisPeer) in
      let visited := {[ ID node ]} ∪ visited in
      let targets := default ∅ (adjacencyMap !! ID node) in
      visitTargets (recurseEdge fuel') directAdjacents
        (map_to_list targets).*1 [] visited
  end.

(** Every node the recursion can enter is a key of some row. *)
Definition allTargets : gset string :=
  map_fold (fun _ (row : gmap string Edge) acc => dom row ∪ acc) ∅ adjacencyMap.

(** The call [recurseEdgeAllowedIPs(graph, adjacencyMap, thisPeer,
    node, nil)]. *)
Definition recurseEdgeAllowedIPs (node : Node) : outcome (list string) :=
  match recurseEdge (S (size allTargets)) node ∅ with
  | Done (ips, _) => Done ips
  | Failed err => Failed err
  | OutOfFuel => OutOfFuel
  end.

(** The loop of [recurseAllowedIPs] that appends the addresses not
    yet in the list. *)
Fixpoint appendMissing (allowedIPs edgeIPs : list string) : list string :=
  match edgeIPs with
  | [] => allowedIPs
  | ip :: rest =>
      if negb (contains allowedIPs ip)
      then appendMissing (allowedIPs ++ [ip]) rest
      else appendMissing allowedIPs rest
  end.

(** [func recurseAllowedIPs(graph, adjacencyMap, thisPeer, node)] *)
Definition recurseAllowedIPs (node : Node) : outcome (list string) :=
  let allowedIPs := appendIfValid [] (PrivateIPv4 node) in
  let allowedIPs := appendIfValid allowedIPs (NetworkIPv6 node) in
  match recurseEdgeAllowedIPs node with
  | OutOfFuel => OutOfFuel
  | Failed err => Failed (Wrap "recurse edge allowed IPs" err)
  | Done edgeIPs => Done (appendMissing allowedIPs edgeIPs)
  end.

(** The body of [for adjacent := range directAdjacents]. *)
Definition peerFor (adjacent : string) : outcome WireGuardPeer :=
  match Vertex graph adjacent with
  | Err err => Failed (Wrap "get vertex" err)
  | Ok node =>
      match recurseAllowedIPs node with
      | OutOfFuel => OutOfFuel
      | Failed err => Failed (Wrap "recurse allowed IPs" err)
      | Done allowedIPs =>
          Done {| wg_Id := ID node;
                  wg_PublicKey := PublicKey node;
                  wg_ZoneAwarenessId := ZoneAwarenessID node;
                  wg_PrimaryEndpoint := preferredEndpoint node;
                  wg_WireguardEndpoints := WireGuardEndpoints node;
                  wg_AddressIpv4 := default "" (PrivateIPv4 node);
                  wg_AddressIpv6 := default "" (NetworkIPv6 node);
                  wg_AllowedIps := allowedIPs |}
      end
  end.

Fixpoint peersFor (adjacents : list string) (out : list WireGuardPeer)
    : outcome (list WireGuardPeer) :=
  match adjacents with
  | [] => Done out
  | adjacent :: rest =>
      match peerFor adjacent with
      | OutOfFuel => OutOfFuel
      | Failed err => Failed err
      | Done peer => peersFor rest (out ++ [peer])
      end
  end.

End Recurse.

(** [func WireGuardPeersFor(ctx, store, peerID)].  [graph] is
    [peers.New(store).Graph()] and [filterGraph] the result of
    [networking.New(store).FilterGraph(ctx, graph, peerID)]. *)
Definition WireGuardPeersFor (graph : Graph)
    (filterGraph : result (gmap string (gmap string Edge))) (peerID : string)
    : outcome (list WireGuardPeer) :=
  match filterGraph with
  | Err err => Failed (Wrap "filter adjacency map" err)
  | Ok adjacencyMap =>
      let directAdjacents := default ∅ (adjacencyMap !! peerID) in
      peersFor graph adjacencyMap peerID (map_to_list directAdjacents).*1 []
  end.

(** *** The specification's reading of the preferred endpoint *)

Fixpoint hasColon (s : string) : bool :=
  match s with
  | EmptyString => false
  | String c rest => Ascii.eqb c ":"%char || hasColon rest
  end.

(** The host of an [ip:port] endpoint with an IPv4 address or a name:
    what precedes the last colon. *)
Fixpoint hostOf (endpoint : string) : string :=
  match endpoint with
  | EmptyString => EmptyString
  | String c rest =>
      if hasColon rest then String c (hostOf rest)
      else if Ascii.eqb c ":"%char then EmptyString
      else String c (hostOf rest)
  end.

(** "first entry in [wireguard_endpoints] whose host equals
    [primary_endpoint]; else first entry; else empty". *)
Definition specPreferredEndpoint (node : Node) : string :=
  match find (fun e => String.eqb (hostOf e) (PrimaryEndpoint node)) (WireGuardEndpoints node) with
  | Some e => e
  | None => default "" (head (WireGuardEndpoints node))
  end.

(** *** Vocabulary for the statements about allowed IPs *)

(** [a] is one of the private addresses of [n]. *)
Definition hasAddr (n : Node) (a : string) : Prop :=
  PrivateIPv4 n = Some a \/ NetworkIPv6 n = Some a.

(** The private addresses of [n] are all in [ips]. *)
Definition addrsIn (n : Node) (ips : list string) : Prop :=
  forall a, hasAddr n a -> a ∈ ips.

(** The vertex filed under an id carries that id. *)
Definition graphOK (graph : Graph) : Prop :=
  forall id n, Vertex graph id = Ok n -> ID n = id.

(** No address belongs to two vertices. *)
Definition addressesDistinct (graph : Graph) : Prop :=
  forall t1 t2 n1 n2 a,
    Vertex graph t1 = Ok n1 -> Vertex graph t2 = Ok n2 ->
    hasAddr n1 a -> hasAddr n2 a -> t1 = t2.

(** [t] is neither [thisPeer] nor one of its direct adjacents: the
    traversal does not skip it. *)
Definition eligible (adjacencyMap : gmap string (gmap string Edge))
    (thisPeer t : string) : Prop :=
  t <> thisPeer /\ rowOf adjacencyMap thisPeer !! t = None.

(** [visited] is closed under the edges the traversal follows. *)
Definition closedUnderEdges (adjacencyMap : gmap string (gmap string Edge))
    (thisPeer : string) (visited : gset string) : Prop :=
  forall v t, v ∈ visited -> is_Some (rowOf adjacencyMap v !! t) ->
    eligible adjacencyMap thisPeer t -> t ∈ visited.

(** What a run of the traversal, started with [startVisited] in the
    shared map and [baseIPs] collected, has done when it hands back [ips]
    and [visited']: the map has only grown; nothing collected was lost;
    every address collected belongs to a vertex that was entered; and, on
    a graph whose vertices carry their ids, every node newly marked was
    entered, its addresses were collected, and the targets of its row
    that the traversal does not skip are marked too. *)
Record visitsOK (graph : Graph) (adjacencyMap : gmap string (gmap string Edge))
    (thisPeer : string) (startVisited : gset string) (baseIPs ips : list string)
    (visited' : gset string) : Prop := {
  vo_grows : startVisited ⊆ visited';
  vo_keeps : forall a, a ∈ baseIPs -> a ∈ ips;
  vo_sound : forall a, a ∈ ips -> a ∈ baseIPs \/
      exists t n, eligible adjacencyMap thisPeer t /\ t ∈ visited'
                  /\ Vertex graph t = Ok n /\ hasAddr n a;
  vo_new : graphOK graph -> forall t, t ∈ visited' -> t ∉ startVisited ->
      eligible adjacencyMap thisPeer t
      /\ exists n, Vertex graph t = Ok n /\ addrsIn n ips;
  vo_closed : graphOK graph -> forall v t, v ∈ visited' -> v ∉ startVisited ->
      is_Some (rowOf adjacencyMap v !! t) ->
      eligible adjacencyMap thisPeer t -> t ∈ visited'
}.

(** The eligible targets of the row of [v] are all in [visited]. *)
Definition rowCovered (adjacencyMap : gmap string (gmap string Edge))
    (thisPeer v : string) (visited : gset string) : Prop :=
  forall t, is_Some (rowOf adjacencyMap v !! t) ->
    eligible adjacencyMap thisPeer t -> t ∈ visited.

(** What the loop needs of the call it makes. *)
Definition recurseOK (graph : Graph) (adjacencyMap : gmap string (gmap string Edge))
    (thisPeer : string)
    (recurse : Node -> gset string -> outcome (list string * gset string)) : Prop :=
  forall node visited ips visited',
    recurse node visited = Done (ips, visited') ->
    visitsOK graph adjacencyMap thisPeer ({[ ID node ]} ∪ visited) [] ips visited'
    /\ (graphOK graph -> rowCovered adjacencyMap thisPeer (ID node) visited').

(** Every node a row names has a vertex in the graph. *)
Definition verticesExist (graph : Graph)
    (adjacencyMap : gmap string (gmap string Edge)) : Prop :=
  forall t, t ∈ allTargets adjacencyMap -> exists n, Vertex graph t = Ok n.

(** The call comes back: the bound on the depth is not reached, and
    the result is a value, not a Go error, when every node the rows name
    has a vertex. *)
Definition returns {A} (graph : Graph)
    (adjacencyMap : gmap string (gmap string Edge)) (r : outcome A) : Prop :=
  match r with
  | OutOfFuel => False
  | Failed _ => ~ verticesExist graph adjacencyMap
  | Done _ => True
  end.

(** The nodes the traversal for the neighbor [node] has marked when it
    ends. *)
Definition visitedBy (graph : Graph) (adjacencyMap : gmap string (gmap string Edge))
    (thisPeer : string) (node : Node) : option (gset string) :=
  match recurseEdge graph adjacencyMap thisPeer (S (size (allTargets adjacencyMap))) node ∅ with
  | Done (_, visited) => Some visited
  | _ => None
  end.

(** The reading of the preferred endpoint that the code implements: the
    first entry that begins with the primary endpoint, when that is not
    empty. *)
Definition firstBeginningWith (node : Node) : option string :=
  if String.eqb (PrimaryEndpoint node) "" then None
  else find (fun e => HasPrefix e (PrimaryEndpoint node)) (WireGuardEndpoints node).

End Svcutil.

(** ** Snapshots of the backend *)

Module Snapshots.
Import GoBytes GoErr MeshStorage.

(** Modelled from the spec: package [snapshots] ([New], [Snapshot],
    [Persist], [Restore]) and the FSM are not among the sources; only
    the test [TestSnapshotter] and the call in [Start] are.  Section 4.D:
    the FSM interprets each committed log entry as one of [PUT key value
    ttl], [DELETE key], [DELETE_PREFIX prefix] and applies it to the
    backend.  Section 3: the FSM mutates the backend at [/registry/…]
    only.  Section 4.B/C: the payload of a snapshot is the
    lexicographically ordered sequence of (key, value) records under
    [/registry/…], after a header [{format-version, term, index}]; the
    framing of the stream into bytes is left out. *)
Inductive Command :=
| PUT (key value : string) (ttl : Z)
| DELETE (key : string)
| DELETE_PREFIX (prefix : string).

(** Modelled from the spec: the prefix of the domain data, [/registry/…]
    (section 3). *)
Definition RegistryKeys : string := "/registry/".

(** Modelled from the spec: the write is at [/registry/…], where alone
    the FSM mutates the backend (section 3, Ownership). *)
Definition owned (c : Command) : Prop :=
  match c with
  | PUT key _ _ => HasPrefix key RegistryKeys = true
  | DELETE _ => True
  | DELETE_PREFIX _ => True
  end.

(** Modelled from the spec: the FSM applies one committed entry to the
    backend (section 4.D). *)
Definition apply (s : Store) (c : Command) : Store :=
  match c with
  | PUT key value ttl => (PutValue s key value ttl).1
  | DELETE key => (Delete s key).1
  | DELETE_PREFIX prefix => filter (fun kv => HasPrefix kv.1 prefix = false) s
  end.

(** Modelled from the spec: the state a sequence of writes produces
    from the empty backend. *)
Definition run (writes : list Command) : Store := fold_left apply writes empty.

(** Modelled from the spec: the header [{format-version, term, index}]
    of a snapshot (section 4.C). *)
Record Header := { format_version : Z; term : Z; index : Z }.

(** Modelled from the spec: a snapshot, its header and its payload of
    records (section 4.C). *)
Record Snapshot := { header : Header; records : list (string * string) }.

(** Modelled from the spec: [Snapshot], missing with package
    [snapshots]: the ordered records under [/registry/…]. *)
Definition snapshot (h : Header) (s : Store) : Snapshot :=
  {| header := h; records := entriesWithPrefix s RegistryKeys |}.

(** Modelled from the spec: [Restore], missing with package
    [snapshots]: it writes the records, in their order, into the
    backend. *)
Definition restore (snap : Snapshot) (s : Store) : Store :=
  fold_left (fun s kv => (PutValue s kv.1 kv.2 0).1) (records snap) s.

(** The sequence [IterPrefix(prefix, fn)] hands to a callback that
    collects what it is given. *)
Definition collect (s : Store) (prefix : string) : list (string * string) :=
  (IterPrefix s prefix (fun k v acc => (acc ++ [(k, v)], None)) []).1.

(** Every key of the backend lies under [/registry/]. *)
Definition registryOnly (s : Store) : Prop :=
  Forall (fun kv => HasPrefix kv.1 RegistryKeys = true) s.

End Snapshots.

(** ** What the specification says of [ListNetworkACLs] *)

Module ACLOrder.
Import GoBytes GoErr MeshStorage V1 Networking.

(** "sorted by descending priority then ascending name": [a] may come
    before [b]. *)
Definition claimedBefore (a b : NetworkACL) : Prop :=
  (acl_Priority b < acl_Priority a)%Z
  \/ (acl_Priority a = acl_Priority b
      /\ String.compare (acl_Name a) (acl_Name b) <> Gt).

Definition sortedAsClaimed (acls : list NetworkACL) : Prop :=
  StronglySorted claimedBefore acls.

(** Ascending order of the names, which are then distinct. *)
Definition sortedByName (acls : list NetworkACL) : Prop :=
  StronglySorted (fun a b => key_lt (acl_Name a) (acl_Name b)) acls.

(** The key [PutNetworkACL] files an ACL under. *)
Definition aclKey (name : string) : string := NetworkACLsPrefix +:+ "/" +:+ name.

(** The backend holds a set of stored NetworkACLs: whatever lies under
    the ACL prefix is the encoding of an ACL, filed under the key of
    its name. *)
Definition storesACLs `{Protojson} (s : Store) : Prop :=
  forall k v, (k, v) ∈ s -> HasPrefix k NetworkACLsPrefix = true ->
    k <> NetworkACLsPrefix ->
    exists acl, UnmarshalACL v = Ok acl /\ k = aclKey (acl_Name acl).

(** What the closure of [ListNetworkACLs] appends for one entry. *)
Definition decoded `{Protojson} (kv : string * string) : option NetworkACL :=
  if String.eqb kv.1 NetworkACLsPrefix then None
  else match UnmarshalACL kv.2 with Ok acl => Some acl | Err _ => None end.

End ACLOrder.

(** ** Concrete collaborators for the closed examples *)

Module Fixtures.
Import GoBytes GoErr MeshStorage V1 Networking.

(** A stand-in for protojson on ACLs: one byte for the priority, then
    the name.  The other fields are not encoded. *)
Definition encodeACL (acl : NetworkACL) : result string :=
  Ok (String (ascii_of_N (Z.to_N (acl_Priority acl))) (acl_Name acl)).

Definition decodeACL (data : string) : result NetworkACL :=
  match data with
  | EmptyString => Err (Errorf "unexpected end of input")
  | String c name =>
      Ok {| acl_Name := name; acl_Priority := Z.of_N (N_of_ascii c);
            acl_Action := ACTION_ACCEPT;
            acl_SourceNodes := []; acl_DestinationNodes := [];
            acl_SourceCidrs := []; acl_DestinationCidrs := [] |}
  end.

(** [strings.Split(s, sep)] for a one-byte separator. *)
Fixpoint split (sep : ascii) (s : string) : list string :=
  match s with
  | EmptyString => [EmptyString]
  | String c rest =>
      if Ascii.eqb c sep then EmptyString :: split sep rest
      else
        match split sep rest with
        | field :: fields => String c field :: fields
        | [] => [String c EmptyString]
        end
  end.

(** A stand-in for protojson on routes: [name|node|cidr|cidr...]. *)
Definition encodeRoute (r : Route) : result string :=
  Ok (Join (route_Name r :: route_Node r :: route_DestinationCidrs r) "|").

Definition decodeRoute (data : string) : result Route :=
  match split "|"%char data with
  | name :: node :: cidrs =>
      Ok {| route_Name := name; route_Node := node; route_DestinationCidrs := cidrs |}
  | _ => Err (Errorf "unexpected end of input")
  end.

Definition lineCodec : Protojson := {|
  MarshalACL := encodeACL;
  UnmarshalACL := decodeACL;
  MarshalRoute := encodeRoute;
  UnmarshalRoute := decodeRoute
|}.

Definition mkACL (name : string) (priority : Z) : NetworkACL :=
  {| acl_Name := name; acl_Priority := priority; acl_Action := ACTION_ACCEPT;
     acl_SourceNodes := []; acl_DestinationNodes := [];
     acl_SourceCidrs := []; acl_DestinationCidrs := [] |}.

(** The backend after [PutNetworkACL] of ACL "a" with priority 0 and of
    ACL "b" with priority 10. *)
Definition twoACLs : Store :=
  (@PutNetworkACL lineCodec
     (@PutNetworkACL lineCodec empty (mkACL "a" 0)).1 (mkACL "b" 10)).1.

End Fixtures.

(** ** A linear mesh n1 - n2 - n3 for the closed examples *)

Module LinearMesh.
Import GoBytes GoErr MeshStorage V1 Networking Fixtures.
Import Svcutil.

(** ACLs that permit all communication. *)
Definition permissive : ACLEval := {|
  Expand := fun _ acls => Ok acls;
  AllowNodesToCommunicate := fun _ _ _ => true;
  Accept := fun _ _ => true
|}.

(** A stand-in for [netip.ParsePrefix]: a text with a colon is taken for
    an IPv6 prefix, any other non-empty text for an IPv4 prefix. *)
Definition colonNetip : Netip := {|
  ParsePrefix := fun cidr =>
    if String.eqb cidr "" then Err (Errorf "no '/'")
    else Ok {| Addr_Is4 := negb (hasColon cidr) |}
|}.

Definition node1 : Node := {|
  ID := "n1"; PublicKey := "key1"; PrimaryEndpoint := "10.0.0.2";
  WireGuardEndpoints := ["10.0.0.2:51820"]; ZoneAwarenessID := "";
  PrivateIPv4 := Some "172.16.0.1/32"; NetworkIPv6 := Some "fd00::1/128" |}.

(** The first WireGuard endpoint of [n2] begins with its primary
    endpoint [10.0.0.1] without having it as its host. *)
Definition node2 : Node := {|
  ID := "n2"; PublicKey := "key2"; PrimaryEndpoint := "10.0.0.1";
  WireGuardEndpoints := ["10.0.0.10:51820"; "10.0.0.1:51820"]; ZoneAwarenessID := "";
  PrivateIPv4 := Some "172.16.0.2/32"; NetworkIPv6 := Some "fd00::2/128" |}.

Definition node3 : Node := {|
  ID := "n3"; PublicKey := "key3"; PrimaryEndpoint := "";
  WireGuardEndpoints := []; ZoneAwarenessID := "";
  PrivateIPv4 := Some "172.16.0.3/32"; NetworkIPv6 := Some "fd00::3/128" |}.

Definition meshGraph : Graph := {|
  Vertex := fun id =>
    if String.eqb id "n1" then Ok node1
    else if String.eqb id "n2" then Ok node2
    else if String.eqb id "n3" then Ok node3
    else Err (Errorf "vertex not found")
|}.

Definition meshNodeOf (n : Node) : MeshNode := {|
  Id := ID n;
  PrivateIpv4 := default "" (PrivateIPv4 n);
  PrivateIpv6 := default "" (NetworkIPv6 n)
|}.

Definition meshGetter : NodeGetter := {|
  Get := fun id =>
    match Vertex meshGraph id with
    | Ok n => Ok (meshNodeOf n)
    | Err err => Err err
    end
|}.

Definition edge (a b : string) : Edge := {| Source := a; Target := b; Weight := 1 |}.

(** The edges n1 - n2 and n2 - n3, in both directions. *)
Definition meshEdges : gmap string (gmap string Edge) :=
  {[ "n1" := {[ "n2" := edge "n1" "n2" ]};
     "n2" := {[ "n1" := edge "n2" "n1"; "n3" := edge "n2" "n3" ]};
     "n3" := {[ "n2" := edge "n3" "n2" ]} ]}.

Definition meshPeerGraph : PeerGraph := {| AdjacencyMapOf := Ok meshEdges |}.

Definition route3 : Route := {|
  route_Name := "n3-auto"; route_Node := "n3";
  route_DestinationCidrs := ["10.9.0.0/16"]
|}.

(** The backend after [PutRoute] of a route that [n3] advertises. *)
Definition meshStore : Store := (@PutRoute lineCodec empty route3).1.

(** The filtered adjacency map of [n1]. *)
Definition meshFiltered : result (gmap string (gmap string Edge)) :=
  @FilterGraph lineCodec permissive colonNetip meshStore meshGetter meshPeerGraph
    (meshNodeOf node1).

(** ACLs that deny traffic to [10.9.0.0/16] and accept the rest. *)
Definition denyRoute : ACLEval := {|
  Expand := fun _ acls => Ok acls;
  AllowNodesToCommunicate := fun _ _ _ => true;
  Accept := fun _ action => negb (String.eqb (DstCidr action) "10.9.0.0/16")
|}.

(** The filtered adjacency map of [n2] under [denyRoute]. *)
Definition meshFilteredDeny : result (gmap string (gmap string Edge)) :=
  @FilterGraph lineCodec denyRoute colonNetip meshStore meshGetter meshPeerGraph
    (meshNodeOf node2).

(** The map [FilterGraph] returns for [n2] under [denyRoute]: the row
    of [n2] has lost [n3], and [n3] has no row. *)
Definition meshEdgesDeny : gmap string (gmap string Edge) :=
  {[ "n2" := {[ "n1" := edge "n2" "n1" ]};
     "n1" := {[ "n2" := edge "n1" "n2" ]} ]}.

(** The WireGuard peer that [n1] is given for [n2]. *)
Definition peer2 : WireGuardPeer := {|
  wg_Id := "n2"; wg_PublicKey := "key2"; wg_ZoneAwarenessId := "";
  wg_PrimaryEndpoint := "10.0.0.10:51820";
  wg_WireguardEndpoints := ["10.0.0.10:51820"; "10.0.0.1:51820"];
  wg_AddressIpv4 := "172.16.0.2/32"; wg_AddressIpv6 := "fd00::2/128";
  wg_AllowedIps := ["172.16.0.2/32"; "fd00::2/128"; "172.16.0.3/32"; "fd00::3/128"]
|}.

End LinearMesh.

(** ** Package [store]: validation of the raft options and the raft
      configuration built from them (src/pkg/store/options_raft.go) *)

Module RaftValidate.
Import GoErr RaftOpts.

Definition RaftLogFormatJSON : string := "json".
Definition RaftLogFormatProtobuf : string := "protobuf".

(** [func (r RaftLogFormat) IsValid() bool] *)
Definition IsValid (r : string) : bool :=
  String.eqb r RaftLogFormatJSON || String.eqb r RaftLogFormatProtobuf
  || String.eqb r RaftLogFormatProtobufSnappy.

(** [func (o *RaftOptions) Validate() error]; [None] at the argument is
    the nil pointer, [None] as the result the nil error. *)
Definition Validate (o : option RaftOptions) : option error :=
  match o with
  | None => Some (Errorf "raft options are nil")
  | Some o =>
      if String.eqb (DataDir o) "" && negb (InMemory o)
      then Some (Errorf "data directory is required")
      else if (ConnectionPoolCount o <? 0)%Z
      then Some (Errorf "connection pool count must be >= 0")
      else if (ConnectionTimeout o <=? 0)%Z
      then Some (Errorf "connection timeout must be > 0")
      else if (HeartbeatTimeout o <=? 0)%Z
      then Some (Errorf "heartbeat timeout must be > 0")
      else if (ElectionTimeout o <=? 0)%Z
      then Some (Errorf "election timeout must be > 0")
      else if (CommitTimeout o <=? 0)%Z
      then Some (Errorf "commit timeout must be > 0")
      else if (MaxAppendEntries o <=? 0)%Z
      then Some (Errorf "max append entries must be > 0")
      else if (LeaderLeaseTimeout o <=? 0)%Z
      then Some (Errorf "leader lease timeout must be > 0")
      else if (SnapshotInterval o <=? 0)%Z
      then Some (Errorf "snapshot interval must be > 0")
      else if negb (IsValid (LogFormat o))
      then Some (Errorf "invalid raft log format")
      else None
  end.

(** [raft.Config], the fields [RaftConfig] assigns; its [Logger] is an
    object built from the log level and is left out. *)
Record Config := {
  cfg_LocalID : string;
  cfg_HeartbeatTimeout : Duration;
  cfg_ElectionTimeout : Duration;
  cfg_CommitTimeout : Duration;
  cfg_MaxAppendEntries : Z;
  cfg_LeaderLeaseTimeout : Duration;
  cfg_SnapshotInterval : Duration;
  cfg_SnapshotThreshold : Z;
  cfg_LogLevel : string
}.

(** [raft.DefaultConfig()] and [hclog.LevelFromString(s).String()], of
    the libraries the package imports. *)
Class RaftLib := {
  DefaultConfig : Config;
  LevelName : string -> string
}.

(** [if o.F != 0 { config.F = o.F }] *)
Definition orDefault (optionValue libraryValue : Z) : Z :=
  if negb (optionValue =? 0)%Z then optionValue else libraryValue.

(** [func (o *RaftOptions) RaftConfig(nodeID string) *raft.Config] *)
Definition RaftConfig `{RaftLib} (o : RaftOptions) (nodeID : string) : Config := {|
  cfg_LocalID := nodeID;
  cfg_HeartbeatTimeout :=
    orDefault (HeartbeatTimeout o) (cfg_HeartbeatTimeout DefaultConfig);
  cfg_ElectionTimeout :=
    orDefault (ElectionTimeout o) (cfg_ElectionTimeout DefaultConfig);
  cfg_CommitTimeout :=
    orDefault (CommitTimeout o) (cfg_CommitTimeout DefaultConfig);
  cfg_MaxAppendEntries :=
    orDefault (MaxAppendEntries o) (cfg_MaxAppendEntries DefaultConfig);
  cfg_LeaderLeaseTimeout :=
    orDefault (LeaderLeaseTimeout o) (cfg_LeaderLeaseTimeout DefaultConfig);
  cfg_SnapshotInterval :=
    orDefault (SnapshotInterval o) (cfg_SnapshotInterval DefaultConfig);
  cfg_SnapshotThreshold :=
    orDefault (SnapshotThreshold o) (cfg_SnapshotThreshold DefaultConfig);
  cfg_LogLevel := LevelName (LogLevel o)
|}.

(** What [Validate] asks of the options. *)
Record validOptions (o : RaftOptions) : Prop := {
  vo_dataDir : DataDir o <> "" \/ InMemory o = true;
  vo_pool : (0 <= ConnectionPoolCount o)%Z;
  vo_connection : (0 < ConnectionTimeout o)%Z;
  vo_heartbeat : (0 < HeartbeatTimeout o)%Z;
  vo_election : (0 < ElectionTimeout o)%Z;
  vo_commit : (0 < CommitTimeout o)%Z;
  vo_maxAppend : (0 < MaxAppendEntries o)%Z;
  vo_leaderLease : (0 < LeaderLeaseTimeout o)%Z;
  vo_snapshotInterval : (0 < SnapshotInterval o)%Z;
  vo_logFormat : LogFormat o = "json" \/ LogFormat o = "protobuf"
                 \/ LogFormat o = "protobuf+snappy"
}.

(** A stand-in for the library defaults in the closed examples. *)
Definition sampleRaftLib : RaftLib := {|
  DefaultConfig := {|
    cfg_LocalID := ""; cfg_HeartbeatTimeout := Second; cfg_ElectionTimeout := Second;
    cfg_CommitTimeout := 50 * 1000000; cfg_MaxAppendEntries := 64;
    cfg_LeaderLeaseTimeout := Second / 2; cfg_SnapshotInterval := 120 * Second;
    cfg_SnapshotThreshold := 8192; cfg_LogLevel := "DEBUG" |}%Z;
  LevelName := fun s => s
|}.

End RaftValidate.

(** ** Package [networking]: the remaining route operations
      (src/pkg/meshdb/networking/networking.go) *)

Module NetworkRoutes.
Import GoBytes GoErr MeshStorage V1 Networking.

Section WithCodec.
Context `{Protojson}.

(** [func (n *networking) GetRoute(ctx, name)], returning the route or
    an error *)
Definition GetRoute (n : Store) (name : string) : result Route :=
  let key := RoutesPrefix +:+ "/" +:+ name in
  match GetValue n key with
  | Err err =>
      if IsKeyNotFound err then Err ErrRouteNotFound
      else Err (Wrap "get network route" err)
  | Ok data =>
      match UnmarshalRoute data with
      | Err err => Err (Wrap "unmarshal network route" err)
      | Ok route => Ok route
      end
  end.

(** The inner loop of [GetRoutesByCIDR] over [r.GetDestinationCidrs()]:
    whether it reaches the [append] (and the [break] after it). *)
Fixpoint anyDestination (destinations : list string) (cidr : string) : bool :=
  match destinations with
  | [] => false
  | destination :: rest =>
      if HasPrefix destination cidr then true else anyDestination rest cidr
  end.

(** The outer loop of [GetRoutesByCIDR]; [out] is the slice built so
    far. *)
Fixpoint routesByCIDR (routes : list Route) (cidr : string) (out : list Route)
    : list Route :=
  match routes with
  | [] => out
  | r :: rest =>
      routesByCIDR rest cidr
        (if anyDestination (route_DestinationCidrs r) cidr then out ++ [r] else out)
  end.

(** [func (n *networking) GetRoutesByCIDR(ctx, cidr)] *)
Definition GetRoutesByCIDR (n : Store) (cidr : string) : result (list Route) :=
  match ListRoutes n with
  | (_, Some err) => Err (Wrap "list network routes" err)
  | (routes, None) => Ok (routesByCIDR routes cidr [])
  end.

(** [func (n *networking) DeleteRoute(ctx, name) error] *)
Definition DeleteRoute (n : Store) (name : string) : Store * option error :=
  let key := RoutesPrefix +:+ "/" +:+ name in
  match Delete n key with
  | (n', Some err) => (n', Some (Wrap "delete network route" err))
  | (n', None) => (n', None)
  end.

End WithCodec.

(** The key under which the route named [name] is stored. *)
Definition routeKey (name : string) : string := RoutesPrefix +:+ "/" +:+ name.

(** Every entry under the routes prefix is a route written by
    [PutRoute]: it decodes, and its key is the one of the decoded name. *)
Definition storesRoutes `{Protojson} (s : Store) : Prop :=
  forall k v, (k, v) ∈ s -> HasPrefix k RoutesPrefix = true ->
    k <> RoutesPrefix ->
    exists r, UnmarshalRoute v = Ok r /\ k = routeKey (route_Name r).

(** What the closure of [ListRoutes] appends for one entry. *)
Definition decodedRoute `{Protojson} (kv : string * string) : option Route :=
  if String.eqb kv.1 RoutesPrefix then None
  else match UnmarshalRoute kv.2 with Ok r => Some r | Err _ => None end.

(** Some destination of the route begins, as a text, with [cidr]. *)
Definition destinationBeginsWith (cidr : string) (r : Route) : Prop :=
  exists destination, destination ∈ route_DestinationCidrs r
                      /\ HasPrefix destination cidr = true.

(** No entry of the store has the key. *)
Definition absent (s : Store) (key : string) : Prop :=
  forall v, (key, v) ∉ s.

End NetworkRoutes.

(** ** Package [membership]: the routes of a joining node
      (src/pkg/services/membership/server.go) *)

Module Membership.
Import GoBytes GoErr MeshStorage V1 Networking.

(** [func nodeAutoRoute(nodeID string) string] *)
Definition nodeAutoRoute (nodeID : string) : string := nodeID +:+ "-auto".

(** The loop over [r.DestinationCidrs] in [ensurePeerRoutes]: whether it
    reaches [continue Routes]. *)
Fixpoint hasCidr (cidrs : list string) (route : string) : bool :=
  match cidrs with
  | [] => false
  | cidr :: rest => if String.eqb cidr route then true else hasCidr rest route
  end.

(** The loop over [current] in [ensurePeerRoutes]: whether it reaches
    [continue Routes]. *)
Fixpoint advertised (current : list Route) (route : string) : bool :=
  match current with
  | [] => false
  | r :: rest =>
      if hasCidr (route_DestinationCidrs r) route then true
      else advertised rest route
  end.

Section WithCodec.
Context `{Protojson}.

(** [%q] of package [fmt], in the two error messages. *)
Variable Quote : string -> string.

(** The loop labelled [Routes]; [routes] is the whole requested list,
    [remaining] what the loop has yet to look at.  The result is the new
    state and the two return values. *)
Fixpoint ensureRoutes (n : Store) (nodeID : string) (routes : list string)
    (current : list Route) (remaining : list string)
    : Store * (bool * option error) :=
  match remaining with
  | [] => (n, (false, None))
  | route :: rest =>
      if advertised current route then ensureRoutes n nodeID routes current rest
      else
        let rt := {| route_Name := nodeAutoRoute nodeID;
                     route_Node := nodeID;
                     route_DestinationCidrs := routes |} in
        match PutRoute n rt with
        | (n', Some err) =>
            (n', (true, Some (Wrap ("put route for node " +:+ Quote nodeID) err)))
        | (n', None) => (n', (false, None))
        end
  end.

(** [func (s *Server) ensurePeerRoutes(ctx, nodeID, routes) (created bool, err error)] *)
Definition ensurePeerRoutes (n : Store) (nodeID : string) (routes : list string)
    : Store * (bool * option error) :=
  match GetRoutesByNode n nodeID with
  | Err err => (n, (false, Some (Wrap ("get routes for node " +:+ Quote nodeID) err)))
  | Ok current => ensureRoutes n nodeID routes current routes
  end.

End WithCodec.

(** The route [ensurePeerRoutes] writes for a node. *)
Definition autoRoute (nodeID : string) (routes : list string) : Route := {|
  route_Name := nodeAutoRoute nodeID;
  route_Node := nodeID;
  route_DestinationCidrs := routes
|}.

(** Each of [routes] is a destination of one of the routes [current]. *)
Definition advertises (current : list Route) (routes : list string) : Prop :=
  forall route, route ∈ routes ->
    exists r, r ∈ current /\ route ∈ route_DestinationCidrs r.

End Membership.

(** ** More stores for the closed examples *)

Module StoreFixtures.
Import GoBytes GoErr MeshStorage V1 Networking ACLOrder NetworkRoutes Fixtures.

(** ACL "a", then an entry for "b" that does not decode, then ACL "c". *)
Definition brokenACLs : Store :=
  put (@PutNetworkACL lineCodec
         (@PutNetworkACL lineCodec empty (mkACL "a" 0)).1 (mkACL "c" 0)).1
      (aclKey "b") "".

Definition route1 : Route := {|
  route_Name := "n1-auto"; route_Node := "n1";
  route_DestinationCidrs := ["192.168.0.0/24"; "10.90.0.0/16"]
|}.

(** The backend after [PutRoute] of the route of [n3] and of this
    one. *)
Definition twoRoutes : Store :=
  (@PutRoute lineCodec (@PutRoute lineCodec empty LinearMesh.route3).1 route1).1.

(** [%q] for the node IDs of the examples, which need no escaping; the
    quotation mark is the byte 34. *)
Definition quoteMark : string := String (ascii_of_N 34) EmptyString.
Definition quote (s : string) : string := quoteMark +:+ s +:+ quoteMark.

End StoreFixtures.

(** ** What [FilterGraph] maintains while it builds the filtered map *)

Module FilterGraphInvariants.
Import GoBytes GoErr MeshStorage V1 Networking.

Section WithExternals.
Context `{Protojson} `{ACLEval} `{Netip}.

(** Every edge of [m] is an edge of [full]. *)
Definition subgraphOf (m full : AdjacencyMap) : Prop :=
  forall node peer e, rowOf m node !! peer = Some e -> rowOf full node !! peer = Some e.

(** The routes of [dst] can be read, their destination CIDRs parse and
    the ACLs accept traffic from [thisNode] to each of them. *)
Definition routesAccepted (n : Store) (acls : ACLs) (thisNode : MeshNode)
    (dst : string) : Prop :=
  exists routes,
    GetRoutesByNode n dst = Ok routes
    /\ forall route cidr, route ∈ routes -> cidr ∈ route_DestinationCidrs route ->
         exists prefix, ParsePrefix cidr = Ok prefix
                        /\ Accept acls (routeAction thisNode dst cidr prefix) = true.

(** [k] is the ID of a node the getter returned that may communicate
    with [thisNode] and whose routes are accepted. *)
Definition permittedNode (n : Store) (acls : ACLs) (getter : NodeGetter)
    (thisNode : MeshNode) (k : string) : Prop :=
  exists nodeID node,
    Get getter nodeID = Ok node /\ Id node = k
    /\ AllowNodesToCommunicate acls thisNode node = true
    /\ routesAccepted n acls thisNode k.

(** The getter resolves [peerID] to a node that may communicate with
    [thisNode], and the routes of [peerID] are accepted. *)
Definition permittedPeer (n : Store) (acls : ACLs) (getter : NodeGetter)
    (thisNode : MeshNode) (peerID : string) : Prop :=
  exists peer,
    Get getter peerID = Ok peer
    /\ AllowNodesToCommunicate acls thisNode peer = true
    /\ routesAccepted n acls thisNode peerID.

(** The invariant of the two loops of [FilterGraph]. *)
Record filterInv (n : Store) (acls : ACLs) (getter : NodeGetter)
    (thisNode : MeshNode) (full : AdjacencyMap) (st : maps) : Prop := {
  fi_filtered : subgraphOf (filtered st) full;
  fi_full : subgraphOf (fullMap st) full;
  fi_this : is_Some (filtered st !! Id thisNode);
  fi_rows : forall k, k <> Id thisNode -> is_Some (filtered st !! k) ->
              permittedNode n acls getter thisNode k;
  fi_entries : forall k peer e, k <> Id thisNode ->
              rowOf (filtered st) k !! peer = Some e ->
              peer = Id thisNode \/ permittedPeer n acls getter thisNode peer
}.

End WithExternals.

End FilterGraphInvariants.

(** ** More vocabulary for the statements about WireGuard peers *)

Module SvcutilVocabulary.
Import GoErr Svcutil.

(** The list [recurseAllowedIPs] starts from: the valid private
    addresses of the node, IPv4 first. *)
Definition ownAddresses (node : Node) : list string :=
  appendIfValid (appendIfValid [] (PrivateIPv4 node)) (NetworkIPv6 node).

End SvcutilVocabulary.

(** ** More of the linear mesh for the closed examples *)

Module MeshFixtures.
Import GoBytes GoErr MeshStorage V1 Networking Svcutil Fixtures StoreFixtures LinearMesh.

(** ACLs that let no node communicate with another. *)
Definition denyAll : ACLEval := {|
  Expand := fun _ acls => Ok acls;
  AllowNodesToCommunicate := fun _ _ _ => false;
  Accept := fun _ _ => true
|}.

(** The map [FilterGraph] returns for [n2] under [denyAll]. *)
Definition meshEdgesDenyAll : gmap string (gmap string Edge) := {[ "n2" := ∅ ]}.

(** The WireGuard peers that [n2] is given for [n1] and for [n3]. *)
Definition peer1 : WireGuardPeer := {|
  wg_Id := "n1"; wg_PublicKey := "key1"; wg_ZoneAwarenessId := "";
  wg_PrimaryEndpoint := "10.0.0.2:51820";
  wg_WireguardEndpoints := ["10.0.0.2:51820"];
  wg_AddressIpv4 := "172.16.0.1/32"; wg_AddressIpv6 := "fd00::1/128";
  wg_AllowedIps := ["172.16.0.1/32"; "fd00::1/128"]
|}.

Definition peer3 : WireGuardPeer := {|
  wg_Id := "n3"; wg_PublicKey := "key3"; wg_ZoneAwarenessId := "";
  wg_PrimaryEndpoint := "";
  wg_WireguardEndpoints := [];
  wg_AddressIpv4 := "172.16.0.3/32"; wg_AddressIpv6 := "fd00::3/128";
  wg_AllowedIps := ["172.16.0.3/32"; "fd00::3/128"]
|}.

(** A map in which [n1] has a neighbour that is not in [meshGraph]. *)
Definition danglingEdges : gmap string (gmap string Edge) :=
  {[ "n1" := {[ "n4" := edge "n1" "n4" ]} ]}.

(** A map in which that neighbour has a row of its own. *)
Definition unknownRow : gmap string (gmap string Edge) :=
  {[ "n1" := {[ "n4" := edge "n1" "n4" ]}; "n4" := {[ "n1" := edge "n4" "n1" ]} ]}.

(** The backend with the one route of [n3], the routes requested for
    [n1], and the backend after [ensurePeerRoutes] for them. *)
Definition oneRoute : Store := (@PutRoute lineCodec empty LinearMesh.route3).1.

Definition requested : list string := ["10.0.0.0/24"; "10.1.0.0/24"].

Definition afterEnsure : Store :=
  [("/registry/routes/n1-auto", "n1-auto|n1|10.0.0.0/24|10.1.0.0/24");
   ("/registry/routes/n3-auto", "n3-auto|n3|10.9.0.0/16")].

End MeshFixtures.

(** ** Package [raft]: resolving addresses and the bootstrap
      configuration (src/pkg/raft/raft.go) *)

Module RaftNode.
Import GoErr.

(** What [resolveTCPAddr] returns: [addr, nil], where [addr] is nil when
    the loop was never entered; [nil, err] with the wrapped error of the
    last attempt; or the error built with ["%w: %w"] from that error and
    [ctx.Err()]. *)
Inductive resolved :=
| Resolved (addr : option string)
| ResolveError (err : error)
| ResolveCancelled (err ctxErr : error).

(** The world [resolveTCPAddr] runs in: the outcome of the [i]-th call
    of [net.ResolveTCPAddr("tcp", lookup)], counted from 0, and whether
    the [select] after the [i]-th failure takes [<-ctx.Done()], with the
    value of [ctx.Err()], or [<-time.After(time.Second)]. *)
Record Network := {
  attempt : nat -> result string;
  ctxDone : nat -> option error
}.

(** The loop [for tries < maxRetries] of [resolveTCPAddr];
    [remaining] is [maxRetries - tries]. *)
Fixpoint resolveLoop (net : Network) (remaining tries : nat) : resolved :=
  match remaining with
  | O => Resolved None
  | S remaining' =>
      match attempt net tries with
      | Ok addr => Resolved (Some addr)
      | Err e =>
          let err := Wrap "resolve tcp address" e in
          match remaining' with
          | O => ResolveError err
          | S _ =>
              match ctxDone net tries with
              | Some ctxErr => ResolveCancelled err ctxErr
              | None => resolveLoop net remaining' (S tries)
              end
          end
      end
  end.

(** [func (r *raftNode) resolveTCPAddr(ctx, lookup, maxRetries)] *)
Definition resolveTCPAddr (net : Network) (maxRetries : Z) : resolved :=
  resolveLoop net (Z.to_nat maxRetries) 0.

(** [raft.ServerSuffrage] and [raft.Server] *)
Inductive ServerSuffrage := Voter | Nonvoter | Staging.

Record Server := {
  srv_Suffrage : ServerSuffrage;
  srv_ID : string;
  srv_Address : string
}.

(** The server has a vote. *)
Definition isVoter (s : Server) : Prop := srv_Suffrage s = Voter.

Section Bootstrap.

(** [r.resolveTCPAddr(ctx, lookup, 3)] followed by [addr.String()], as a
    function of the text looked up, and [%d] of package [fmt]. *)
Variable resolve : string -> result string.
Variable Itoa : Z -> string.

(** [for nodeID, listenAddres := range opts.Servers] in [Bootstrap];
    [servers] is [cfg.Servers]. *)
Fixpoint appendServers (self : string) (entries : list (string * string))
    (servers : list Server) : result (list Server) :=
  match entries with
  | [] => Ok servers
  | (nodeID, listenAddres) :: rest =>
      if String.eqb nodeID self then appendServers self rest servers
      else
        match resolve listenAddres with
        | Err err => Err (Wrap "resolve server address" err)
        | Ok addr =>
            appendServers self rest
              (servers ++ [{| srv_Suffrage := Voter; srv_ID := nodeID;
                              srv_Address := addr |}])
        end
  end.

(** The first part of [func (r *raftNode) Bootstrap(ctx, opts)]: the
    configuration it hands to [r.raft.BootstrapCluster], or the error it
    returns before that call.  [started], [nodeID] and [listenPort] are
    the fields of the node; the range over [opts.Servers] is in the order
    of [map_to_list]. *)
Definition bootstrapConfiguration (started : bool) (nodeID : string) (listenPort : Z)
    (AdvertiseAddress : string) (Servers : gmap string string) : result (list Server) :=
  if negb started then Err (Errorf "raft node is closed")
  else
    let AdvertiseAddress :=
      if String.eqb AdvertiseAddress "" then "localhost:" +:+ Itoa listenPort
      else AdvertiseAddress in
    match resolve AdvertiseAddress with
    | Err err => Err (Wrap "resolve advertise address" err)
    | Ok addr =>
        appendServers nodeID (map_to_list Servers)
          [{| srv_Suffrage := Voter; srv_ID := nodeID; srv_Address := addr |}]
    end.

End Bootstrap.

(** A network in which the first two resolutions fail and the third
    succeeds, and the context is never done. *)
Definition flakyNetwork : Network := {|
  attempt := fun i =>
    match i with
    | 0 | 1 => Err (Errorf "no such host")
    | _ => Ok "10.0.0.1:9443"
    end;
  ctxDone := fun _ => None
|}.

(** A resolver for the closed examples: every text resolves to
    itself. *)
Definition literalResolve (lookup : string) : result string := Ok lookup.

(** [%d] for the one port of the closed examples. *)
Definition portText (port : Z) : string := "9443".

End RaftNode.

(** ** Package [plugins]: the plugin manager (src/pkg/plugins/plugins.go) *)

Module Plugins.
Import GoErr.

Section WithAPI.

(** [map[string]any], the [Config] field of a plugin's [Config], and
    [*structpb.Struct]; [structpb.NewStruct] converts the one to the
    other and may fail. *)
Variable ConfigMap : Type.
Variable Struct : Type.
Variable NewStruct : ConfigMap -> result Struct.

(** [v1.PluginCapability] is a protobuf enum, an int32. *)
Variable PLUGIN_CAPABILITY_AUTH : Z.

(** [v1.PluginClient], of which [New] calls [GetInfo], for the
    capabilities, and [Configure].  [client_name] stands for the
    identity of the client. *)
Record PluginClient := {
  client_name : string;
  GetInfo : result (list Z);
  Configure : Struct -> option error
}.

(** The two built-in plugins, which are other packages. *)
Variable mtlsPlugin : PluginClient.
Variable basicauthPlugin : PluginClient.

Definition BuiltIns : gmap string PluginClient :=
  {[ "mtls" := mtlsPlugin; "basic-auth" := basicauthPlugin ]}.

(** [type Config struct]; [Path] and [Server] are not read by [New]. *)
Record Config := {
  cfg_Path : string;
  cfg_Server : string;
  cfg_Config : ConfigMap
}.

(** [type manager struct], without the logger. *)
Record manager := {
  mgr_auth : option PluginClient;
  mgr_plugins : gmap string PluginClient
}.

(** [for _, cap := range caps.Capabilities]: the value of [auth] after
    the loop. *)
Fixpoint authAfter (caps : list Z) (builtIn : PluginClient)
    (auth : option PluginClient) : option PluginClient :=
  match caps with
  | [] => auth
  | cap :: rest =>
      authAfter rest builtIn
        (if (cap =? PLUGIN_CAPABILITY_AUTH)%Z then Some builtIn else auth)
  end.

(** One round of [for name, cfg := range opts.Plugins]; [quoted] is
    [%q] of package [fmt]. *)
Definition loadPlugin (quoted : string -> string) (m : manager)
    (name : string) (cfg : Config) : result manager :=
  match BuiltIns !! name with
  | Some builtIn =>
      match GetInfo builtIn with
      | Err err => Err (Wrap "get plugin info" err)
      | Ok caps =>
          let auth := authAfter caps builtIn (mgr_auth m) in
          match NewStruct (cfg_Config cfg) with
          | Err err => Err (Wrap "convert config" err)
          | Ok pcfg =>
              match Configure builtIn pcfg with
              | Some err => Err (Wrap ("configure plugin " +:+ quoted name) err)
              | None =>
                  Ok {| mgr_auth := auth;
                        mgr_plugins := <[ name := builtIn ]> (mgr_plugins m) |}
              end
          end
      end
  | None => Ok m
  end.

Fixpoint loadPlugins (quoted : string -> string) (m : manager)
    (plugins : list (string * Config)) : result manager :=
  match plugins with
  | [] => Ok m
  | (name, cfg) :: rest =>
      match loadPlugin quoted m name cfg with
      | Err err => Err err
      | Ok m' => loadPlugins quoted m' rest
      end
  end.

(** [func New(ctx, opts) (Manager, error)]; the configurations are not
    nil, and the range over [opts.Plugins] is in the order of
    [map_to_list]. *)
Definition New (quoted : string -> string) (Plugins : gmap string Config)
    : result manager :=
  loadPlugins quoted {| mgr_auth := None; mgr_plugins := ∅ |} (map_to_list Plugins).

(** [func (m *manager) Get(name string) (v1.PluginClient, bool)] *)
Definition Get (m : manager) (name : string) : option PluginClient :=
  mgr_plugins m !! name.

(** [func (m *manager) HasAuth() bool] *)
Definition HasAuth (m : manager) : bool :=
  match mgr_auth m with Some _ => true | None => false end.

(** The built-in plugin reports the capability to authenticate. *)
Definition authenticates (c : PluginClient) : Prop :=
  exists caps, GetInfo c = Ok caps /\ PLUGIN_CAPABILITY_AUTH ∈ caps.

End WithAPI.

(** Stand-ins for the closed example: configurations are texts, the
    mTLS plugin authenticates and accepts every configuration. *)
Definition sampleMTLS : PluginClient string := {|
  client_name := "mtls"; GetInfo := Ok [2%Z]; Configure := fun _ => None
|}.

Definition sampleBasicAuth : PluginClient string := {|
  client_name := "basic-auth"; GetInfo := Ok [2%Z]; Configure := fun _ => None
|}.

Definition sampleOptions : gmap string (Config string) :=
  {[ "mtls" := {| cfg_Path := ""; cfg_Server := ""; cfg_Config := "ca-file=/ca.pem" |};
     "ipam" := {| cfg_Path := "/usr/bin/ipam"; cfg_Server := ""; cfg_Config := "" |} ]}.

End Plugins.

(* ===================================================================== *)
(** * Part II: properties                                                  *)
(* ===================================================================== *)

Module GoBytesFacts.
Import GoBytes.

Lemma substring_0_app (p t : string) :
  String.substring 0 (String.length p) (p +:+ t) = p.
Proof. induction p as [|c p IH]; simpl; [by destruct t|by rewrite IH]. Qed.

Lemma length_app (p t : string) :
  String.length (p +:+ t) = (String.length p + String.length t)%nat.
Proof. induction p as [|c p IH]; simpl; [done|by rewrite IH]. Qed.

Lemma drop_app (p t : string) : drop (String.length p) (p +:+ t) = t.
Proof. induction p as [|c p IH]; simpl; done. Qed.

Lemma substring_drop (n : nat) (s : string) :
  (n <= String.length s)%nat ->
  s = String.substring 0 n s +:+ drop n s.
Proof.
  revert s; induction n as [|n IH]; intros s Hn.
  - by destruct s.
  - destruct s as [|c s]; simpl in *; [lia|].
    change (String c s = String c (String.substring 0 n s +:+ drop n s)).
    f_equal. apply IH. lia.
Qed.

Lemma HasPrefix_app (p t : string) : HasPrefix (p +:+ t) p = true.
Proof.
  unfold HasPrefix. rewrite substring_0_app, String.eqb_refl, length_app.
  rewrite andb_true_r. apply Nat.leb_le. lia.
Qed.

Lemma HasPrefix_spec (s p : string) :
  HasPrefix s p = true <-> exists t, s = p +:+ t.
Proof.
  split.
  - unfold HasPrefix. intros [Hlen Heq]%andb_true_iff.
    apply Nat.leb_le in Hlen. apply String.eqb_eq in Heq.
    exists (drop (String.length p) s).
    rewrite <- Heq at 1. by apply substring_drop.
  - intros [t ->]. apply HasPrefix_app.
Qed.

Lemma TrimPrefix_app (p t : string) : TrimPrefix (p +:+ t) p = t.
Proof. unfold TrimPrefix. by rewrite HasPrefix_app, drop_app. Qed.

Lemma TrimPrefix_none (s p : string) :
  HasPrefix s p = false -> TrimPrefix s p = s.
Proof. unfold TrimPrefix. by intros ->. Qed.

Lemma string_app_assoc (a b c : string) : (a +:+ b) +:+ c = a +:+ (b +:+ c).
Proof.
  induction a as [|x a IH]; [done|].
  change (String x ((a +:+ b) +:+ c) = String x (a +:+ (b +:+ c))).
  by rewrite IH.
Qed.

End GoBytesFacts.

Module StorageFacts.
Import GoBytes GoBytesFacts Storage.

Lemma Contains_spec (p : Prefix) (key : string) :
  Contains p key = true <-> begins_with key p.
Proof. apply HasPrefix_spec. Qed.

Lemma TrimFrom_For (p : Prefix) (k : string) :
  TrimFrom p (For p k) = TrimPrefix k "/".
Proof.
  unfold TrimFrom, For.
  change (Join [p; TrimPrefix k "/"] "/") with (p +:+ "/" +:+ TrimPrefix k "/").
  rewrite <- string_app_assoc. apply TrimPrefix_app.
Qed.

(** C9: [IsReservedPrefix key] is true exactly when [key] begins with
    "/registry" or with "/raft"; in particular every key under
    "/registry" is reserved. *)
Theorem IsReservedPrefix_iff :
  (forall key : string,
      IsReservedPrefix key = true <->
      begins_with key "/registry" \/ begins_with key "/raft")
  /\ (forall rest : string, IsReservedPrefix ("/registry" +:+ rest) = true).
Proof.
  assert (Hiff : forall key, IsReservedPrefix key = true <->
             begins_with key "/registry" \/ begins_with key "/raft").
  { intros key. unfold IsReservedPrefix, ReservedPrefixes; cbn [anyContains].
    unfold RegistryPrefix, ConsensusPrefix.
    rewrite <- !Contains_spec.
    destruct (Contains "/registry" key), (Contains "/raft" key); intuition congruence. }
  split; [exact Hiff|].
  intros rest. apply Hiff. left. by exists rest.
Qed.

(** C10: trimming a prefix from the key built for it gives the key
    back when the key has no leading "/", and the key without its one
    leading "/" when it has one. *)
Theorem TrimFrom_For_roundtrip :
  (forall (p : Prefix) (k : string),
      ~ begins_with k "/" -> TrimFrom p (For p k) = k)
  /\ (forall (p : Prefix) (k' : string),
      TrimFrom p (For p ("/" +:+ k')) = k').
Proof.
  split.
  - intros p k Hk. rewrite TrimFrom_For. apply TrimPrefix_none.
    destruct (HasPrefix k "/") eqn:E; [|done].
    exfalso. apply Hk. by apply HasPrefix_spec.
  - intros p k'. rewrite TrimFrom_For. apply (TrimPrefix_app "/" k').
Qed.

Lemma TrimFrom_For_roundtrip_witness :
  ~ begins_with "nodes/a" "/"
  /\ TrimFrom "/registry" (For "/registry" "nodes/a") = "nodes/a"
  /\ TrimFrom "/registry" (For "/registry" "/nodes/a") = "nodes/a"
  /\ TrimFrom "/registry" (For "/registry" "//nodes/a") = "/nodes/a".
Proof.
  assert (Hn : ~ begins_with "nodes/a" "/").
  { intros [rest Hrest]. simpl in Hrest. discriminate Hrest. }
  split; [exact Hn|].
  split; [exact (proj1 TrimFrom_For_roundtrip "/registry" "nodes/a" Hn)|].
  split.
  - exact (proj2 TrimFrom_For_roundtrip "/registry" "nodes/a").
  - exact (proj2 TrimFrom_For_roundtrip "/registry" "/nodes/a").
Defined.

End StorageFacts.

Module RaftOptsFacts.
Import RaftOpts.

(** C8: the defaults of [NewRaftOptions], field by field.  Nine of the
    ten listed values are the ones the code sets; the startup timeout is
    one minute in [NewRaftOptions], while the default that [BindFlags]
    registers for the same option is three minutes. *)
Theorem NewRaftOptions_defaults :
  HeartbeatTimeout NewRaftOptions = (3 * Second)%Z
  /\ ElectionTimeout NewRaftOptions = (3 * Second)%Z
  /\ CommitTimeout NewRaftOptions = (15 * Second)%Z
  /\ ApplyTimeout NewRaftOptions = (10 * Second)%Z
  /\ LeaderLeaseTimeout NewRaftOptions = (3 * Second)%Z
  /\ SnapshotInterval NewRaftOptions = (5 * Minute)%Z
  /\ SnapshotThreshold NewRaftOptions = 50%Z
  /\ ConnectionTimeout NewRaftOptions = (3 * Second)%Z
  /\ ShutdownTimeout NewRaftOptions = (1 * Minute)%Z
  /\ StartupTimeout NewRaftOptions = (1 * Minute)%Z
  /\ StartupTimeout NewRaftOptions <> (3 * Minute)%Z
  /\ StartupTimeout (@BindFlags unset_env NewRaftOptions) = (3 * Minute)%Z.
Proof. repeat split; try reflexivity. vm_compute. discriminate. Qed.

End RaftOptsFacts.

Module MeshStorageFacts.
Import GoBytes GoBytesFacts GoErr MeshStorage.

Lemma ascii_compare_refl (c : ascii) : Ascii.compare c c = Eq.
Proof. unfold Ascii.compare. apply N.compare_refl. Qed.

Lemma compare_refl (s : string) : String.compare s s = Eq.
Proof.
  induction s as [|c s IH]; simpl; [done|].
  by rewrite ascii_compare_refl.
Qed.

Lemma ascii_compare_lt_trans (a b c : ascii) :
  Ascii.compare a b = Lt -> Ascii.compare b c = Lt -> Ascii.compare a c = Lt.
Proof.
  unfold Ascii.compare. rewrite !N.compare_lt_iff. lia.
Qed.

Lemma key_lt_trans (a b c : string) : key_lt a b -> key_lt b c -> key_lt a c.
Proof.
  unfold key_lt. revert b c.
  induction a as [|x a IH]; intros [|y b] [|z c]; simpl; try done.
  destruct (Ascii.compare x y) eqn:Hxy; try done;
    destruct (Ascii.compare y z) eqn:Hyz; try done.
  - apply Ascii.compare_eq_iff in Hxy, Hyz. subst.
    rewrite ascii_compare_refl. apply IH.
  - apply Ascii.compare_eq_iff in Hxy. subst. by rewrite Hyz.
  - apply Ascii.compare_eq_iff in Hyz. subst. by rewrite Hxy.
  - by rewrite (ascii_compare_lt_trans x y z).
Qed.

Lemma key_lt_irrefl (a : string) : ~ key_lt a a.
Proof. unfold key_lt. by rewrite compare_refl. Qed.

Lemma key_lt_ne (a b : string) : key_lt a b -> a <> b.
Proof. intros H ->. by apply (key_lt_irrefl b). Qed.

Lemma compare_gt_lt (a b : string) : String.compare a b = Gt -> key_lt b a.
Proof.
  unfold key_lt. intros H. rewrite String.compare_antisym, H. done.
Qed.

(** A common prefix does not change the order of two keys. *)
Lemma compare_app (p a b : string) :
  String.compare (p +:+ a) (p +:+ b) = String.compare a b.
Proof.
  induction p as [|c p IH]; [done|].
  change (String.compare (String c (p +:+ a)) (String c (p +:+ b))
          = String.compare a b).
  simpl. by rewrite ascii_compare_refl.
Qed.

Lemma eqb_of_compare_ne (a b : string) :
  String.compare a b <> Eq -> String.eqb b a = false.
Proof.
  intros H. apply String.eqb_neq. intros ->. by rewrite compare_refl in H.
Qed.

(** Reading a key back after writing it. *)
Lemma GetValue_put_eq (s : Store) (key value : string) :
  GetValue (put s key value) key = Ok value.
Proof.
  induction s as [|[k v] s IH]; simpl.
  - by rewrite String.eqb_refl.
  - destruct (String.compare key k) eqn:Hc; simpl.
    + by rewrite String.eqb_refl.
    + by rewrite String.eqb_refl.
    + rewrite (eqb_of_compare_ne key k) by congruence. exact IH.
Qed.

Lemma elem_of_put (s : Store) (key value : string) (kv : string * string) :
  kv ∈ put s key value -> kv = (key, value) \/ kv ∈ s.
Proof.
  induction s as [|[k v] s IH]; simpl.
  - intros ->%list_elem_of_singleton. by left.
  - destruct (String.compare key k) eqn:Hc; rewrite !elem_of_cons; intuition.
Qed.

Lemma put_ordered (s : Store) (key value : string) :
  ordered s -> ordered (put s key value).
Proof.
  unfold ordered. induction s as [|[k v] s IH]; simpl; intros Hs.
  - repeat constructor.
  - apply StronglySorted_inv in Hs as [Hs Hk].
    destruct (String.compare key k) eqn:Hc; simpl.
    + apply String.compare_eq_iff in Hc as ->. by constructor.
    + constructor; [by constructor|].
      constructor; [exact Hc|].
      eapply Forall_impl; [exact Hk|]. intros x. by apply key_lt_trans.
    + constructor; [by apply IH|].
      apply Forall_forall. intros x [[k' v'] [-> Hin]]%list_elem_of_fmap.
      apply elem_of_put in Hin as [[= -> ->]|Hin]; simpl.
      * by apply compare_gt_lt.
      * rewrite Forall_forall in Hk. apply Hk.
        apply list_elem_of_fmap. by exists (k', v').
Qed.

(** Writing a key above all present keys appends the entry. *)
Lemma put_above (s : Store) (key value : string) :
  Forall (fun k => key_lt k key) s.*1 -> put s key value = s ++ [(key, value)].
Proof.
  induction s as [|[k v] s IH]; simpl; [done|].
  intros [Hk Hs]%Forall_cons. simpl in Hk.
  rewrite String.compare_antisym, Hk. simpl. by rewrite IH.
Qed.

(** Writing the entries of an ordered sequence, in their order, after
    entries that all lie below them rebuilds the sequence. *)
Lemma put_all_ordered (l acc : Store) :
  ordered (acc ++ l) ->
  fold_left (fun s kv => (PutValue s kv.1 kv.2 0).1) l acc = acc ++ l.
Proof.
  revert acc. induction l as [|[k v] l IH]; intros acc Hord; simpl.
  - by rewrite app_nil_r.
  - rewrite put_above.
    + rewrite IH; [by rewrite <- app_assoc|].
      by rewrite <- app_assoc.
    + unfold ordered in Hord. rewrite fmap_app in Hord.
      apply Forall_forall. intros x Hx.
      eapply (StronglySorted_app_1_elem_of _ _ _ x k Hord); [done|].
      simpl. by left.
Qed.

(** [iterate] with a callback that never fails visits every entry. *)
Lemma iterate_total {A} (es : list (string * string))
    (fn : string -> string -> A -> A * option error) (step : string -> string -> A -> A) :
  (forall k v acc, (k, v) ∈ es -> fn k v acc = (step k v acc, None)) ->
  forall acc,
    iterate es fn acc = (fold_left (fun acc kv => step kv.1 kv.2 acc) es acc, None).
Proof.
  induction es as [|[k v] es IH]; intros Hfn acc; simpl; [done|].
  rewrite Hfn by (by left). apply IH.
  intros k' v' acc' Hin. apply Hfn. by right.
Qed.

End MeshStorageFacts.

Module NetworkACLFacts.
Import GoBytes GoBytesFacts GoErr MeshStorage MeshStorageFacts V1 Networking ACLOrder.

Lemma aclKey_has_prefix (name : string) : HasPrefix (aclKey name) NetworkACLsPrefix = true.
Proof. apply HasPrefix_app. Qed.

Lemma aclKey_ne_prefix (name : string) : aclKey name <> NetworkACLsPrefix.
Proof.
  intros Heq. apply (f_equal String.length) in Heq.
  unfold aclKey in Heq. rewrite !length_app in Heq. simpl in Heq. lia.
Qed.

Lemma compare_aclKey (a b : string) :
  String.compare (aclKey a) (aclKey b) = String.compare a b.
Proof. unfold aclKey. by rewrite !compare_app. Qed.

Section WithCodec.
Context `{Protojson}.

Lemma fold_decoded (es : list (string * string)) (acc : ACLs) :
  fold_left
    (fun acc kv =>
       match decoded (kv.1, kv.2) with Some a => acc ++ [a] | None => acc end)
    es acc = acc ++ omap decoded es.
Proof.
  revert acc. induction es as [|[k v] es IH]; intros acc; simpl.
  - by rewrite app_nil_r.
  - rewrite IH. destruct (decoded (k, v)); [|done].
    by rewrite <- app_assoc.
Qed.

(** When every entry under the prefix decodes, the listing is the
    decoded entries in backend order and the error is nil. *)
Lemma ListNetworkACLs_decoded (s : Store) :
  storesACLs s ->
  ListNetworkACLs s = (omap decoded (entriesWithPrefix s NetworkACLsPrefix), None).
Proof.
  intros Hs. unfold ListNetworkACLs, IterPrefix.
  rewrite (iterate_total _ _
    (fun k v acc => match decoded (k, v) with Some a => acc ++ [a] | None => acc end)).
  - f_equal. apply (fold_decoded _ []).
  - intros k v acc [Hpre Hin]%list_elem_of_filter. simpl in Hpre.
    unfold listACLsFn, decoded; simpl.
    destruct (String.eqb k NetworkACLsPrefix) eqn:Hk; [done|].
    apply String.eqb_neq in Hk.
    destruct (Hs k v Hin Hpre Hk) as (acl & -> & _). done.
Qed.

Lemma elem_of_decoded (s : Store) (acl : NetworkACL) :
  acl ∈ omap decoded (entriesWithPrefix s NetworkACLsPrefix) <->
  exists k v, (k, v) ∈ s /\ HasPrefix k NetworkACLsPrefix = true
              /\ k <> NetworkACLsPrefix /\ UnmarshalACL v = Ok acl.
Proof.
  rewrite list_elem_of_omap. split.
  - intros ([k v] & [Hpre Hin]%list_elem_of_filter & Hdec).
    unfold decoded in Hdec; simpl in *.
    destruct (String.eqb k NetworkACLsPrefix) eqn:Hk; [done|].
    apply String.eqb_neq in Hk.
    destruct (UnmarshalACL v) as [a|] eqn:Hv; [|done].
    exists k, v. naive_solver.
  - intros (k & v & Hin & Hpre & Hk & Hv). exists (k, v). split.
    + by apply list_elem_of_filter.
    + unfold decoded; simpl. apply String.eqb_neq in Hk. by rewrite Hk, Hv.
Qed.

Lemma storesACLs_tail (kv : string * string) (s : Store) :
  storesACLs (kv :: s) -> storesACLs s.
Proof. intros Hs k v Hin. apply Hs. by right. Qed.

Lemma decoded_sortedByName (s : Store) :
  ordered s -> storesACLs s ->
  sortedByName (omap decoded (entriesWithPrefix s NetworkACLsPrefix)).
Proof.
  unfold sortedByName, entriesWithPrefix.
  induction s as [|[k v] s IH]; intros Hord Hs; [constructor|].
  apply StronglySorted_inv in Hord as [Hord Hk].
  specialize (IH Hord (storesACLs_tail _ _ Hs)).
  rewrite filter_cons. case_decide as Hpre; [|exact IH]. simpl.
  destruct (decoded (k, v)) as [acl|] eqn:Hdec; [|exact IH].
  constructor; [exact IH|].
  apply Forall_forall. intros b Hb.
  apply elem_of_decoded in Hb as (k' & v' & Hin & Hpre' & Hne' & Hv').
  destruct (Hs k' v') as (b' & Hb' & Hk'); [by right|done|done|].
  assert (b' = b) as -> by congruence.
  unfold decoded in Hdec; simpl in *.
  destruct (String.eqb k NetworkACLsPrefix) eqn:Hkp; [done|].
  apply String.eqb_neq in Hkp.
  destruct (Hs k v) as (a' & Ha' & Hka); [by left|done|done|].
  rewrite Ha' in Hdec. injection Hdec as ->.
  rewrite Forall_forall in Hk.
  assert (key_lt k k') as Hlt.
  { apply Hk. apply list_elem_of_fmap. by exists (k', v'). }
  unfold key_lt in *. by rewrite Hka, Hk', compare_aclKey in Hlt.
Qed.

(** C1 (amended): on a backend that holds a set of stored NetworkACLs,
    [ListNetworkACLs] returns, with a nil error, exactly the stored
    ACLs in the backend's ascending key order, which is the
    ascending order of their names; priorities play no part. *)
Theorem ListNetworkACLs_by_name (s : Store) :
  ordered s -> storesACLs s ->
  exists out : ACLs,
    ListNetworkACLs s = (out, None)
    /\ sortedByName out
    /\ (forall acl, acl ∈ out <->
          exists v, (aclKey (acl_Name acl), v) ∈ s /\ UnmarshalACL v = Ok acl).
Proof.
  intros Hord Hs.
  exists (omap decoded (entriesWithPrefix s NetworkACLsPrefix)).
  split; [by apply ListNetworkACLs_decoded|].
  split; [by apply decoded_sortedByName|].
  intros acl. rewrite elem_of_decoded. split.
  - intros (k & v & Hin & Hpre & Hne & Hv).
    destruct (Hs k v Hin Hpre Hne) as (a' & Ha' & ->).
    exists v. split; [|done]. by replace acl with a' by congruence.
  - intros (v & Hin & Hv). exists (aclKey (acl_Name acl)), v.
    eauto using aclKey_has_prefix, aclKey_ne_prefix.
Qed.

(** C6: [PutNetworkACL] of the system ACL "bootstrap-nodes" succeeds
    and stores the ACL when no entry of that name exists; it returns an
    error and leaves the backend as it was when one exists;
    [DeleteNetworkACL] of that name always returns an error and leaves
    the backend as it was. *)
Theorem system_acl_create_once :
  (forall (n : Store) (acl : NetworkACL) (data : string),
      acl_Name acl = BootstrapNodesNetworkACLName ->
      GetValue n (aclKey BootstrapNodesNetworkACLName) = Err ErrKeyNotFound ->
      MarshalACL acl = Ok data ->
      exists n', PutNetworkACL n acl = (n', None)
                 /\ GetValue n' (aclKey BootstrapNodesNetworkACLName) = Ok data)
  /\ (forall (n : Store) (acl : NetworkACL) (existing : string),
      acl_Name acl = BootstrapNodesNetworkACLName ->
      GetValue n (aclKey BootstrapNodesNetworkACLName) = Ok existing ->
      exists err, PutNetworkACL n acl = (n, Some err))
  /\ (forall n : Store,
      exists err, DeleteNetworkACL n BootstrapNodesNetworkACLName = (n, Some err)).
Proof.
  split; [|split].
  - intros n acl data Hname Hget Hdata.
    unfold PutNetworkACL, systemACLGuard, GetNetworkACL.
    rewrite Hname. fold (aclKey BootstrapNodesNetworkACLName).
    rewrite Hget, Hdata. simpl.
    eexists. split; [reflexivity|]. apply GetValue_put_eq.
  - intros n acl existing Hname Hget.
    unfold PutNetworkACL, systemACLGuard, GetNetworkACL.
    rewrite Hname. fold (aclKey BootstrapNodesNetworkACLName).
    rewrite Hget. simpl.
    destruct (UnmarshalACL existing); simpl; eauto.
  - intros n. unfold DeleteNetworkACL. simpl. eauto.
Qed.

End WithCodec.

(** *** The two-ACL backend of [Fixtures] *)

Import Fixtures.

Lemma twoACLs_entries :
  twoACLs = [(aclKey "a", String (ascii_of_N 0) "a");
             (aclKey "b", String (ascii_of_N 10) "b")].
Proof. reflexivity. Qed.

Lemma twoACLs_ordered : ordered twoACLs.
Proof.
  rewrite twoACLs_entries. unfold ordered.
  repeat constructor.
Qed.

Lemma twoACLs_stores : @storesACLs lineCodec twoACLs.
Proof.
  intros k v Hin _ _. rewrite twoACLs_entries in Hin.
  apply elem_of_cons in Hin as [[= -> ->]|Hin].
  { exists (mkACL "a" 0). split; reflexivity. }
  apply list_elem_of_singleton in Hin as [= -> ->].
  exists (mkACL "b" 10). split; reflexivity.
Qed.

Lemma ListNetworkACLs_by_name_witness :
  ordered twoACLs /\ @storesACLs lineCodec twoACLs
  /\ exists out : ACLs,
      @ListNetworkACLs lineCodec twoACLs = (out, None)
      /\ sortedByName out
      /\ (forall acl, acl ∈ out <->
            exists v, (aclKey (acl_Name acl), v) ∈ twoACLs
                      /\ @UnmarshalACL lineCodec v = Ok acl).
Proof.
  split; [exact twoACLs_ordered|].
  split; [exact twoACLs_stores|].
  exact (@ListNetworkACLs_by_name lineCodec twoACLs twoACLs_ordered twoACLs_stores).
Defined.

(** C1 as stated fails: with ACL "a" of priority 0 and ACL "b" of
    priority 10 stored, the listing is [a; b], the lower priority
    first. *)
Lemma ListNetworkACLs_ignores_priority :
  ordered twoACLs /\ @storesACLs lineCodec twoACLs
  /\ @ListNetworkACLs lineCodec twoACLs = ([mkACL "a" 0; mkACL "b" 10], None)
  /\ ~ sortedAsClaimed [mkACL "a" 0; mkACL "b" 10].
Proof.
  split; [exact twoACLs_ordered|].
  split; [exact twoACLs_stores|].
  split; [reflexivity|].
  intros [_ Hab]%StronglySorted_inv.
  apply Forall_cons in Hab as [[Hlt|[Heq _]] _]; simpl in *; lia.
Qed.

Lemma system_acl_create_once_witness :
  let acl := mkACL BootstrapNodesNetworkACLName 0 in
  let n' := (@PutNetworkACL lineCodec empty acl).1 in
  (exists n'', @PutNetworkACL lineCodec empty acl = (n'', None)
      /\ GetValue n'' (aclKey BootstrapNodesNetworkACLName)
         = Ok (String (ascii_of_N 0) BootstrapNodesNetworkACLName))
  /\ (exists err, @PutNetworkACL lineCodec n' (mkACL BootstrapNodesNetworkACLName 7)
                  = (n', Some err)).
Proof.
  intros acl n'. split.
  - apply (proj1 (@system_acl_create_once lineCodec) empty acl); reflexivity.
  - apply (proj1 (proj2 (@system_acl_create_once lineCodec)) n'
             (mkACL BootstrapNodesNetworkACLName 7)
             (String (ascii_of_N 0) BootstrapNodesNetworkACLName)); reflexivity.
Defined.

End NetworkACLFacts.


Module SnapshotFacts.
Import GoBytes GoBytesFacts GoErr MeshStorage MeshStorageFacts Snapshots.

Lemma ordered_sublist (s' s : Store) : s' `sublist_of` s -> ordered s -> ordered s'.
Proof.
  unfold ordered. induction 1 as [|x l1 l2 Hsub IH|x l1 l2 Hsub IH]; intros Hs.
  - constructor.
  - rewrite !fmap_cons in *. apply StronglySorted_inv in Hs as [Hs Hx].
    constructor; [by apply IH|].
    apply Forall_forall. intros k Hk. rewrite Forall_forall in Hx. apply Hx.
    eapply elem_of_sublist; [exact Hk|]. by apply fmap_sublist.
  - rewrite fmap_cons in Hs. apply StronglySorted_inv in Hs as [Hs _]. by apply IH.
Qed.

Lemma remove_sublist (s : Store) (key : string) : remove s key `sublist_of` s.
Proof.
  induction s as [|[k v] s IH]; simpl; [constructor|].
  destruct (String.eqb k key); by constructor.
Qed.

Lemma registryOnly_sublist (s' s : Store) :
  s' `sublist_of` s -> registryOnly s -> registryOnly s'.
Proof.
  unfold registryOnly. rewrite !Forall_forall. intros Hsub Hs kv Hin.
  apply Hs. by eapply elem_of_sublist.
Qed.

Lemma apply_ordered (s : Store) (c : Command) : ordered s -> ordered (apply s c).
Proof.
  destruct c as [key value ttl|key|prefix]; simpl.
  - apply put_ordered.
  - apply ordered_sublist, remove_sublist.
  - apply ordered_sublist, sublist_filter.
Qed.

Lemma apply_registryOnly (s : Store) (c : Command) :
  owned c -> registryOnly s -> registryOnly (apply s c).
Proof.
  destruct c as [key value ttl|key|prefix]; simpl; intros Hc Hs.
  - unfold registryOnly in *. rewrite Forall_forall in *.
    intros kv [->|Hin]%elem_of_put; [exact Hc|by apply Hs].
  - eapply registryOnly_sublist; [apply remove_sublist|done].
  - eapply registryOnly_sublist; [apply sublist_filter|done].
Qed.

Lemma run_invariant (writes : list Command) (s : Store) :
  Forall owned writes -> ordered s -> registryOnly s ->
  ordered (fold_left apply writes s) /\ registryOnly (fold_left apply writes s).
Proof.
  revert s. induction writes as [|c writes IH]; intros s Hw Ho Hr; simpl; [done|].
  apply Forall_cons in Hw as [Hc Hw].
  apply IH; [done|by apply apply_ordered|by apply apply_registryOnly].
Qed.

Lemma filter_all (s : Store) (P : string * string -> Prop) `{!forall x, Decision (P x)} :
  Forall P s -> filter P s = s.
Proof.
  induction 1 as [|x l Hx Hl IH]; [done|].
  by rewrite filter_cons_True, IH.
Qed.

(** Restoring the snapshot of an ordered backend whose keys all lie
    under [/registry/] into the empty backend rebuilds that backend. *)
Lemma restore_snapshot (h : Header) (s : Store) :
  ordered s -> registryOnly s -> restore (snapshot h s) empty = s.
Proof.
  intros Ho Hr. unfold restore, snapshot, entriesWithPrefix; cbn [records].
  rewrite filter_all by exact Hr.
  apply (put_all_ordered s []), Ho.
Qed.

(** C7, amended: for every backend state produced by a sequence of
    writes whose [PUT]s are all at keys under [/registry/], taking a
    snapshot and restoring it into an empty backend gives a backend whose
    ordered key/value iteration from ["/"] is equal to that of the
    original.  Without the restriction the round trip fails: a snapshot
    holds the records under [/registry/] only, so a key written elsewhere
    is not restored. *)
Theorem snapshot_restore_roundtrip (writes : list Command) (h : Header) :
  Forall owned writes ->
  collect (restore (snapshot h (run writes)) empty) "/" = collect (run writes) "/"
  /\ collect (run writes) "/" = run writes.
Proof.
  intros Hw.
  destruct (run_invariant writes empty Hw) as [Ho Hr]; [constructor|constructor|].
  fold (run writes) in Ho, Hr.
  split; [by rewrite restore_snapshot|].
  unfold collect, IterPrefix.
  rewrite (iterate_total _ _ (fun k v acc => acc ++ [(k, v)])) by done.
  simpl. unfold entriesWithPrefix. rewrite filter_all.
  - generalize (run writes). intros l.
    enough (Hgen : forall acc : Store,
               fold_left (fun acc kv => acc ++ [(kv.1, kv.2)]) l acc = acc ++ l)
      by apply (Hgen []).
    induction l as [|[k v] l IH]; intros acc; simpl.
    + by rewrite app_nil_r.
    + rewrite IH. by rewrite <- app_assoc.
  - eapply Forall_impl; [exact Hr|]. intros [k v] Hk; simpl in *.
    apply HasPrefix_spec in Hk as [t ->]. apply (HasPrefix_app "/" ("registry/" +:+ t)).
Qed.

Lemma snapshot_restore_roundtrip_witness :
  let writes := [PUT "/registry/foo" "bar" 0; PUT "/registry/baz" "qux" 0;
                 PUT "/registry/abc" "def" 0; DELETE "/registry/baz";
                 PUT "/registry/foo" "bar2" 30] in
  let h := {| format_version := 1; term := 2; index := 5 |} in
  Forall owned writes
  /\ run writes = [("/registry/abc", "def"); ("/registry/foo", "bar2")]
  /\ collect (restore (snapshot h (run writes)) empty) "/" = collect (run writes) "/"
  /\ collect (run writes) "/" = run writes.
Proof.
  intros writes h.
  assert (Hw : Forall owned writes) by (repeat constructor).
  split; [exact Hw|]. split; [reflexivity|].
  exact (snapshot_restore_roundtrip writes h Hw).
Defined.

(** The state after a write under [/registry/] and a write of an
    internal marker under [/raft/], which section 9 allows the FSM, has
    two entries; the snapshot holds the first alone, and so does the
    backend restored from it. *)
Lemma snapshot_restore_loses_other_keys :
  let writes := [PUT "/registry/a" "1" 0; PUT "/raft/marker" "x" 0] in
  let h := {| format_version := 1; term := 1; index := 2 |} in
  run writes = [("/raft/marker", "x"); ("/registry/a", "1")]
  /\ collect (run writes) "/" = [("/raft/marker", "x"); ("/registry/a", "1")]
  /\ records (snapshot h (run writes)) = [("/registry/a", "1")]
  /\ collect (restore (snapshot h (run writes)) empty) "/" = [("/registry/a", "1")]
  /\ collect (restore (snapshot h (run writes)) empty) "/" <> collect (run writes) "/".
Proof.
  intros writes h.
  split; [reflexivity|]. split; [reflexivity|]. split; [reflexivity|].
  split; [reflexivity|]. discriminate.
Qed.

End SnapshotFacts.


Module SvcutilFacts.
Import GoBytes GoBytesFacts GoErr.
Import Networking (Edge, rowOf).
Import Svcutil.

Lemma elem_of_appendIfValid (ips : list string) (p : NetipPrefix) (a : string) :
  a ∈ appendIfValid ips p <-> a ∈ ips \/ p = Some a.
Proof.
  destruct p as [s|]; simpl.
  - rewrite elem_of_app, list_elem_of_singleton. naive_solver.
  - naive_solver.
Qed.

Lemma contains_spec (ss : list string) (s : string) : contains ss s = true <-> s ∈ ss.
Proof.
  induction ss as [|v ss IH]; simpl.
  - split; [done|]. by intros ?%elem_of_nil.
  - rewrite elem_of_cons. destruct (String.eqb_spec v s) as [->|Hne].
    + naive_solver.
    + rewrite IH. naive_solver.
Qed.

Lemma elem_of_appendMissing (allowedIPs edgeIPs : list string) (a : string) :
  a ∈ appendMissing allowedIPs edgeIPs <-> a ∈ allowedIPs \/ a ∈ edgeIPs.
Proof.
  revert allowedIPs. induction edgeIPs as [|ip rest IH]; intros allowedIPs; simpl.
  - rewrite elem_of_nil. naive_solver.
  - rewrite elem_of_cons.
    destruct (contains allowedIPs ip) eqn:Hc; simpl; rewrite IH.
    + apply contains_spec in Hc. naive_solver.
    + rewrite elem_of_app, list_elem_of_singleton. naive_solver.
Qed.

Section RecurseFacts.
Variable graph : Graph.
Variable adjacencyMap : gmap string (gmap string Edge).
Variable thisPeer : string.

Abbreviation recurseEdge := (recurseEdge graph adjacencyMap thisPeer).
Abbreviation visitTargets := (visitTargets graph thisPeer).
Abbreviation eligible := (eligible adjacencyMap thisPeer).
Abbreviation directAdjacents := (rowOf adjacencyMap thisPeer).
Abbreviation visitsOK := (visitsOK graph adjacencyMap thisPeer).
Abbreviation U := (allTargets adjacencyMap).
Abbreviation recurseOK := (recurseOK graph adjacencyMap thisPeer).
Abbreviation returns := (returns graph adjacencyMap).

Lemma eligible_tests (t : string) :
  eligible t <->
  String.eqb t thisPeer = false
  /\ bool_decide (is_Some (directAdjacents !! t)) = false.
Proof.
  unfold Svcutil.eligible. rewrite String.eqb_neq, bool_decide_eq_false.
  rewrite <- eq_None_not_Some. done.
Qed.

Lemma addrsIn_mono (n : Node) (ips ips' : list string) :
  (forall a, a ∈ ips -> a ∈ ips') -> addrsIn n ips -> addrsIn n ips'.
Proof. unfold addrsIn. eauto. Qed.

Lemma keys_of_row (row : gmap string Edge) (t : string) :
  t ∈ (map_to_list row).*1 <-> is_Some (row !! t).
Proof.
  rewrite list_elem_of_fmap. split.
  - intros ([k e] & -> & Hin). apply elem_of_map_to_list in Hin. by exists e.
  - intros [e He]. exists (t, e). split; [done|]. by apply elem_of_map_to_list.
Qed.

Lemma visitTargets_ok recurse (targets : list string) :
  recurseOK recurse ->
  forall ips visited ips' visited',
    visitTargets recurse directAdjacents targets ips visited = Done (ips', visited') ->
    visitsOK visited ips ips' visited'
    /\ (forall t, t ∈ targets -> eligible t -> t ∈ visited').
Proof.
  intros Hrec. induction targets as [|target rest IH]; intros ips visited ips' visited'.
  { simpl. intros [= <- <-]. split; [|by intros t ?%elem_of_nil].
    split; [done|done|by left|done|done]. }
  simpl.
  destruct (String.eqb target thisPeer) eqn:Hthis.
  { intros [Hok Hrest]%IH. split; [done|].
    intros t [->|Hin]%elem_of_cons Hel; [|by apply Hrest].
    destruct (proj1 (eligible_tests _) Hel); congruence. }
  destruct (bool_decide (is_Some (directAdjacents !! target))) eqn:Hadj.
  { intros [Hok Hrest]%IH. split; [done|].
    intros t [->|Hin]%elem_of_cons Hel; [|by apply Hrest].
    destruct (proj1 (eligible_tests _) Hel); congruence. }
  assert (Hel : eligible target) by (by apply eligible_tests).
  destruct (bool_decide (target ∈ visited)) eqn:Hvis.
  { apply bool_decide_eq_true in Hvis.
    intros [Hok Hrest]%IH. split; [done|].
    intros t [->|Hin]%elem_of_cons Helt; [|by apply Hrest].
    by apply (vo_grows _ _ _ _ _ _ _ Hok). }
  apply bool_decide_eq_false in Hvis.
  destruct (Vertex graph target) as [tn|err] eqn:Hv; [|done].
  destruct (recurse tn ({[target]} ∪ visited)) as [[ips1 visited1]| |] eqn:Hr; [|done|done].
  apply Hrec in Hr as [Hr Hcov].
  intros [Hok Hrest]%IH.
  destruct Hr as [Hg1 _ Hs1 Hn1 Hc1]. destruct Hok as [Hg2 Hk2 Hs2 Hn2 Hc2].
  set (ipsA := appendIfValid (appendIfValid ips (PrivateIPv4 tn)) (NetworkIPv6 tn)) in *.
  assert (HipsA : forall a, a ∈ ipsA <-> a ∈ ips \/ hasAddr tn a).
  { intros a. unfold ipsA, hasAddr. rewrite !elem_of_appendIfValid. tauto. }
  assert (Htn : addrsIn tn ips').
  { intros a Ha. apply Hk2, elem_of_app. left. apply HipsA. by right. }
  assert (Htv : target ∈ visited') by set_solver.
  split; [split|].
  - set_solver.
  - intros a Ha. apply Hk2, elem_of_app. left. apply HipsA. by left.
  - intros a [[Ha|Ha]%elem_of_app|Ha]%Hs2.
    + apply HipsA in Ha as [Ha|Ha]; [by left|].
      right. by exists target, tn.
    + apply Hs1 in Ha as [Ha%elem_of_nil|(t & n & ? & ? & ? & ?)]; [done|].
      right. exists t, n. set_solver.
    + by right.
  - intros Hgr t Ht Hnew.
    destruct (decide (t ∈ visited1)) as [Hin1|Hout1]; [|by apply Hn2].
    destruct (decide (t = target)) as [->|Hne]; [by eauto|].
    destruct (Hn1 Hgr t Hin1) as [? (n & ? & Hn)].
    { rewrite (Hgr _ _ Hv). set_solver. }
    split; [done|]. exists n. split; [done|].
    eapply addrsIn_mono; [|exact Hn]. intros a Ha. apply Hk2, elem_of_app. by right.
  - intros Hgr v t Hv' Hnew Hrow Helt.
    destruct (decide (v ∈ visited1)) as [Hin1|Hout1]; [|by eapply Hc2].
    apply Hg2.
    destruct (decide (v = target)) as [->|Hne].
    + apply (Hcov Hgr); [|done]. by rewrite (Hgr _ _ Hv).
    + eapply (Hc1 Hgr v); [done| |done|done].
      rewrite (Hgr _ _ Hv). set_solver.
  - intros t [->|Hin]%elem_of_cons Helt; [done|by apply Hrest].
Qed.

Lemma recurseEdge_ok (fuel : nat) : recurseOK (recurseEdge fuel).
Proof.
  induction fuel as [|fuel IH]; intros node visited ips visited'; simpl; [done|].
  intros [Hok Hrow]%(visitTargets_ok _ _ IH).
  split; [exact Hok|].
  intros _ t Ht Hel. apply Hrow; [|done]. by apply keys_of_row.
Qed.

Lemma elem_of_allTargets (t : string) :
  t ∈ U <-> exists v row, adjacencyMap !! v = Some row /\ is_Some (row !! t).
Proof.
  unfold allTargets.
  apply (map_fold_weak_ind
    (fun (acc : gset string) (m : gmap string (gmap string Edge)) =>
       t ∈ acc <-> exists v row, m !! v = Some row /\ is_Some (row !! t))).
  - split; [by intros ?%not_elem_of_empty|].
    intros (v & row & Hv & _). by rewrite lookup_empty in Hv.
  - intros v row m acc Hfresh IH.
    rewrite elem_of_union, elem_of_dom, IH. split.
    + intros [Ht|(v' & row' & Hv' & Ht)].
      * exists v, row. by rewrite lookup_insert_eq.
      * exists v', row'. split; [|done].
        rewrite lookup_insert_ne; [done|]. intros ->. congruence.
    + intros (v' & row' & Hv' & Ht).
      destruct (decide (v = v')) as [->|Hne].
      * rewrite lookup_insert_eq in Hv'. left. congruence.
      * rewrite lookup_insert_ne in Hv' by done. right. eauto.
Qed.

Lemma row_in_allTargets (v t : string) :
  is_Some (rowOf adjacencyMap v !! t) -> t ∈ U.
Proof.
  unfold rowOf. intros Ht. apply elem_of_allTargets.
  destruct (adjacencyMap !! v) as [row|] eqn:Hv; simpl in Ht.
  - by exists v, row.
  - rewrite lookup_empty in Ht. by destruct Ht.
Qed.

Lemma size_unvisited_lt (t : string) (visited : gset string) :
  t ∈ U -> t ∉ visited ->
  size (U ∖ ({[ t ]} ∪ visited)) < size (U ∖ visited).
Proof. intros Ht Hv. apply subset_size. set_solver. Qed.

Lemma size_unvisited_le (visited visited' : gset string) :
  visited ⊆ visited' -> size (U ∖ visited') <= size (U ∖ visited).
Proof. intros Hsub. apply subseteq_size. set_solver. Qed.

Lemma visitTargets_returns (fuel : nat) (targets : list string) :
  (forall node visited, size (U ∖ visited) < fuel -> returns (recurseEdge fuel node visited)) ->
  forall ips visited,
    (forall t, t ∈ targets -> t ∈ U) ->
    size (U ∖ visited) <= fuel ->
    returns (visitTargets (recurseEdge fuel) directAdjacents targets ips visited).
Proof.
  intros Hrec. induction targets as [|target rest IH]; intros ips visited Hin Hsize.
  { done. }
  assert (Hrest : forall t, t ∈ rest -> t ∈ U) by (intros t Ht; apply Hin; by right).
  simpl.
  destruct (String.eqb target thisPeer); [by apply IH|].
  destruct (bool_decide (is_Some (directAdjacents !! target))); [by apply IH|].
  destruct (bool_decide (target ∈ visited)) eqn:Hvis; [by apply IH|].
  apply bool_decide_eq_false in Hvis.
  assert (Ht : target ∈ U) by (apply Hin; by left).
  destruct (Vertex graph target) as [tn|err] eqn:Hv.
  - pose proof (size_unvisited_lt target visited Ht Hvis) as Hlt.
    assert (Hr : returns (recurseEdge fuel tn ({[target]} ∪ visited))).
    { apply Hrec. eapply Nat.lt_le_trans; [exact Hlt|exact Hsize]. }
    destruct (recurseEdge fuel tn ({[target]} ∪ visited)) as [[ips1 visited1]| |] eqn:Hrun;
      [|done|done].
    apply IH; [done|].
    apply recurseEdge_ok in Hrun as [Hok _].
    pose proof (vo_grows _ _ _ _ _ _ _ Hok) as Hg.
    etrans; [|exact Hsize]. apply size_unvisited_le. set_solver.
  - simpl. intros Hall. destruct (Hall target Ht) as [n Hn]. congruence.
Qed.

Lemma recurseEdge_returns (fuel : nat) (node : Node) (visited : gset string) :
  size (U ∖ visited) < fuel -> returns (recurseEdge fuel node visited).
Proof.
  revert node visited. induction fuel as [|fuel IH]; intros node visited Hsize; [lia|].
  simpl. apply visitTargets_returns; [exact IH| |].
  - intros t Ht%keys_of_row. by apply (row_in_allTargets (ID node)).
  - apply Nat.lt_succ_r. eapply Nat.le_lt_trans; [|exact Hsize].
    apply size_unvisited_le. set_solver.
Qed.

Lemma recurseEdgeAllowedIPs_returns (node : Node) :
  returns (recurseEdgeAllowedIPs graph adjacencyMap thisPeer node).
Proof.
  unfold recurseEdgeAllowedIPs.
  pose proof (recurseEdge_returns (S (size U)) node ∅) as Hr.
  destruct (recurseEdge (S (size U)) node ∅) as [[ips visited]| |]; simpl in *.
  - done.
  - apply Hr. apply Nat.lt_succ_r, subseteq_size. set_solver.
  - apply Hr. apply Nat.lt_succ_r, subseteq_size. set_solver.
Qed.

Lemma recurseAllowedIPs_returns (node : Node) :
  returns (recurseAllowedIPs graph adjacencyMap thisPeer node).
Proof.
  unfold recurseAllowedIPs.
  pose proof (recurseEdgeAllowedIPs_returns node) as Hr.
  by destruct (recurseEdgeAllowedIPs graph adjacencyMap thisPeer node).
Qed.

(** The allowed IPs of a neighbor are its own addresses and the edge
    IPs. *)
Lemma recurseAllowedIPs_done (node : Node) (allowed : list string) :
  recurseAllowedIPs graph adjacencyMap thisPeer node = Done allowed ->
  exists edgeIPs visited,
    recurseEdge (S (size U)) node ∅ = Done (edgeIPs, visited)
    /\ forall a, a ∈ allowed <-> hasAddr node a \/ a ∈ edgeIPs.
Proof.
  unfold recurseAllowedIPs, recurseEdgeAllowedIPs.
  destruct (recurseEdge (S (size U)) node ∅) as [[edgeIPs visited]| |]; [|done|done].
  intros [= <-]. exists edgeIPs, visited. split; [done|].
  intros a. rewrite elem_of_appendMissing, !elem_of_appendIfValid.
  unfold hasAddr. rewrite elem_of_nil. tauto.
Qed.

(** The allowed IPs of a neighbor, on a graph whose vertices carry
    their ids: the set of nodes the traversal has marked holds the
    neighbor, is closed under the edges the traversal follows, and the
    allowed IPs are exactly the private addresses of the marked nodes. *)
Lemma recurseAllowedIPs_visited (node : Node) (allowed : list string) :
  graphOK graph -> Vertex graph (ID node) = Ok node ->
  recurseAllowedIPs graph adjacencyMap thisPeer node = Done allowed ->
  exists visited,
    visitedBy graph adjacencyMap thisPeer node = Some visited
    /\ ID node ∈ visited
    /\ closedUnderEdges adjacencyMap thisPeer visited
    /\ (forall t, t ∈ visited -> exists n, Vertex graph t = Ok n /\ addrsIn n allowed)
    /\ (forall a, a ∈ allowed ->
          exists t n, t ∈ visited /\ Vertex graph t = Ok n /\ hasAddr n a).
Proof.
  intros Hgr Hnode (edgeIPs & visited & Hrun & Hall)%recurseAllowedIPs_done.
  exists visited. unfold visitedBy. rewrite Hrun.
  apply recurseEdge_ok in Hrun as [[Hg _ Hs Hn Hc] Hcov].
  split; [done|]. split; [set_solver|]. split; [|split].
  - intros v t Hv Hrow Hel.
    destruct (decide (v = ID node)) as [->|Hne].
    + by apply (Hcov Hgr).
    + apply (Hc Hgr v); [done|set_solver|done|done].
  - intros t Ht. destruct (decide (t = ID node)) as [->|Hne].
    + exists node. split; [done|]. intros a Ha. apply Hall. by left.
    + destruct (Hn Hgr t Ht) as [_ (n & Hv & Hin)]; [set_solver|].
      exists n. split; [done|]. intros a Ha. apply Hall. right. by apply Hin.
  - intros a [Ha|Ha]%Hall.
    + exists (ID node), node. split; [set_solver|done].
    + apply Hs in Ha as [Ha%elem_of_nil|(t & n & _ & ? & ? & ?)]; [done|]. eauto.
Qed.


Lemma peerFor_done (adjacent : string) (p : WireGuardPeer) :
  peerFor graph adjacencyMap thisPeer adjacent = Done p ->
  exists node,
    Vertex graph adjacent = Ok node
    /\ wg_Id p = ID node
    /\ wg_PrimaryEndpoint p = preferredEndpoint node
    /\ recurseAllowedIPs graph adjacencyMap thisPeer node = Done (wg_AllowedIps p).
Proof.
  unfold peerFor. destruct (Vertex graph adjacent) as [node|]; [|done].
  destruct (recurseAllowedIPs graph adjacencyMap thisPeer node) as [allowed| |] eqn:Hr;
    [|done|done].
  intros [= <-]. exists node. by rewrite Hr.
Qed.

Lemma peersFor_done (adjacents : list string) (out peers : list WireGuardPeer) :
  peersFor graph adjacencyMap thisPeer adjacents out = Done peers ->
  (forall p, p ∈ peers ->
     p ∈ out \/ exists adjacent, adjacent ∈ adjacents
                 /\ peerFor graph adjacencyMap thisPeer adjacent = Done p)
  /\ (forall p, p ∈ out -> p ∈ peers)
  /\ (forall adjacent, adjacent ∈ adjacents ->
        exists p, p ∈ peers /\ peerFor graph adjacencyMap thisPeer adjacent = Done p).
Proof.
  revert out. induction adjacents as [|adjacent rest IH]; intros out; simpl.
  { intros [= <-]. split; [by left|]. split; [done|]. by intros a ?%elem_of_nil. }
  destruct (peerFor graph adjacencyMap thisPeer adjacent) as [p0| |] eqn:Hp; [|done|done].
  intros (Hfrom & Hkeep & Hall)%IH. split; [|split].
  - intros p [[Hp'|Hp']%elem_of_app|(a & Ha & Hpa)]%Hfrom.
    + by left.
    + apply list_elem_of_singleton in Hp' as ->. right. exists adjacent. split; [by left|done].
    + right. exists a. split; [by right|done].
  - intros p Hin. apply Hkeep, elem_of_app. by left.
  - intros a [->|Ha]%elem_of_cons; [|by apply Hall].
    exists p0. split; [|done]. apply Hkeep, elem_of_app. right. by left.
Qed.

Lemma peersFor_returns (adjacents : list string) (out : list WireGuardPeer) :
  (forall a, a ∈ adjacents -> a ∈ U) ->
  returns (peersFor graph adjacencyMap thisPeer adjacents out).
Proof.
  revert out. induction adjacents as [|adjacent rest IH]; intros out Hin; simpl; [done|].
  unfold peerFor.
  destruct (Vertex graph adjacent) as [node|err] eqn:Hv.
  - pose proof (recurseAllowedIPs_returns node) as Hr.
    destruct (recurseAllowedIPs graph adjacencyMap thisPeer node); [|done|done].
    apply IH. intros adj' Ha. apply Hin. by right.
  - simpl. intros Hall. destruct (Hall adjacent) as [n Hn]; [|congruence].
    apply Hin. by left.
Qed.

End RecurseFacts.

Lemma firstWithPrefix_find (endpoints : list string) (primary : string) :
  firstWithPrefix endpoints primary
  = default "" (find (fun e => HasPrefix e primary) endpoints).
Proof.
  induction endpoints as [|e rest IH]; simpl; [done|].
  by destruct (HasPrefix e primary).
Qed.

Lemma HasPrefix_empty_string (primary : string) :
  primary <> "" -> HasPrefix "" primary = false.
Proof. by destruct primary. Qed.

Lemma find_HasPrefix_nonempty (endpoints : list string) (primary e : string) :
  primary <> "" -> find (fun e => HasPrefix e primary) endpoints = Some e -> e <> "".
Proof.
  intros Hp Hfind. apply find_some in Hfind as [_ He]. intros ->.
  by rewrite HasPrefix_empty_string in He.
Qed.

(** The preferred endpoint the code computes. *)
Lemma preferredEndpoint_spec (node : Node) :
  preferredEndpoint node
  = match firstBeginningWith node with
    | Some e => e
    | None => default "" (head (WireGuardEndpoints node))
    end.
Proof.
  unfold preferredEndpoint, firstBeginningWith.
  destruct (String.eqb_spec (PrimaryEndpoint node) "") as [Hp|Hp]; simpl.
  - by destruct (WireGuardEndpoints node).
  - rewrite firstWithPrefix_find.
    destruct (find _ (WireGuardEndpoints node)) as [e|] eqn:Hfind; simpl.
    + apply find_HasPrefix_nonempty in Hfind; [|done].
      apply String.eqb_neq in Hfind. by rewrite Hfind.
    + by destruct (WireGuardEndpoints node).
Qed.

Lemma WireGuardPeersFor_returns
    (graph : Graph) (adjacencyMap : gmap string (gmap string Edge)) (peerID : string) :
  returns graph adjacencyMap (WireGuardPeersFor graph (Ok adjacencyMap) peerID).
Proof.
  unfold WireGuardPeersFor. fold (rowOf adjacencyMap peerID).
  apply peersFor_returns. intros a Ha%keys_of_row.
  by apply (row_in_allTargets adjacencyMap peerID).
Qed.

(** C2 (amended): [WireGuardPeersFor] comes back, and for every retained
    neighbor the list it returns has the peer of that neighbor, whose
    preferred endpoint is the first entry of the neighbor's WireGuard
    endpoints that begins with the neighbor's primary endpoint, when that
    is not empty; if there is no such entry, the first entry; if the list
    is empty, the empty string.  Every peer returned is the peer of a
    retained neighbor. *)
Theorem WireGuardPeersFor_preferred_endpoint
    (graph : Graph) (adjacencyMap : gmap string (gmap string Edge)) (peerID : string) :
  returns graph adjacencyMap (WireGuardPeersFor graph (Ok adjacencyMap) peerID)
  /\ forall peers, WireGuardPeersFor graph (Ok adjacencyMap) peerID = Done peers ->
      (forall adjacent, is_Some (rowOf adjacencyMap peerID !! adjacent) ->
         exists node p,
           Vertex graph adjacent = Ok node /\ p ∈ peers /\ wg_Id p = ID node
           /\ wg_PrimaryEndpoint p
              = match firstBeginningWith node with
                | Some e => e
                | None => default "" (head (WireGuardEndpoints node))
                end)
      /\ (forall p, p ∈ peers ->
            exists adjacent node,
              is_Some (rowOf adjacencyMap peerID !! adjacent)
              /\ Vertex graph adjacent = Ok node /\ wg_Id p = ID node).
Proof.
  split; [apply WireGuardPeersFor_returns|].
  unfold WireGuardPeersFor. fold (rowOf adjacencyMap peerID).
  - intros peers (Hfrom & _ & Hall)%peersFor_done. split.
    + intros adjacent Hadj%keys_of_row.
      destruct (Hall adjacent Hadj) as (p & Hp & (node & ? & ? & Hpref & _)%peerFor_done).
      exists node, p. rewrite <- preferredEndpoint_spec. done.
    + intros p [Hp%elem_of_nil|(adjacent & Hadj%keys_of_row & Hpa)]%Hfrom; [done|].
      apply peerFor_done in Hpa as (node & ? & ? & _). by exists adjacent, node.
Qed.

(** C3 (amended): for every filtered adjacency map and every retained
    neighbor, on a graph whose vertices carry their ids, the allowed IPs
    computed for the neighbor are exactly the private IPv4/IPv6 addresses
    of the nodes the transitive traversal has marked: the neighbor itself
    and every node reached from it through rows of the map without
    entering [peerID] or one of its direct adjacents.  The route CIDRs a
    node advertises are not added. *)
Theorem allowedIPs_are_addresses_of_visited
    (graph : Graph) (adjacencyMap : gmap string (gmap string Edge)) (peerID : string) :
  graphOK graph ->
  returns graph adjacencyMap (WireGuardPeersFor graph (Ok adjacencyMap) peerID)
  /\ forall peers, WireGuardPeersFor graph (Ok adjacencyMap) peerID = Done peers ->
     forall adjacent, is_Some (rowOf adjacencyMap peerID !! adjacent) ->
       exists node p visited,
         Vertex graph adjacent = Ok node /\ p ∈ peers /\ wg_Id p = ID node
         /\ visitedBy graph adjacencyMap peerID node = Some visited
         /\ ID node ∈ visited
         /\ closedUnderEdges adjacencyMap peerID visited
         /\ (forall t, t ∈ visited ->
               exists n, Vertex graph t = Ok n /\ addrsIn n (wg_AllowedIps p))
         /\ (forall a, a ∈ wg_AllowedIps p ->
               exists t n, t ∈ visited /\ Vertex graph t = Ok n /\ hasAddr n a).
Proof.
  intros Hgr. split; [apply WireGuardPeersFor_returns|].
  unfold WireGuardPeersFor. fold (rowOf adjacencyMap peerID).
  intros peers (_ & _ & Hall)%peersFor_done adjacent Hadj%keys_of_row.
  destruct (Hall adjacent Hadj) as (p & Hp & (node & Hv & Hid & _ & Hrun)%peerFor_done).
  assert (Hnode : Vertex graph (ID node) = Ok node) by (by rewrite (Hgr _ _ Hv)).
  destruct (recurseAllowedIPs_visited graph adjacencyMap peerID node _ Hgr Hnode Hrun)
    as (visited & ? & ? & ? & ? & ?).
  by exists node, p, visited.
Qed.

Import LinearMesh.

Lemma meshFiltered_eq : meshFiltered = Ok meshEdges.
Proof. vm_compute. reflexivity. Qed.

Lemma mesh_peers_of_n1 : WireGuardPeersFor meshGraph (Ok meshEdges) "n1" = Done [peer2].
Proof. vm_compute. reflexivity. Qed.

Lemma mesh_row_n1 : is_Some (rowOf meshEdges "n1" !! "n2").
Proof. exists (edge "n1" "n2"). vm_compute. reflexivity. Qed.

Lemma WireGuardPeersFor_preferred_endpoint_witness :
  exists node p,
    Vertex meshGraph "n2" = Ok node /\ p ∈ [peer2] /\ wg_Id p = ID node
    /\ wg_PrimaryEndpoint p
       = match firstBeginningWith node with
         | Some e => e
         | None => default "" (head (WireGuardEndpoints node))
         end.
Proof.
  exact (proj1 (proj2 (WireGuardPeersFor_preferred_endpoint meshGraph meshEdges "n1")
                  [peer2] mesh_peers_of_n1) "n2" mesh_row_n1).
Defined.

(** C2 as stated fails: the WireGuard endpoints of [n2] are
    [10.0.0.10:51820; 10.0.0.1:51820] and its primary endpoint is
    [10.0.0.1]; the entry whose host equals the primary endpoint is the
    second, and the peer that [n1] is given for [n2] has the first. *)
Lemma preferred_endpoint_is_not_host_match :
  WireGuardPeersFor meshGraph meshFiltered "n1" = Done [peer2]
  /\ Vertex meshGraph "n2" = Ok node2
  /\ wg_PrimaryEndpoint peer2 = "10.0.0.10:51820"
  /\ hostOf "10.0.0.10:51820" = "10.0.0.10"
  /\ specPreferredEndpoint node2 = "10.0.0.1:51820"
  /\ wg_PrimaryEndpoint peer2 <> specPreferredEndpoint node2.
Proof.
  rewrite meshFiltered_eq. split; [exact mesh_peers_of_n1|].
  repeat split; try reflexivity. vm_compute. discriminate.
Qed.

Lemma meshGraph_ok : graphOK meshGraph.
Proof.
  intros id n. unfold meshGraph; simpl.
  destruct (String.eqb_spec id "n1") as [->|?]; [by intros [= <-]|].
  destruct (String.eqb_spec id "n2") as [->|?]; [by intros [= <-]|].
  destruct (String.eqb_spec id "n3") as [->|?]; [by intros [= <-]|].
  done.
Qed.

Lemma allowedIPs_are_addresses_of_visited_witness :
  exists node p visited,
    Vertex meshGraph "n2" = Ok node /\ p ∈ [peer2] /\ wg_Id p = ID node
    /\ visitedBy meshGraph meshEdges "n1" node = Some visited
    /\ ID node ∈ visited
    /\ closedUnderEdges meshEdges "n1" visited
    /\ (forall t, t ∈ visited ->
          exists n, Vertex meshGraph t = Ok n /\ addrsIn n (wg_AllowedIps p))
    /\ (forall a, a ∈ wg_AllowedIps p ->
          exists t n, t ∈ visited /\ Vertex meshGraph t = Ok n /\ hasAddr n a).
Proof.
  exact (proj2 (allowedIPs_are_addresses_of_visited meshGraph meshEdges "n1" meshGraph_ok)
           [peer2] mesh_peers_of_n1 "n2" mesh_row_n1).
Defined.

(** C3 as stated fails: [n3] advertises the route [10.9.0.0/16] and is
    visited by the traversal for [n1]'s neighbor [n2], and the allowed IPs
    of that neighbor are the four private addresses of [n2] and [n3],
    without the route. *)
Lemma allowedIPs_lack_route_cidrs :
  meshFiltered = Ok meshEdges
  /\ WireGuardPeersFor meshGraph meshFiltered "n1" = Done [peer2]
  /\ visitedBy meshGraph meshEdges "n1" node2 = Some {[ "n2"; "n3" ]}
  /\ @Networking.GetRoutesByNode Fixtures.lineCodec meshStore "n3" = Ok [route3]
  /\ "10.9.0.0/16" ∈ V1.route_DestinationCidrs route3
  /\ "10.9.0.0/16" ∉ wg_AllowedIps peer2.
Proof.
  split; [exact meshFiltered_eq|]. rewrite meshFiltered_eq.
  split; [exact mesh_peers_of_n1|].
  split; [vm_compute; reflexivity|].
  split; [reflexivity|].
  split; [by left|].
  simpl. rewrite !elem_of_cons, elem_of_nil. intros [?|[?|[?|[?|[]]]]]; discriminate.
Qed.

End SvcutilFacts.


Module FilterGraphFacts.
Import GoBytes GoErr MeshStorage V1 Networking.

Section WithExternals.
Context `{Protojson} `{ACLEval} `{Netip}.
Variable n : Store.
Variable acls : ACLs.
Variable getter : NodeGetter.
Variable thisNode : MeshNode.

Lemma rowOf_alter (f : gmap string Edge -> gmap string Edge)
    (m : gmap string (gmap string Edge)) (v w : string) :
  f ∅ = ∅ ->
  rowOf (alter f v m) w = if decide (v = w) then f (rowOf m w) else rowOf m w.
Proof.
  intros Hf. unfold rowOf. rewrite lookup_alter.
  case_decide as Hvw; [subst|done].
  by destruct (m !! w).
Qed.

Lemma rowOf_delete_absent (m : gmap string (gmap string Edge)) (this k : string) :
  rowOf (alter (delete k) this m) this !! k = None.
Proof.
  rewrite rowOf_alter by apply delete_empty.
  rewrite decide_True by done. apply lookup_delete_eq.
Qed.

Lemma rowOf_delete_keeps_absent (m : gmap string (gmap string Edge)) (this k k' : string) :
  rowOf m this !! k = None -> rowOf (alter (delete k') this m) this !! k = None.
Proof.
  intros Hk. rewrite rowOf_alter by apply delete_empty.
  rewrite decide_True by done.
  rewrite lookup_delete. by case_decide.
Qed.

Lemma checkCidrs_denied (dst : string) (cidrs : list string) (cidr : string)
    (prefix : NetipPrefix) :
  cidr ∈ cidrs -> ParsePrefix cidr = Ok prefix ->
  Accept acls (routeAction thisNode dst cidr prefix) = false ->
  checkCidrs acls thisNode dst cidrs <> Ok true.
Proof.
  intros Hin Hp Hdeny. induction cidrs as [|c rest IH]; [by apply elem_of_nil in Hin|].
  simpl. apply elem_of_cons in Hin as [<-|Hin].
  - by rewrite Hp, Hdeny.
  - destruct (ParsePrefix c) as [p|]; [|done].
    destruct (Accept acls (routeAction thisNode dst c p)); simpl; [by apply IH|done].
Qed.

Lemma checkRoutes_denied (dst : string) (routes : list Route) :
  someRouteDenied acls thisNode dst routes ->
  checkRoutes acls thisNode dst routes <> Ok true.
Proof.
  intros (route & cidr & prefix & Hin & Hc & Hp & Hdeny).
  induction routes as [|r rest IH]; [by apply elem_of_nil in Hin|].
  simpl. apply elem_of_cons in Hin as [<-|Hin].
  - pose proof (checkCidrs_denied dst _ cidr prefix Hc Hp Hdeny) as Hne.
    destruct (checkCidrs acls thisNode dst (route_DestinationCidrs route)) as [[]|]; done.
  - destruct (checkCidrs acls thisNode dst (route_DestinationCidrs r)) as [[]|];
      [by apply IH|done|done].
Qed.

Abbreviation this := (Id thisNode).

Lemma rowOf_insert_row (m : gmap string (gmap string Edge)) (id this' k : string) :
  rowOf m this' !! k = None -> rowOf (<[id := ∅]> m) this' !! k = None.
Proof.
  unfold rowOf. intros Hk. rewrite lookup_insert. by case_decide.
Qed.

Lemma rowOf_set_edge_ne (m : gmap string (gmap string Edge))
    (node w peerID k : string) (e : Edge) :
  peerID <> k ->
  rowOf (alter (<[peerID := e]>) node m) w !! k = rowOf m w !! k.
Proof.
  intros Hne. unfold rowOf. rewrite lookup_alter.
  case_decide as Hw; [subst|done].
  destruct (m !! w) as [row|]; simpl; [|done].
  by rewrite lookup_insert_ne.
Qed.

Lemma delete_keeps_absent (st : maps) (k id : string) :
  absentFromThisRow this k st -> absentFromThisRow this k (deleteFromThisRow st this id).
Proof.
  intros [Hf Hs]. split; simpl.
  - by apply rowOf_delete_keeps_absent.
  - intros Hsh. rewrite Hsh. apply rowOf_delete_keeps_absent. by apply Hs.
Qed.

Lemma delete_makes_absent (st : maps) (k : string) :
  absentFromThisRow this k (deleteFromThisRow st this k).
Proof.
  split; simpl.
  - apply rowOf_delete_absent.
  - intros ->. apply rowOf_delete_absent.
Qed.

Lemma makeRow_keeps_absent (st : maps) (k id : string) :
  absentFromThisRow this k st -> absentFromThisRow this k (makeRow st this id).
Proof.
  intros [Hf Hs]. split; simpl.
  - by apply rowOf_insert_row.
  - intros [Hsh _]%andb_true_iff. by apply Hs.
Qed.

Lemma setEdge_keeps_absent (st : maps) (node k peerID : string) (e : Edge) :
  peerID <> k ->
  absentFromThisRow this k st -> absentFromThisRow this k (setEdge st this node peerID e).
Proof.
  intros Hne [Hf Hs]. split; simpl.
  - by rewrite rowOf_set_edge_ne.
  - intros Hsh. rewrite Hsh in *. simpl.
    destruct (String.eqb node this); [|by apply Hs].
    rewrite rowOf_set_edge_ne by done. by apply Hs.
Qed.

(** A round of the loop [Nodes] does not put a peer back into the row
    of [thisNode]. *)
Lemma filterNode_keeps_absent (st st' : maps) (nodeID k : string) :
  filterNode n acls getter thisNode st nodeID = Ok st' ->
  absentFromThisRow this k st -> absentFromThisRow this k st'.
Proof.
  unfold filterNode. intros Hrun Hst.
  destruct (String.eqb nodeID this); [by injection Hrun as <-|].
  destruct (Get getter nodeID) as [node|]; [|done].
  destruct (AllowNodesToCommunicate acls thisNode node); simpl in Hrun;
    [|injection Hrun as <-; by apply delete_keeps_absent].
  destruct (GetRoutesByNode n (Id node)) as [routes|]; [|done].
  destruct (checkRoutes acls thisNode (Id node) routes) as [[]|]; [| |done];
    injection Hrun as <-.
  - by apply makeRow_keeps_absent.
  - by apply delete_keeps_absent.
Qed.

(** The round of the loop [Nodes] for a node one of whose routes is
    denied deletes it from the row of [thisNode]. *)
Lemma filterNode_makes_absent (st st' : maps) (nodeID : string) (node : MeshNode)
    (routes : list Route) :
  nodeID <> this -> Get getter nodeID = Ok node ->
  GetRoutesByNode n (Id node) = Ok routes ->
  someRouteDenied acls thisNode (Id node) routes ->
  filterNode n acls getter thisNode st nodeID = Ok st' ->
  absentFromThisRow this (Id node) st'.
Proof.
  intros Hne%String.eqb_neq Hget Hroutes Hden%checkRoutes_denied.
  unfold filterNode. rewrite Hne, Hget, Hroutes.
  destruct (AllowNodesToCommunicate acls thisNode node); simpl;
    [|intros [= <-]; apply delete_makes_absent].
  destruct (checkRoutes acls thisNode (Id node) routes) as [[]|]; [done| |done].
  intros [= <-]. apply delete_makes_absent.
Qed.

Lemma filterNodes_keeps_absent (nodeIDs : list string) (st st' : maps) (k : string) :
  filterNodes n acls getter thisNode st nodeIDs = Ok st' ->
  absentFromThisRow this k st -> absentFromThisRow this k st'.
Proof.
  revert st. induction nodeIDs as [|nodeID rest IH]; intros st; simpl.
  { by intros [= <-]. }
  destruct (filterNode n acls getter thisNode st nodeID) as [st1|] eqn:Hstep; [|done].
  intros Hrun Hst. apply (IH st1 Hrun). by eapply filterNode_keeps_absent.
Qed.

Lemma filterNodes_makes_absent (nodeIDs : list string) (st st' : maps)
    (nodeID : string) (node : MeshNode) (routes : list Route) :
  nodeID ∈ nodeIDs ->
  nodeID <> this -> Get getter nodeID = Ok node ->
  GetRoutesByNode n (Id node) = Ok routes ->
  someRouteDenied acls thisNode (Id node) routes ->
  filterNodes n acls getter thisNode st nodeIDs = Ok st' ->
  absentFromThisRow this (Id node) st'.
Proof.
  intros Hin Hne Hget Hroutes Hden. revert st.
  induction nodeIDs as [|id rest IH]; intros st; [by apply elem_of_nil in Hin|].
  simpl. destruct (filterNode n acls getter thisNode st id) as [st1|] eqn:Hstep; [|done].
  intros Hrun. apply elem_of_cons in Hin as [<-|Hin].
  - eapply filterNodes_keeps_absent; [exact Hrun|].
    by eapply filterNode_makes_absent.
  - by apply (IH Hin st1).
Qed.

(** A round of the loop [Peers] does not put a peer one of whose
    routes is denied into the row of [thisNode]. *)
Lemma filterPeer_keeps_absent (st st' : maps) (node peerID k : string) (e : Edge)
    (routes : list Route) :
  k <> this -> GetRoutesByNode n k = Ok routes ->
  someRouteDenied acls thisNode k routes ->
  filterPeer n acls getter thisNode node st peerID e = Ok st' ->
  absentFromThisRow this k st -> absentFromThisRow this k st'.
Proof.
  intros Hk Hroutes Hden%checkRoutes_denied. unfold filterPeer. intros Hrun Hst.
  destruct (String.eqb_spec peerID this) as [->|Hne].
  { injection Hrun as <-. by apply setEdge_keeps_absent. }
  destruct (Get getter peerID) as [peer|]; [|done].
  destruct (AllowNodesToCommunicate acls thisNode peer); simpl in Hrun;
    [|by injection Hrun as <-].
  destruct (GetRoutesByNode n peerID) as [routes'|] eqn:Hr'; [|done].
  destruct (checkRoutes acls thisNode peerID routes') as [[]|] eqn:Hc; [| |done];
    injection Hrun as <-; [|done].
  apply setEdge_keeps_absent; [|done].
  intros ->. congruence.
Qed.

Lemma filterPeers_keeps_absent (edges : list (string * Edge)) (st st' : maps)
    (node k : string) (routes : list Route) :
  k <> this -> GetRoutesByNode n k = Ok routes ->
  someRouteDenied acls thisNode k routes ->
  filterPeers n acls getter thisNode node st edges = Ok st' ->
  absentFromThisRow this k st -> absentFromThisRow this k st'.
Proof.
  intros Hk Hroutes Hden. revert st.
  induction edges as [|[peerID e] rest IH]; intros st; simpl.
  { by intros [= <-]. }
  destruct (filterPeer n acls getter thisNode node st peerID e) as [st1|] eqn:Hstep;
    [|done].
  intros Hrun Hst. apply (IH st1 Hrun). by eapply filterPeer_keeps_absent.
Qed.

Lemma filterRows_keeps_absent (nodes : list string) (st st' : maps)
    (k : string) (routes : list Route) :
  k <> this -> GetRoutesByNode n k = Ok routes ->
  someRouteDenied acls thisNode k routes ->
  filterRows n acls getter thisNode st nodes = Ok st' ->
  absentFromThisRow this k st -> absentFromThisRow this k st'.
Proof.
  intros Hk Hroutes Hden. revert st.
  induction nodes as [|node rest IH]; intros st; simpl.
  { by intros [= <-]. }
  destruct (fullMap st !! node) as [edges|]; [|by apply IH].
  destruct (filterPeers n acls getter thisNode node st (map_to_list edges))
    as [st1|] eqn:Hstep; [|done].
  intros Hrun Hst. apply (IH st1 Hrun). by eapply filterPeers_keeps_absent.
Qed.

(** C5: when [FilterGraph] returns a map, a candidate node (a key of the
    full adjacency map other than [thisNode]) for which one destination
    CIDR of one of its routes is not accepted for traffic from
    [thisNode] is absent from the row of [thisNode] in that map, whatever
    the ACLs say of its other routes and of the node itself. *)
Theorem FilterGraph_removes_denied_peer (peerGraph : PeerGraph)
    (full filteredMap : gmap string (gmap string Edge)) (acls0 : ACLs)
    (nodeID : string) (node : MeshNode) (routes : list Route) :
  ListNetworkACLs n = (acls0, None) -> Expand n acls0 = Ok acls ->
  AdjacencyMapOf peerGraph = Ok full ->
  is_Some (full !! nodeID) -> nodeID <> Id thisNode ->
  Get getter nodeID = Ok node -> Id node = nodeID ->
  GetRoutesByNode n (Id node) = Ok routes ->
  someRouteDenied acls thisNode (Id node) routes ->
  FilterGraph n getter peerGraph thisNode = Ok filteredMap ->
  rowOf filteredMap (Id thisNode) !! Id node = None.
Proof.
  intros Hacls Hexp Hfull [row Hrow] Hne Hget Hid Hroutes Hden.
  unfold FilterGraph. rewrite Hacls, Hexp, Hfull.
  destruct (filterNodes n acls getter thisNode (initMaps full this) (map_to_list full).*1)
    as [st1|] eqn:Hloop1; [|done].
  simpl.
  destruct (filterRows n acls getter thisNode st1 (map_to_list (filtered st1)).*1)
    as [st2|] eqn:Hloop2; [|done].
  simpl. intros [= <-].
  assert (Hin : nodeID ∈ (map_to_list full).*1).
  { apply list_elem_of_fmap. exists (nodeID, row). split; [done|].
    by apply elem_of_map_to_list. }
  pose proof (filterNodes_makes_absent _ _ _ nodeID node routes
                Hin Hne Hget Hroutes Hden Hloop1) as Habs1.
  eapply (filterRows_keeps_absent _ _ _ (Id node) routes) in Hloop2 as [Habs2 _];
    [done|congruence|done|done|done].
Qed.

(** *** Permissive ACLs: [FilterGraph] keeps every edge *)

Section Permissive.
Hypothesis Hpermits : permits n acls thisNode.

Lemma checkCidrs_permitted (dst : string) (cidrs : list string) :
  (forall cidr, cidr ∈ cidrs -> exists prefix, ParsePrefix cidr = Ok prefix) ->
  checkCidrs acls thisNode dst cidrs = Ok true.
Proof.
  induction cidrs as [|cidr rest IH]; intros Hparse; simpl; [done|].
  destruct (Hparse cidr) as [prefix ->]; [by left|].
  rewrite (pm_actions _ _ _ Hpermits). simpl.
  apply IH. intros c Hc. apply Hparse. by right.
Qed.

Lemma checkRoutes_permitted (dst : string) (routes : list Route) :
  (forall route cidr, route ∈ routes -> cidr ∈ route_DestinationCidrs route ->
     exists prefix, ParsePrefix cidr = Ok prefix) ->
  checkRoutes acls thisNode dst routes = Ok true.
Proof.
  induction routes as [|route rest IH]; intros Hparse; simpl; [done|].
  rewrite checkCidrs_permitted.
  - apply IH. intros r c Hr. apply Hparse. by right.
  - intros c Hc. apply (Hparse route); [by left|done].
Qed.

Lemma routes_permitted (dst : string) :
  exists routes, GetRoutesByNode n dst = Ok routes
                 /\ checkRoutes acls thisNode dst routes = Ok true.
Proof.
  destruct (pm_routes _ _ _ Hpermits) as (routes & Hlist & Hparse).
  unfold GetRoutesByNode. rewrite Hlist. eexists. split; [done|].
  apply checkRoutes_permitted.
  intros route cidr [_ Hin]%list_elem_of_filter. by apply Hparse.
Qed.

Lemma filterNode_permitted (st : maps) (nodeID : string) (node : MeshNode) :
  Get getter nodeID = Ok node -> Id node = nodeID ->
  filterNode n acls getter thisNode st nodeID
  = Ok (if String.eqb nodeID this then st else makeRow st this nodeID).
Proof.
  intros Hget Hid. unfold filterNode.
  destruct (String.eqb nodeID this); [done|].
  rewrite Hget, (pm_nodes _ _ _ Hpermits). simpl.
  destruct (routes_permitted (Id node)) as (routes & -> & ->). by rewrite Hid.
Qed.

Lemma filterPeer_permitted (st : maps) (node peerID : string) (e : Edge) :
  (exists peer, Get getter peerID = Ok peer) ->
  filterPeer n acls getter thisNode node st peerID e
  = Ok (setEdge st this node peerID e).
Proof.
  intros [peer Hget]. unfold filterPeer.
  destruct (String.eqb peerID this); [done|].
  rewrite Hget, (pm_nodes _ _ _ Hpermits). simpl.
  by destruct (routes_permitted peerID) as (routes & -> & ->).
Qed.

(** The loop [Nodes] gives every node other than [thisNode] an empty
    row and leaves the shared row alone. *)
Lemma filterNodes_permitted (nodeIDs : list string) (st : maps) :
  (forall id, id ∈ nodeIDs -> exists node, Get getter id = Ok node /\ Id node = id) ->
  exists st',
    filterNodes n acls getter thisNode st nodeIDs = Ok st'
    /\ fullMap st' = fullMap st
    /\ (shared st = true -> shared st' = true)
    /\ forall k, filtered st' !! k
         = if decide (k ∈ nodeIDs /\ k <> this) then Some ∅ else filtered st !! k.
Proof.
  revert st. induction nodeIDs as [|id rest IH]; intros st Hget; cbn [filterNodes].
  { exists st. split; [done|]. split; [done|]. split; [done|]. intros k.
    rewrite decide_False; [done|]. by intros [?%elem_of_nil _]. }
  destruct (Hget id) as (node & Hnode & Hid); [by left|].
  rewrite (filterNode_permitted st id node Hnode Hid).
  destruct (IH (if String.eqb id this then st else makeRow st this id))
    as (st' & -> & Hfull & Hshared & Hrows).
  { intros id' Hin. apply Hget. by right. }
  exists st'. split; [done|].
  destruct (String.eqb_spec id this) as [->|Hne].
  - split; [done|]. split; [done|]. intros k. rewrite Hrows.
    repeat case_decide; try done; set_solver.
  - cbn [makeRow fullMap filtered shared] in *. split; [done|]. split.
    { intros Hs. apply Hshared. rewrite Hs. cbn [andb].
      apply negb_true_iff. by apply String.eqb_neq. }
    intros k. rewrite Hrows.
    destruct (decide (k = id)) as [->|Hk].
    + rewrite lookup_insert_eq. repeat case_decide; try done; set_solver.
    + rewrite lookup_insert_ne by done.
      repeat case_decide; try done; set_solver.
Qed.

Lemma setAll_eq (edges row : gmap string Edge) (l : list (string * Edge)) :
  (forall p e, (p, e) ∈ l -> edges !! p = Some e) ->
  (forall p e, edges !! p = Some e -> (p, e) ∈ l \/ row !! p = Some e) ->
  (forall p e, row !! p = Some e -> edges !! p = Some e) ->
  setAll l row = edges.
Proof.
  unfold setAll. revert row. induction l as [|[p e] rest IH]; intros row Ha Hb Hc; simpl.
  - apply map_eq. intros q. destruct (edges !! q) as [e|] eqn:Hq.
    + destruct (Hb q e Hq) as [?%elem_of_nil|?]; done.
    + destruct (row !! q) as [e|] eqn:Hr; [|done].
      apply Hc in Hr. congruence.
  - assert (Hp : edges !! p = Some e) by (apply Ha; by left).
    apply IH.
    + intros q e' Hin. apply Ha. by right.
    + intros q e' Hq. destruct (decide (q = p)) as [->|Hne].
      * right. rewrite lookup_insert_eq. congruence.
      * rewrite lookup_insert_ne by done.
        destruct (Hb q e' Hq) as [[Heq|?]%elem_of_cons|?]; [congruence|by left|by right].
    + intros q e'. destruct (decide (q = p)) as [->|Hne].
      * rewrite lookup_insert_eq. congruence.
      * rewrite lookup_insert_ne by done. apply Hc.
Qed.

(** The loop [Peers] assigns every edge of the row. *)
Lemma filterPeers_permitted (node : string) (edges : gmap string Edge)
    (l : list (string * Edge)) (st : maps) :
  fullMap st !! node = Some edges ->
  (forall p e, (p, e) ∈ l -> edges !! p = Some e) ->
  (forall p e, (p, e) ∈ l -> exists peer, Get getter p = Ok peer) ->
  exists st',
    filterPeers n acls getter thisNode node st l = Ok st'
    /\ fullMap st' = fullMap st
    /\ forall k, filtered st' !! k
         = if decide (k = node) then setAll l <$> filtered st !! k else filtered st !! k.
Proof.
  revert st. induction l as [|[p e] rest IH]; intros st Hrow Hl Hget; cbn [filterPeers].
  { exists st. split; [done|]. split; [done|]. intros k.
    case_decide; [|done]. by destruct (filtered st !! k). }
  rewrite filterPeer_permitted by (apply (Hget p e); by left).
  assert (Hfull : fullMap (setEdge st this node p e) = fullMap st).
  { cbn [setEdge fullMap]. destruct (shared st && String.eqb node this) eqn:Hs; [|done].
    apply andb_true_iff in Hs as [_ ->%String.eqb_eq].
    apply alter_id. intros row Hrow'. apply insert_id.
    assert (row = edges) as -> by congruence. apply Hl. by left. }
  destruct (IH (setEdge st this node p e)) as (st' & -> & Hfull' & Hrows).
  { by rewrite Hfull. }
  { intros q e' Hin. apply Hl. by right. }
  { intros q e' Hin. apply (Hget q e'). by right. }
  exists st'. split; [done|]. split; [congruence|].
  intros k. rewrite Hrows. cbn [setEdge filtered]. rewrite lookup_alter.
  destruct (decide (k = node)) as [->|Hne].
  - rewrite decide_True by done. by destruct (filtered st !! node).
  - by rewrite decide_False.
Qed.

(** The loop over the rows of [filtered] fills each row with the edges
    the full map has for it. *)
Lemma filterRows_permitted (full : gmap string (gmap string Edge))
    (nodes : list string) (st : maps) :
  NoDup nodes -> fullMap st = full ->
  (forall v row p, full !! v = Some row -> is_Some (row !! p) ->
     exists peer, Get getter p = Ok peer) ->
  exists st',
    filterRows n acls getter thisNode st nodes = Ok st'
    /\ fullMap st' = full
    /\ forall k, filtered st' !! k
         = if decide (k ∈ nodes)
           then match full !! k with
                | Some edges => setAll (map_to_list edges) <$> filtered st !! k
                | None => filtered st !! k
                end
           else filtered st !! k.
Proof.
  intros Hnd Hfull Hget. revert st Hfull.
  induction Hnd as [|node rest Hnotin Hnd IH]; intros st Hfull; cbn [filterRows].
  { exists st. split; [done|]. split; [done|]. intros k.
    rewrite decide_False; [done|]. by intros ?%elem_of_nil. }
  rewrite Hfull.
  destruct (full !! node) as [edges|] eqn:Hrow.
  - destruct (filterPeers_permitted node edges (map_to_list edges) st)
      as (st1 & -> & Hfull1 & Hrows1).
    { by rewrite Hfull. }
    { intros p e. apply elem_of_map_to_list. }
    { intros p e Hin%elem_of_map_to_list. by apply (Hget node edges p). }
    destruct (IH st1) as (st' & -> & Hfull' & Hrows); [congruence|].
    exists st'. split; [done|]. split; [done|].
    intros k. rewrite Hrows, Hrows1.
    destruct (decide (k = node)) as [->|Hne].
    + rewrite decide_False by done. rewrite decide_True by (by left). by rewrite Hrow.
    + destruct (decide (k ∈ rest)) as [Hin|Hout].
      * by rewrite decide_True by (by right).
      * rewrite decide_False; [done|]. by intros [?|?]%elem_of_cons.
  - destruct (IH st Hfull) as (st' & -> & Hfull' & Hrows).
    exists st'. split; [done|]. split; [done|].
    intros k. rewrite Hrows.
    destruct (decide (k = node)) as [->|Hne].
    + rewrite decide_False by done. rewrite decide_True by (by left). by rewrite Hrow.
    + destruct (decide (k ∈ rest)) as [Hin|Hout].
      * by rewrite decide_True by (by right).
      * rewrite decide_False; [done|]. by intros [?|?]%elem_of_cons.
Qed.

Lemma keys_of_map {A} (m : gmap string A) (k : string) :
  k ∈ (map_to_list m).*1 <-> is_Some (m !! k).
Proof.
  rewrite list_elem_of_fmap. split.
  - intros ([k' x] & -> & Hin). apply elem_of_map_to_list in Hin. by exists x.
  - intros [x Hx]. exists (k, x). split; [done|]. by apply elem_of_map_to_list.
Qed.

(** With ACLs that permit everything, [FilterGraph] returns the full
    adjacency map. *)
Lemma FilterGraph_permitted (peerGraph : PeerGraph)
    (full : gmap string (gmap string Edge)) (acls0 : ACLs) :
  ListNetworkACLs n = (acls0, None) -> Expand n acls0 = Ok acls ->
  AdjacencyMapOf peerGraph = Ok full ->
  is_Some (full !! this) -> getterOK getter full ->
  FilterGraph n getter peerGraph thisNode = Ok full.
Proof.
  intros Hacls Hexp Hfull [thisRow Hthis] Hget.
  unfold FilterGraph. rewrite Hacls, Hexp, Hfull.
  destruct (filterNodes_permitted (map_to_list full).*1 (initMaps full this))
    as (st1 & -> & Hfull1 & _ & Hrows1).
  { intros id Hid%keys_of_map. apply Hget. by left. }
  cbn [mbind result_bind].
  destruct (filterRows_permitted full (map_to_list (filtered st1)).*1 st1)
    as (st2 & -> & _ & Hrows2).
  { apply NoDup_fst_map_to_list. }
  { done. }
  { intros v row p Hv Hp. destruct (Hget p) as (peer & ? & _); [|by exists peer].
    right. by exists v, row. }
  cbn [mbind result_bind]. f_equal. apply map_eq. intros k.
  rewrite Hrows2.
  assert (Hk1 : filtered st1 !! k
                = match full !! k with
                  | Some edges => Some (if decide (k = this) then edges else ∅)
                  | None => None
                  end).
  { rewrite Hrows1. cbn [initMaps filtered]. rewrite Hthis. simpl.
    destruct (full !! k) as [edges|] eqn:Hk.
    - destruct (decide (k = this)) as [->|Hne].
      + rewrite decide_False by (by intros [_ ?]).
        rewrite lookup_singleton_eq. congruence.
      + rewrite decide_True; [done|]. split; [|done].
        apply keys_of_map. by rewrite Hk.
    - rewrite decide_False.
      + apply lookup_singleton_ne. intros <-. congruence.
      + intros [Hin%keys_of_map _]. rewrite Hk in Hin. by destruct Hin. }
  rewrite Hk1.
  destruct (full !! k) as [edges|] eqn:Hk.
  - rewrite decide_True by (apply keys_of_map; rewrite Hk1; eauto).
    simpl. f_equal. apply setAll_eq.
    + intros p e. apply elem_of_map_to_list.
    + intros p e Hp. left. by apply elem_of_map_to_list.
    + intros p e. case_decide; [done|]. by rewrite lookup_empty.
  - by case_decide.
Qed.

End Permissive.

End WithExternals.

Import Fixtures LinearMesh.

Lemma route3_denied :
  @someRouteDenied denyRoute colonNetip [] (meshNodeOf node2) "n3" [route3].
Proof.
  exists route3, "10.9.0.0/16", {| Addr_Is4 := true |}.
  split; [by left|]. split; [by left|]. split; reflexivity.
Qed.

Lemma meshFilteredDeny_eq : meshFilteredDeny = Ok meshEdgesDeny.
Proof. vm_compute. reflexivity. Qed.

Lemma FilterGraph_removes_denied_peer_witness :
  rowOf meshEdgesDeny "n2" !! "n3" = None.
Proof.
  apply (@FilterGraph_removes_denied_peer lineCodec denyRoute colonNetip
           meshStore [] meshGetter (meshNodeOf node2) meshPeerGraph
           meshEdges meshEdgesDeny [] "n3" (meshNodeOf node3) [route3]).
  - reflexivity.
  - reflexivity.
  - reflexivity.
  - exists {[ "n2" := edge "n3" "n2" ]}. vm_compute. reflexivity.
  - discriminate.
  - reflexivity.
  - reflexivity.
  - reflexivity.
  - exact route3_denied.
  - exact meshFilteredDeny_eq.
Defined.

End FilterGraphFacts.


Module ReachabilityFacts.
Import GoBytes GoErr MeshStorage V1 Networking.
Import Svcutil SvcutilFacts FilterGraphFacts.





Import Fixtures LinearMesh.

Lemma mesh_permits : @permits lineCodec permissive colonNetip meshStore [] (meshNodeOf node1).
Proof.
  split; [done|done|].
  exists [route3]. split; [reflexivity|].
  intros route cidr ->%list_elem_of_singleton ->%list_elem_of_singleton.
  by eexists.
Qed.

Lemma mesh_nodes (id : string) :
  knownNode meshEdges id -> id = "n1" \/ id = "n2" \/ id = "n3".
Proof.
  assert (Hdom : dom meshEdges = {[ "n1"; "n2"; "n3" ]}) by (vm_compute; reflexivity).
  assert (Hall : allTargets meshEdges = {[ "n1"; "n2"; "n3" ]}) by (vm_compute; reflexivity).
  intros [Hid%elem_of_dom|Hid%elem_of_allTargets].
  - rewrite Hdom in Hid. set_solver.
  - rewrite Hall in Hid. set_solver.
Qed.

Lemma mesh_getterOK : getterOK meshGetter meshEdges.
Proof. intros id [->|[->| ->]]%mesh_nodes; eexists; split; reflexivity. Qed.


Lemma meshGraph_cases (t : string) (n : Node) :
  Vertex meshGraph t = Ok n ->
  (t = "n1" /\ n = node1) \/ (t = "n2" /\ n = node2) \/ (t = "n3" /\ n = node3).
Proof.
  unfold meshGraph; simpl.
  destruct (String.eqb_spec t "n1") as [->|?]; [intros [= <-]; by left|].
  destruct (String.eqb_spec t "n2") as [->|?]; [intros [= <-]; right; by left|].
  destruct (String.eqb_spec t "n3") as [->|?]; [intros [= <-]; right; by right|].
  done.
Qed.

Lemma mesh_addressesDistinct : addressesDistinct meshGraph.
Proof.
  intros t1 t2 m1 m2 a H1 H2 Ha1 Ha2.
  apply meshGraph_cases in H1 as [[-> ->]|[[-> ->]|[-> ->]]];
    apply meshGraph_cases in H2 as [[-> ->]|[[-> ->]|[-> ->]]];
    try done;
    destruct Ha1 as [Ha1|Ha1]; destruct Ha2 as [Ha2|Ha2];
    simpl in Ha1, Ha2; congruence.
Qed.


End ReachabilityFacts.

(** ** More on the storage prefixes (src/unnamed/part_002) *)

Module PrefixFacts.
Import GoBytes GoBytesFacts Storage.

Lemma For_eq (p : Prefix) (k : string) : For p k = p +:+ "/" +:+ TrimPrefix k "/".
Proof. reflexivity. Qed.

Lemma string_app_inv_head (p a b : string) : p +:+ a = p +:+ b -> a = b.
Proof.
  induction p as [|c p IH]; [done|].
  change (String c (p +:+ a) = String c (p +:+ b) -> a = b).
  intros [= Heq]. by apply IH.
Qed.

Lemma IsReservedPrefix_orb (key : string) :
  IsReservedPrefix key = Contains RegistryPrefix key || Contains ConsensusPrefix key.
Proof.
  unfold IsReservedPrefix, ReservedPrefixes; cbn [anyContains].
  by destruct (Contains RegistryPrefix key), (Contains ConsensusPrefix key).
Qed.

(** X1: a key built with [For] lies under its prefix, so every key
    built for the registry or the consensus prefix is reserved. *)
Theorem For_is_contained :
  (forall (p : Prefix) (k : string), Contains p (For p k) = true)
  /\ (forall k : string,
        IsReservedPrefix (For RegistryPrefix k) = true
        /\ IsReservedPrefix (ForString ConsensusPrefix k) = true).
Proof.
  assert (Hc : forall p k, Contains p (For p k) = true).
  { intros p k. rewrite For_eq. apply HasPrefix_app. }
  split; [exact Hc|].
  intros k. unfold ForString. rewrite !IsReservedPrefix_orb, !Hc.
  split; [done|apply orb_true_r].
Qed.

(** X2: two keys are filed under the same storage key of a prefix
    exactly when they are equal up to one leading "/". *)
Theorem For_same_key_iff (p : Prefix) (k1 k2 : string) :
  For p k1 = For p k2 <-> TrimPrefix k1 "/" = TrimPrefix k2 "/".
Proof.
  rewrite !For_eq. split.
  - intros Heq. apply string_app_inv_head in Heq.
    by apply (string_app_inv_head "/") in Heq.
  - by intros ->.
Qed.

(** X3: [TrimFrom] changes a key exactly when the key begins with the
    prefix followed by "/"; the prefix itself and keys of other prefixes
    come back as they are. *)
Theorem TrimFrom_unchanged_iff (p : Prefix) (key : string) :
  TrimFrom p key = key <-> ~ begins_with key (p +:+ "/").
Proof.
  unfold TrimFrom. split.
  - intros Heq [rest ->]. rewrite TrimPrefix_app in Heq.
    apply (f_equal String.length) in Heq. rewrite !length_app in Heq.
    simpl in Heq. lia.
  - intros Hno. apply TrimPrefix_none.
    destruct (HasPrefix key (p +:+ "/")) eqn:E; [|done].
    exfalso. apply Hno. by apply HasPrefix_spec.
Qed.

End PrefixFacts.

(** ** Validation of the raft options (src/pkg/store/options_raft.go) *)

Module RaftValidateFacts.
Import GoErr RaftOpts RaftValidate.

Lemma IsValid_spec (r : string) :
  IsValid r = true <-> r = "json" \/ r = "protobuf" \/ r = "protobuf+snappy".
Proof.
  unfold IsValid, RaftLogFormatJSON, RaftLogFormatProtobuf, RaftLogFormatProtobufSnappy.
  rewrite !orb_true_iff, !String.eqb_eq. tauto.
Qed.

Lemma Validate_valid (o : RaftOptions) : validOptions o -> Validate (Some o) = None.
Proof.
  intros [Hdir Hpool Hconn Hhb Hel Hcommit Hmax Hlease Hsnap Hfmt].
  unfold Validate.
  assert (String.eqb (DataDir o) "" && negb (InMemory o) = false) as ->.
  { destruct Hdir as [Hd| ->]; [|apply andb_false_r].
    apply String.eqb_neq in Hd. by rewrite Hd. }
  assert ((ConnectionPoolCount o <? 0)%Z = false) as -> by (apply Z.ltb_ge; lia).
  assert ((ConnectionTimeout o <=? 0)%Z = false) as -> by (apply Z.leb_gt; lia).
  assert ((HeartbeatTimeout o <=? 0)%Z = false) as -> by (apply Z.leb_gt; lia).
  assert ((ElectionTimeout o <=? 0)%Z = false) as -> by (apply Z.leb_gt; lia).
  assert ((CommitTimeout o <=? 0)%Z = false) as -> by (apply Z.leb_gt; lia).
  assert ((MaxAppendEntries o <=? 0)%Z = false) as -> by (apply Z.leb_gt; lia).
  assert ((LeaderLeaseTimeout o <=? 0)%Z = false) as -> by (apply Z.leb_gt; lia).
  assert ((SnapshotInterval o <=? 0)%Z = false) as -> by (apply Z.leb_gt; lia).
  apply IsValid_spec in Hfmt. by rewrite Hfmt.
Qed.

Lemma Validate_nil_valid (o : RaftOptions) : Validate (Some o) = None -> validOptions o.
Proof.
  unfold Validate. intros Hv.
  destruct (String.eqb (DataDir o) "" && negb (InMemory o)) eqn:Edir; [done|].
  destruct (ConnectionPoolCount o <? 0)%Z eqn:Epool; [done|].
  destruct (ConnectionTimeout o <=? 0)%Z eqn:Econn; [done|].
  destruct (HeartbeatTimeout o <=? 0)%Z eqn:Ehb; [done|].
  destruct (ElectionTimeout o <=? 0)%Z eqn:Eel; [done|].
  destruct (CommitTimeout o <=? 0)%Z eqn:Ecommit; [done|].
  destruct (MaxAppendEntries o <=? 0)%Z eqn:Emax; [done|].
  destruct (LeaderLeaseTimeout o <=? 0)%Z eqn:Elease; [done|].
  destruct (SnapshotInterval o <=? 0)%Z eqn:Esnap; [done|].
  destruct (IsValid (LogFormat o)) eqn:Efmt; [|done].
  constructor; try lia.
  - apply andb_false_iff in Edir as [Hd|Hm].
    + left. by apply String.eqb_neq.
    + right. by destruct (InMemory o).
  - by apply IsValid_spec.
Qed.

Lemma orDefault_nonzero (v d : Z) : v <> 0%Z -> orDefault v d = v.
Proof. unfold orDefault. intros Hv. apply Z.eqb_neq in Hv. by rewrite Hv. Qed.

(** X4: [Validate] returns nil exactly for the options that name a
    data directory or are in-memory, have a non-negative pool count,
    positive connection, heartbeat, election, commit, leader-lease and
    snapshot-interval values, a positive number of append entries and one
    of the three log formats; the nil pointer is refused.  The apply,
    startup and shutdown timeouts and the snapshot threshold are not
    looked at. *)
Theorem Validate_accepts_iff :
  (forall o : RaftOptions, Validate (Some o) = None <-> validOptions o)
  /\ Validate None = Some (Errorf "raft options are nil").
Proof.
  split; [|done].
  intros o. split; [apply Validate_nil_valid|apply Validate_valid].
Qed.

(** The options of [NewRaftOptions] pass [Validate], and so do the
    options [BindFlags] leaves in any struct when none of the
    environment variables is set. *)
Lemma default_options_validate :
  Validate (Some NewRaftOptions) = None
  /\ (forall o : RaftOptions, Validate (Some (@BindFlags unset_env o)) = None).
Proof. split; [reflexivity|]. intros o. reflexivity. Qed.

(** X5: for options that passed [Validate], [RaftConfig] hands the node
    ID and the heartbeat, election, commit, leader-lease and
    snapshot-interval values and the number of append entries to raft
    as they are; a snapshot threshold of zero, which [Validate] lets
    through, leaves raft's own default in place. *)
Theorem RaftConfig_of_validated `{RaftLib} (o : RaftOptions) (nodeID : string) :
  Validate (Some o) = None ->
  let config := RaftConfig o nodeID in
  cfg_LocalID config = nodeID
  /\ cfg_HeartbeatTimeout config = HeartbeatTimeout o
  /\ cfg_ElectionTimeout config = ElectionTimeout o
  /\ cfg_CommitTimeout config = CommitTimeout o
  /\ cfg_MaxAppendEntries config = MaxAppendEntries o
  /\ cfg_LeaderLeaseTimeout config = LeaderLeaseTimeout o
  /\ cfg_SnapshotInterval config = SnapshotInterval o
  /\ (SnapshotThreshold o = 0%Z ->
      cfg_SnapshotThreshold config = cfg_SnapshotThreshold DefaultConfig)
  /\ (SnapshotThreshold o <> 0%Z ->
      cfg_SnapshotThreshold config = SnapshotThreshold o).
Proof.
  intros Hv%Validate_nil_valid. destruct Hv. cbn.
  rewrite !orDefault_nonzero by lia.
  repeat split; try done.
  - intros ->. reflexivity.
  - apply orDefault_nonzero.
Qed.

Lemma RaftConfig_of_validated_witness :
  Validate (Some NewRaftOptions) = None
  /\ cfg_HeartbeatTimeout (@RaftConfig sampleRaftLib NewRaftOptions "node-a")
     = (3 * Second)%Z
  /\ cfg_SnapshotThreshold (@RaftConfig sampleRaftLib NewRaftOptions "node-a") = 50%Z.
Proof.
  split; [reflexivity|].
  pose proof (@RaftConfig_of_validated sampleRaftLib NewRaftOptions "node-a" eq_refl)
    as (_ & Hhb & _ & _ & _ & _ & _ & _ & Hthreshold).
  split; [exact Hhb|].
  apply Hthreshold. discriminate.
Defined.

End RaftValidateFacts.

(** ** Reading back what the networking operations wrote
      (src/pkg/meshdb/networking/networking.go) *)

Module StoreOpsFacts.
Import GoBytes GoBytesFacts GoErr MeshStorage V1 Networking ACLOrder NetworkRoutes.
Import MeshStorageFacts NetworkACLFacts SnapshotFacts PrefixFacts.

Lemma GetValue_put_ne (s : Store) (key value key' : string) :
  key <> key' -> GetValue (put s key value) key' = GetValue s key'.
Proof.
  intros Hne. apply String.eqb_neq in Hne.
  induction s as [|[k v] s IH]; simpl.
  - by rewrite Hne.
  - destruct (String.compare key k) eqn:Hc; simpl.
    + apply String.compare_eq_iff in Hc as <-. by rewrite Hne.
    + by rewrite Hne.
    + by rewrite IH.
Qed.

Lemma GetValue_remove_ne (s : Store) (key key' : string) :
  key <> key' -> GetValue (remove s key) key' = GetValue s key'.
Proof.
  intros Hne. induction s as [|[k v] s IH]; simpl; [done|].
  destruct (String.eqb_spec k key) as [->|Hk]; simpl.
  - apply String.eqb_neq in Hne. by rewrite Hne.
  - by rewrite IH.
Qed.

Lemma GetValue_absent (s : Store) (key : string) :
  GetValue s key = Err ErrKeyNotFound <-> absent s key.
Proof.
  unfold absent. induction s as [|[k v] s IH]; simpl.
  - split; [|done]. intros _ v Hin. by apply elem_of_nil in Hin.
  - destruct (String.eqb_spec k key) as [->|Hk].
    + split; [done|]. intros Hno. exfalso. apply (Hno v). by left.
    + rewrite IH. split.
      * intros Hno v' [[= ? ?]|Hin]%elem_of_cons; [done|]. by apply (Hno v').
      * intros Hno v' Hin. apply (Hno v'). by right.
Qed.

Lemma GetValue_error (s : Store) (key : string) (e : error) :
  GetValue s key = Err e -> e = ErrKeyNotFound.
Proof.
  induction s as [|[k v] s IH]; simpl; [by intros [= <-]|].
  destruct (String.eqb k key); [done|exact IH].
Qed.

Lemma GetValue_elem_of (s : Store) (key value : string) :
  GetValue s key = Ok value -> (key, value) ∈ s.
Proof.
  induction s as [|[k v] s IH]; simpl; [done|].
  destruct (String.eqb_spec k key) as [->|Hk].
  - intros [= ->]. by left.
  - intros Hg. right. by apply IH.
Qed.

Lemma elem_of_put_new (s : Store) (key value : string) : (key, value) ∈ put s key value.
Proof. apply GetValue_elem_of, GetValue_put_eq. Qed.

Lemma GetValue_above (s : Store) (key : string) :
  Forall (key_lt key) s.*1 -> GetValue s key = Err ErrKeyNotFound.
Proof.
  induction s as [|[k v] s IH]; simpl; [done|].
  intros [Hk Hs]%Forall_cons. apply key_lt_ne in Hk.
  destruct (String.eqb_spec k key) as [->|_]; [done|by apply IH].
Qed.

Lemma GetValue_remove_eq (s : Store) (key : string) :
  ordered s -> GetValue (remove s key) key = Err ErrKeyNotFound.
Proof.
  unfold ordered. induction s as [|[k v] s IH]; simpl; [done|].
  intros [Hs Hk]%StronglySorted_inv.
  destruct (String.eqb_spec k key) as [->|Hne]; simpl.
  - by apply GetValue_above.
  - apply String.eqb_neq in Hne. rewrite Hne. by apply IH.
Qed.

Lemma remove_ordered (s : Store) (key : string) : ordered s -> ordered (remove s key).
Proof. apply ordered_sublist, remove_sublist. Qed.

Lemma remove_absent (s : Store) (key : string) : absent s key -> remove s key = s.
Proof.
  unfold absent. induction s as [|[k v] s IH]; simpl; [done|].
  intros Hno. destruct (String.eqb_spec k key) as [->|Hne].
  - exfalso. apply (Hno v). by left.
  - f_equal. apply IH. intros v' Hin. apply (Hno v'). by right.
Qed.

Lemma remove_put (s : Store) (key value : string) :
  ordered s -> absent s key -> remove (put s key value) key = s.
Proof.
  unfold ordered, absent. induction s as [|[k v] s IH]; simpl; intros Hs Hno.
  - by rewrite String.eqb_refl.
  - destruct (String.compare key k) eqn:Hc; simpl.
    + apply String.compare_eq_iff in Hc as ->. exfalso. apply (Hno v). by left.
    + by rewrite String.eqb_refl.
    + rewrite (eqb_of_compare_ne key k) by congruence.
      apply StronglySorted_inv in Hs as [Hs _]. f_equal. apply IH; [done|].
      intros v' Hin. apply (Hno v'). by right.
Qed.

Lemma aclKey_inj (a b : string) : aclKey a = aclKey b -> a = b.
Proof.
  unfold aclKey. intros Heq%string_app_inv_head. by apply (string_app_inv_head "/").
Qed.

Lemma routeKey_inj (a b : string) : routeKey a = routeKey b -> a = b.
Proof.
  unfold routeKey. intros Heq%string_app_inv_head. by apply (string_app_inv_head "/").
Qed.

Lemma routeKey_has_prefix (name : string) : HasPrefix (routeKey name) RoutesPrefix = true.
Proof. apply HasPrefix_app. Qed.

Lemma routeKey_ne_prefix (name : string) : routeKey name <> RoutesPrefix.
Proof.
  unfold routeKey. intros Heq. apply (f_equal String.length) in Heq.
  rewrite !length_app in Heq. simpl in Heq. lia.
Qed.

Lemma iterate_app {A} (es es' : list (string * string))
    (fn : string -> string -> A -> A * option error) (acc acc' : A) :
  iterate es fn acc = (acc', None) ->
  iterate (es ++ es') fn acc = iterate es' fn acc'.
Proof.
  revert acc. induction es as [|[k v] es IH]; simpl; intros acc.
  - by intros [= ->].
  - destruct (fn k v acc) as [acc1 [e|]]; [done|]. apply IH.
Qed.

Section WithCodec.
Context `{Protojson}.

Lemma GetNetworkACL_put_ne (n : Store) (name other data : string) :
  other <> name ->
  GetNetworkACL (put n (aclKey name) data) other = GetNetworkACL n other.
Proof.
  intros Hne. unfold GetNetworkACL. fold (aclKey other).
  rewrite GetValue_put_ne; [done|].
  intros Heq%aclKey_inj. by apply Hne.
Qed.

Lemma systemACLGuard_passes (n : Store) (acl : NetworkACL) :
  IsSystemNetworkACL (acl_Name acl) = false \/ absent n (aclKey (acl_Name acl)) ->
  systemACLGuard n acl = None.
Proof.
  unfold systemACLGuard. intros [->|Habs]; [done|].
  destruct (IsSystemNetworkACL (acl_Name acl)); [|done].
  unfold GetNetworkACL. fold (aclKey (acl_Name acl)).
  apply GetValue_absent in Habs. by rewrite Habs.
Qed.

Lemma PutNetworkACL_ok (n : Store) (acl : NetworkACL) (data : string) :
  IsSystemNetworkACL (acl_Name acl) = false \/ absent n (aclKey (acl_Name acl)) ->
  MarshalACL acl = Ok data ->
  PutNetworkACL n acl = (put n (aclKey (acl_Name acl)) data, None).
Proof.
  intros Hguard Hdata. unfold PutNetworkACL.
  by rewrite (systemACLGuard_passes _ _ Hguard), Hdata.
Qed.

Lemma storesACLs_put (n : Store) (acl : NetworkACL) (data : string) :
  storesACLs n -> UnmarshalACL data = Ok acl ->
  storesACLs (put n (aclKey (acl_Name acl)) data).
Proof.
  intros Hs Hdec k v Hin Hpre Hk.
  apply elem_of_put in Hin as [[= -> ->]|Hin]; [by exists acl|by apply Hs].
Qed.

(** X6: an ACL written by [PutNetworkACL] is what [GetNetworkACL]
    returns for its name afterwards, and the ACLs of all other names read
    as before.  The ACL is not the system ACL or the system ACL is not
    yet stored, and the encoding of the ACL decodes to it. *)
Theorem PutNetworkACL_then_Get (n : Store) (acl : NetworkACL) (data : string) :
  IsSystemNetworkACL (acl_Name acl) = false \/ absent n (aclKey (acl_Name acl)) ->
  MarshalACL acl = Ok data ->
  UnmarshalACL data = Ok acl ->
  exists n', PutNetworkACL n acl = (n', None)
    /\ GetNetworkACL n' (acl_Name acl) = Ok acl
    /\ (forall other, other <> acl_Name acl ->
          GetNetworkACL n' other = GetNetworkACL n other).
Proof.
  intros Hguard Hdata Hdec. eexists. split; [by apply PutNetworkACL_ok|]. split.
  - unfold GetNetworkACL. fold (aclKey (acl_Name acl)).
    by rewrite GetValue_put_eq, Hdec.
  - intros other Hne. by apply GetNetworkACL_put_ne.
Qed.

(** X7: deleting an ACL other than the system ACL never fails, also when
    no ACL has the name; afterwards [GetNetworkACL] reports
    [ErrACLNotFound] for the name and reads every other name as before.
    The system ACL is refused and the store left as it is. *)
Theorem DeleteNetworkACL_then_Get (n : Store) (name : string) :
  ordered n ->
  (IsSystemNetworkACL name = false ->
   exists n', DeleteNetworkACL n name = (n', None)
     /\ ordered n'
     /\ GetNetworkACL n' name = Err ErrACLNotFound
     /\ (forall other, other <> name ->
           GetNetworkACL n' other = GetNetworkACL n other))
  /\ (IsSystemNetworkACL name = true ->
      exists err, DeleteNetworkACL n name = (n, Some err)).
Proof.
  intros Hord. unfold DeleteNetworkACL. split; intros ->; [|by eexists].
  fold (aclKey name). eexists. split; [reflexivity|]. split; [|split].
  - by apply remove_ordered.
  - unfold GetNetworkACL. fold (aclKey name). by rewrite GetValue_remove_eq.
  - intros other Hne. unfold GetNetworkACL. fold (aclKey other).
    rewrite GetValue_remove_ne; [done|].
    intros Heq%aclKey_inj. by apply Hne.
Qed.

(** X8: [GetNetworkACL] reports [ErrACLNotFound], and [GetRoute]
    [ErrRouteNotFound], exactly when the store has no entry under the
    key of the name; an entry that does not decode gives another
    error. *)
Theorem not_found_iff_absent (n : Store) (name : string) :
  (GetNetworkACL n name = Err ErrACLNotFound <-> absent n (aclKey name))
  /\ (GetRoute n name = Err ErrRouteNotFound <-> absent n (routeKey name)).
Proof.
  split.
  - unfold GetNetworkACL. fold (aclKey name). rewrite <- GetValue_absent.
    destruct (GetValue n (aclKey name)) as [data|err] eqn:Hget.
    + destruct (UnmarshalACL data); split; done.
    + apply GetValue_error in Hget as ->. done.
  - unfold GetRoute. fold (routeKey name). rewrite <- GetValue_absent.
    destruct (GetValue n (routeKey name)) as [data|err] eqn:Hget.
    + destruct (UnmarshalRoute data); split; done.
    + apply GetValue_error in Hget as ->. done.
Qed.

Lemma iterate_decoded (es : list (string * string)) (acc : ACLs) :
  Forall (fun kv => kv.1 = NetworkACLsPrefix \/ exists acl, UnmarshalACL kv.2 = Ok acl) es ->
  iterate es listACLsFn acc = (acc ++ omap decoded es, None).
Proof.
  revert acc. induction es as [|[k v] es IH]; simpl; intros acc Hes.
  - by rewrite app_nil_r.
  - apply Forall_cons in Hes as [Hkv Hes]. simpl in Hkv.
    unfold listACLsFn, decoded at 1; simpl.
    destruct (String.eqb_spec k NetworkACLsPrefix) as [->|Hk].
    + by apply IH.
    + destruct Hkv as [?|[acl Hacl]]; [done|]. rewrite Hacl.
      rewrite IH by done. by rewrite <- app_assoc.
Qed.

(** X9: [ListNetworkACLs] stops at the first entry that does not
    decode and returns, with the wrapped error, the ACLs of the entries
    before it. *)
Theorem ListNetworkACLs_stops_at_undecodable
    (n : Store) (good rest : list (string * string)) (k v : string) (e : error) :
  entriesWithPrefix n NetworkACLsPrefix = good ++ (k, v) :: rest ->
  Forall (fun kv => kv.1 = NetworkACLsPrefix \/ exists acl, UnmarshalACL kv.2 = Ok acl)
    good ->
  k <> NetworkACLsPrefix ->
  UnmarshalACL v = Err e ->
  ListNetworkACLs n = (omap decoded good, Some (Wrap "unmarshal network acl" e)).
Proof.
  intros Hes Hgood Hk Hv. unfold ListNetworkACLs, IterPrefix. rewrite Hes.
  rewrite (iterate_app good _ _ [] (omap decoded good)).
  - simpl. unfold listACLsFn. apply String.eqb_neq in Hk. by rewrite Hk, Hv.
  - by rewrite (iterate_decoded good []).
Qed.

(** X10: [PutNetworkACL] keeps the store ordered and a store of ACLs,
    and [ListNetworkACLs] afterwards succeeds and returns the new ACL
    together with ACLs that were listed before. *)
Theorem PutNetworkACL_then_List (n : Store) (acl : NetworkACL) (data : string) :
  ordered n -> storesACLs n ->
  IsSystemNetworkACL (acl_Name acl) = false \/ absent n (aclKey (acl_Name acl)) ->
  MarshalACL acl = Ok data ->
  UnmarshalACL data = Ok acl ->
  exists n' out,
    PutNetworkACL n acl = (n', None)
    /\ ordered n' /\ storesACLs n'
    /\ ListNetworkACLs n' = (out, None)
    /\ acl ∈ out
    /\ (forall a, a ∈ out -> a = acl \/ a ∈ (ListNetworkACLs n).1).
Proof.
  intros Hord Hs Hguard Hdata Hdec.
  pose proof (storesACLs_put n acl data Hs Hdec) as Hs'.
  eexists _, _. split; [by apply PutNetworkACL_ok|].
  split; [by apply put_ordered|]. split; [exact Hs'|].
  split; [by apply ListNetworkACLs_decoded|]. split.
  - apply elem_of_decoded. exists (aclKey (acl_Name acl)), data.
    split; [apply elem_of_put_new|].
    split; [apply aclKey_has_prefix|]. split; [apply aclKey_ne_prefix|done].
  - intros a (k & v & Hin & Hpre & Hk & Hv)%elem_of_decoded.
    apply elem_of_put in Hin as [[= -> ->]|Hin].
    + left. congruence.
    + right. rewrite (ListNetworkACLs_decoded n Hs). simpl.
      apply elem_of_decoded. by exists k, v.
Qed.

End WithCodec.

End StoreOpsFacts.

(** ** Routes (src/pkg/meshdb/networking/networking.go) *)

Module RouteFacts.
Import GoBytes GoBytesFacts GoErr MeshStorage V1 Networking NetworkRoutes.
Import MeshStorageFacts SnapshotFacts StoreOpsFacts.

Section WithCodec.
Context `{Protojson}.

Lemma iterate_decodedRoute (es : list (string * string)) (acc : list Route) :
  Forall (fun kv => kv.1 = RoutesPrefix \/ exists r, UnmarshalRoute kv.2 = Ok r) es ->
  iterate es listRoutesFn acc = (acc ++ omap decodedRoute es, None).
Proof.
  revert acc. induction es as [|[k v] es IH]; simpl; intros acc Hes.
  - by rewrite app_nil_r.
  - apply Forall_cons in Hes as [Hkv Hes]. simpl in Hkv.
    unfold listRoutesFn, decodedRoute at 1; simpl.
    destruct (String.eqb_spec k RoutesPrefix) as [->|Hk].
    + by apply IH.
    + destruct Hkv as [?|[r Hr]]; [done|]. rewrite Hr.
      rewrite IH by done. by rewrite <- app_assoc.
Qed.

Lemma ListRoutes_decoded (s : Store) :
  storesRoutes s ->
  ListRoutes s = (omap decodedRoute (entriesWithPrefix s RoutesPrefix), None).
Proof.
  intros Hs. unfold ListRoutes, IterPrefix.
  rewrite (iterate_decodedRoute _ []); [done|].
  apply Forall_forall. intros [k v] [Hpre Hin]%list_elem_of_filter. simpl in *.
  destruct (String.eqb_spec k RoutesPrefix) as [->|Hk]; [by left|].
  right. destruct (Hs k v Hin Hpre Hk) as (r & Hr & _). by exists r.
Qed.

Lemma elem_of_decodedRoute (s : Store) (r : Route) :
  r ∈ omap decodedRoute (entriesWithPrefix s RoutesPrefix) <->
  exists k v, (k, v) ∈ s /\ HasPrefix k RoutesPrefix = true
              /\ k <> RoutesPrefix /\ UnmarshalRoute v = Ok r.
Proof.
  rewrite list_elem_of_omap. split.
  - intros ([k v] & [Hpre Hin]%list_elem_of_filter & Hdec).
    unfold decodedRoute in Hdec; simpl in *.
    destruct (String.eqb k RoutesPrefix) eqn:Hk; [done|].
    apply String.eqb_neq in Hk.
    destruct (UnmarshalRoute v) as [a|] eqn:Hv; [|done].
    exists k, v. naive_solver.
  - intros (k & v & Hin & Hpre & Hk & Hv). exists (k, v). split.
    + by apply list_elem_of_filter.
    + unfold decodedRoute; simpl. apply String.eqb_neq in Hk. by rewrite Hk, Hv.
Qed.

Lemma storesRoutes_put (n : Store) (route : Route) (data : string) :
  storesRoutes n -> UnmarshalRoute data = Ok route ->
  storesRoutes (put n (routeKey (route_Name route)) data).
Proof.
  intros Hs Hdec k v Hin Hpre Hk.
  apply elem_of_put in Hin as [[= -> ->]|Hin]; [by exists route|by apply Hs].
Qed.

Lemma PutRoute_ok (n : Store) (route : Route) (data : string) :
  MarshalRoute route = Ok data ->
  PutRoute n route = (put n (routeKey (route_Name route)) data, None).
Proof. intros Hdata. unfold PutRoute. by rewrite Hdata. Qed.

Lemma PutRoute_cases (n n' : Store) (route : Route) (err : option error) :
  PutRoute n route = (n', err) ->
  (exists data, MarshalRoute route = Ok data
                /\ n' = put n (routeKey (route_Name route)) data /\ err = None)
  \/ (n' = n /\ exists e, err = Some e).
Proof.
  unfold PutRoute. destruct (MarshalRoute route) as [data|e]; simpl.
  - intros [= <- <-]. left. by exists data.
  - intros [= <- <-]. right. split; [done|by eexists].
Qed.

Lemma GetRoute_put_eq (n : Store) (route : Route) (data : string) :
  UnmarshalRoute data = Ok route ->
  GetRoute (put n (routeKey (route_Name route)) data) (route_Name route) = Ok route.
Proof.
  intros Hdec. unfold GetRoute. fold (routeKey (route_Name route)).
  by rewrite GetValue_put_eq, Hdec.
Qed.

Lemma GetRoutesByNode_put (n : Store) (route : Route) (data : string) :
  storesRoutes n -> UnmarshalRoute data = Ok route ->
  exists routes,
    GetRoutesByNode (put n (routeKey (route_Name route)) data) (route_Node route)
    = Ok routes
    /\ route ∈ routes.
Proof.
  intros Hs Hdec. unfold GetRoutesByNode.
  rewrite ListRoutes_decoded by by apply storesRoutes_put.
  eexists. split; [reflexivity|].
  apply list_elem_of_filter. split; [apply String.eqb_refl|].
  apply elem_of_decodedRoute. exists (routeKey (route_Name route)), data.
  split; [apply elem_of_put_new|].
  split; [apply routeKey_has_prefix|]. split; [apply routeKey_ne_prefix|done].
Qed.

Lemma GetRoutesByNode_node (n : Store) (nodeName : string) (routes : list Route) (r : Route) :
  GetRoutesByNode n nodeName = Ok routes -> r ∈ routes -> route_Node r = nodeName.
Proof.
  unfold GetRoutesByNode. destruct (ListRoutes n) as [all [e|]]; [done|].
  intros [= <-] [Hnode _]%list_elem_of_filter. by apply String.eqb_eq.
Qed.

(** X11: a route written by [PutRoute] into a store of routes is what
    [GetRoute] returns for its name, and [GetRoutesByNode] for its node
    succeeds, contains it and contains routes of that node only.  The
    encoding of the route decodes to it. *)
Theorem PutRoute_then_read (n : Store) (route : Route) (data : string) :
  storesRoutes n ->
  MarshalRoute route = Ok data ->
  UnmarshalRoute data = Ok route ->
  exists n' routes,
    PutRoute n route = (n', None)
    /\ storesRoutes n'
    /\ GetRoute n' (route_Name route) = Ok route
    /\ GetRoutesByNode n' (route_Node route) = Ok routes
    /\ route ∈ routes
    /\ (forall r, r ∈ routes -> route_Node r = route_Node route).
Proof.
  intros Hs Hdata Hdec.
  destruct (GetRoutesByNode_put n route data Hs Hdec) as (routes & Hget & Hin).
  exists (put n (routeKey (route_Name route)) data), routes.
  split; [by apply PutRoute_ok|]. split; [by apply storesRoutes_put|].
  split; [by apply GetRoute_put_eq|]. split; [exact Hget|]. split; [exact Hin|].
  intros r Hr. by eapply GetRoutesByNode_node.
Qed.

Lemma anyDestination_spec (destinations : list string) (cidr : string) :
  anyDestination destinations cidr = true <->
  exists destination, destination ∈ destinations /\ HasPrefix destination cidr = true.
Proof.
  induction destinations as [|d ds IH]; simpl.
  - split; [done|]. intros (x & Hx & _). by apply elem_of_nil in Hx.
  - destruct (HasPrefix d cidr) eqn:Hd.
    + split; [|done]. intros _. exists d. split; [by left|done].
    + rewrite IH. split.
      * intros (x & Hx & Hp). exists x. split; [by right|done].
      * intros (x & [->|Hx]%elem_of_cons & Hp); [congruence|by exists x].
Qed.

Lemma routesByCIDR_filter (routes out : list Route) (cidr : string) :
  routesByCIDR routes cidr out
  = out ++ filter (fun r => anyDestination (route_DestinationCidrs r) cidr = true) routes.
Proof.
  revert out. induction routes as [|r routes IH]; simpl; intros out.
  - by rewrite app_nil_r.
  - rewrite IH. rewrite filter_cons.
    destruct (anyDestination (route_DestinationCidrs r) cidr) eqn:Hr.
    + rewrite decide_True by done. by rewrite <- app_assoc.
    + rewrite decide_False by done. done.
Qed.

(** X12: [GetRoutesByCIDR] returns, in the order of [ListRoutes] and
    each at most as often as it is listed, the routes with a destination
    that begins with the given text; the comparison is one of texts, not
    of networks.  When [ListRoutes] fails, so does it. *)
Theorem GetRoutesByCIDR_spec (n : Store) (cidr : string) :
  (forall all : list Route,
      ListRoutes n = (all, None) ->
      exists out,
        GetRoutesByCIDR n cidr = Ok out
        /\ out `sublist_of` all
        /\ (forall r, r ∈ out <-> r ∈ all /\ destinationBeginsWith cidr r))
  /\ (forall (some : list Route) (err : error),
        ListRoutes n = (some, Some err) ->
        GetRoutesByCIDR n cidr = Err (Wrap "list network routes" err)).
Proof.
  unfold GetRoutesByCIDR. split.
  - intros all ->. eexists. split; [reflexivity|].
    rewrite routesByCIDR_filter. simpl. split; [apply sublist_filter|].
    intros r. rewrite list_elem_of_filter, anyDestination_spec.
    unfold destinationBeginsWith. tauto.
  - by intros some err ->.
Qed.

(** X13: [DeleteRoute] after [PutRoute] of a route leaves no route of
    that name: [GetRoute] reports [ErrRouteNotFound], every other name
    reads as in the first store, and a store that had no route of the
    name is the same store again. *)
Theorem DeleteRoute_after_PutRoute (n : Store) (route : Route) (data : string) :
  ordered n ->
  MarshalRoute route = Ok data ->
  exists n' n'',
    PutRoute n route = (n', None)
    /\ DeleteRoute n' (route_Name route) = (n'', None)
    /\ GetRoute n'' (route_Name route) = Err ErrRouteNotFound
    /\ (forall other, other <> route_Name route -> GetRoute n'' other = GetRoute n other)
    /\ (absent n (routeKey (route_Name route)) -> n'' = n).
Proof.
  intros Hord Hdata. eexists _, _. split; [by apply PutRoute_ok|].
  split; [reflexivity|]. fold (routeKey (route_Name route)). split; [|split].
  - unfold GetRoute. fold (routeKey (route_Name route)).
    rewrite GetValue_remove_eq; [done|]. by apply put_ordered.
  - intros other Hne. unfold GetRoute. fold (routeKey other).
    assert (Hk : routeKey (route_Name route) <> routeKey other).
    { intros Heq%routeKey_inj. by apply Hne. }
    by rewrite GetValue_remove_ne, GetValue_put_ne.
  - intros Habs. by apply remove_put.
Qed.

End WithCodec.

End RouteFacts.

Module StoreOpsExamples.
Import GoBytes GoErr MeshStorage V1 Networking ACLOrder NetworkRoutes Fixtures StoreFixtures.
Import LinearMesh.
Import MeshStorageFacts NetworkACLFacts StoreOpsFacts RouteFacts.

Lemma PutNetworkACL_then_Get_witness :
  exists n', @PutNetworkACL lineCodec twoACLs (mkACL "c" 7) = (n', None)
    /\ @GetNetworkACL lineCodec n' "c" = Ok (mkACL "c" 7)
    /\ (forall other, other <> "c" ->
          @GetNetworkACL lineCodec n' other = @GetNetworkACL lineCodec twoACLs other).
Proof.
  apply (@PutNetworkACL_then_Get lineCodec twoACLs (mkACL "c" 7)
           (String (ascii_of_N 7) "c")).
  - left. reflexivity.
  - reflexivity.
  - reflexivity.
Defined.

Lemma DeleteNetworkACL_then_Get_witness :
  ordered twoACLs
  /\ exists n', DeleteNetworkACL twoACLs "a" = (n', None)
       /\ ordered n'
       /\ @GetNetworkACL lineCodec n' "a" = Err ErrACLNotFound
       /\ (forall other, other <> "a" ->
             @GetNetworkACL lineCodec n' other = @GetNetworkACL lineCodec twoACLs other).
Proof.
  split; [exact twoACLs_ordered|].
  apply (proj1 (@DeleteNetworkACL_then_Get lineCodec twoACLs "a" twoACLs_ordered)).
  reflexivity.
Defined.

Lemma ListNetworkACLs_stops_at_undecodable_witness :
  @ListNetworkACLs lineCodec brokenACLs
  = ([mkACL "a" 0],
     Some (Wrap "unmarshal network acl" (Errorf "unexpected end of input"))).
Proof.
  apply (@ListNetworkACLs_stops_at_undecodable lineCodec brokenACLs
           [(aclKey "a", String (ascii_of_N 0) "a")]
           [(aclKey "c", String (ascii_of_N 0) "c")]
           (aclKey "b") "" (Errorf "unexpected end of input")).
  - vm_compute. reflexivity.
  - constructor; [|constructor]. right. exists (mkACL "a" 0). reflexivity.
  - apply aclKey_ne_prefix.
  - reflexivity.
Defined.

Lemma PutNetworkACL_then_List_witness :
  ordered twoACLs /\ @storesACLs lineCodec twoACLs
  /\ exists n' out,
       @PutNetworkACL lineCodec twoACLs (mkACL "c" 7) = (n', None)
       /\ ordered n' /\ @storesACLs lineCodec n'
       /\ @ListNetworkACLs lineCodec n' = (out, None)
       /\ mkACL "c" 7 ∈ out
       /\ (forall a, a ∈ out ->
             a = mkACL "c" 7 \/ a ∈ (@ListNetworkACLs lineCodec twoACLs).1).
Proof.
  split; [exact twoACLs_ordered|]. split; [exact twoACLs_stores|].
  apply (@PutNetworkACL_then_List lineCodec twoACLs (mkACL "c" 7)
           (String (ascii_of_N 7) "c") twoACLs_ordered twoACLs_stores).
  - left. reflexivity.
  - reflexivity.
  - reflexivity.
Defined.

Lemma oneRoute_stores : @storesRoutes lineCodec (@PutRoute lineCodec empty route3).1.
Proof.
  intros k v Hin _ _. apply list_elem_of_singleton in Hin as [= -> ->].
  exists route3. split; reflexivity.
Qed.

Lemma oneRoute_ordered : ordered (@PutRoute lineCodec empty route3).1.
Proof. unfold ordered. repeat constructor. Qed.

Lemma PutRoute_then_read_witness :
  @storesRoutes lineCodec (@PutRoute lineCodec empty route3).1
  /\ exists n' routes,
       @PutRoute lineCodec (@PutRoute lineCodec empty route3).1 route1 = (n', None)
       /\ @storesRoutes lineCodec n'
       /\ @GetRoute lineCodec n' "n1-auto" = Ok route1
       /\ @GetRoutesByNode lineCodec n' "n1" = Ok routes
       /\ route1 ∈ routes
       /\ (forall r, r ∈ routes -> route_Node r = "n1").
Proof.
  split; [exact oneRoute_stores|].
  apply (@PutRoute_then_read lineCodec (@PutRoute lineCodec empty route3).1 route1
           "n1-auto|n1|192.168.0.0/24|10.90.0.0/16" oneRoute_stores).
  - reflexivity.
  - reflexivity.
Defined.

Lemma GetRoutesByCIDR_spec_witness :
  @ListRoutes lineCodec twoRoutes = ([route1; route3], None)
  /\ exists out,
       @GetRoutesByCIDR lineCodec twoRoutes "10.9" = Ok out
       /\ out `sublist_of` [route1; route3]
       /\ (forall r, r ∈ out <->
             r ∈ [route1; route3] /\ destinationBeginsWith "10.9" r).
Proof.
  assert (Hall : @ListRoutes lineCodec twoRoutes = ([route1; route3], None))
    by (vm_compute; reflexivity).
  split; [exact Hall|].
  exact (proj1 (@GetRoutesByCIDR_spec lineCodec twoRoutes "10.9") [route1; route3] Hall).
Defined.

Lemma DeleteRoute_after_PutRoute_witness :
  ordered (@PutRoute lineCodec empty route3).1
  /\ exists n' n'',
       @PutRoute lineCodec (@PutRoute lineCodec empty route3).1 route1 = (n', None)
       /\ DeleteRoute n' "n1-auto" = (n'', None)
       /\ @GetRoute lineCodec n'' "n1-auto" = Err ErrRouteNotFound
       /\ (forall other, other <> "n1-auto" ->
             @GetRoute lineCodec n'' other
             = @GetRoute lineCodec (@PutRoute lineCodec empty route3).1 other)
       /\ (absent (@PutRoute lineCodec empty route3).1 (routeKey "n1-auto") ->
           n'' = (@PutRoute lineCodec empty route3).1).
Proof.
  split; [exact oneRoute_ordered|].
  apply (@DeleteRoute_after_PutRoute lineCodec (@PutRoute lineCodec empty route3).1 route1
           "n1-auto|n1|192.168.0.0/24|10.90.0.0/16" oneRoute_ordered).
  reflexivity.
Defined.

End StoreOpsExamples.

(** ** The routes of a joining node (src/pkg/services/membership/server.go) *)

Module MembershipFacts.
Import GoBytes GoBytesFacts GoErr MeshStorage V1 Networking NetworkRoutes Membership.
Import MeshStorageFacts StoreOpsFacts RouteFacts.

Lemma hasCidr_spec (cidrs : list string) (route : string) :
  hasCidr cidrs route = true <-> route ∈ cidrs.
Proof.
  induction cidrs as [|c cidrs IH]; simpl.
  - split; [done|]. by intros ?%elem_of_nil.
  - destruct (String.eqb_spec c route) as [->|Hne].
    + split; [|done]. intros _. by left.
    + rewrite IH. split; [by right|].
      intros [?|?]%elem_of_cons; [congruence|done].
Qed.

Lemma advertised_spec (current : list Route) (route : string) :
  advertised current route = true <->
  exists r, r ∈ current /\ route ∈ route_DestinationCidrs r.
Proof.
  induction current as [|r current IH]; simpl.
  - split; [done|]. intros (x & Hx & _). by apply elem_of_nil in Hx.
  - destruct (hasCidr (route_DestinationCidrs r) route) eqn:Hr.
    + split; [|done]. intros _. exists r. split; [by left|by apply hasCidr_spec].
    + rewrite IH. split.
      * intros (x & Hx & Hin). exists x. split; [by right|done].
      * intros (x & [->|Hx]%elem_of_cons & Hin); [|by exists x].
        apply hasCidr_spec in Hin. congruence.
Qed.

Section WithCodec.
Context `{Protojson}.
Variable Quote : string -> string.

Lemma ensureRoutes_cases (n : Store) (nodeID : string) (routes : list string)
    (current : list Route) (remaining : list string) :
  (advertises current remaining
   /\ ensureRoutes Quote n nodeID routes current remaining = (n, (false, None)))
  \/ (~ advertises current remaining
      /\ ensureRoutes Quote n nodeID routes current remaining
         = match PutRoute n (autoRoute nodeID routes) with
           | (n', Some err) =>
               (n', (true, Some (Wrap ("put route for node " +:+ Quote nodeID) err)))
           | (n', None) => (n', (false, None))
           end).
Proof.
  induction remaining as [|route rest IH]; simpl.
  - left. split; [|done]. intros route Hin. by apply elem_of_nil in Hin.
  - destruct (advertised current route) eqn:Hadv.
    + apply advertised_spec in Hadv.
      destruct IH as [[Hall Heq]|[Hno Heq]]; [left|right]; (split; [|exact Heq]).
      * intros x [->|Hx]%elem_of_cons; [done|by apply Hall].
      * intros Hall. apply Hno. intros x Hx. apply Hall. by right.
    + right. split; [|done].
      intros Hall. assert (advertised current route = true); [|congruence].
      apply advertised_spec, Hall. by left.
Qed.

Lemma advertises_autoRoute (nodeID : string) (routes : list string) (current : list Route) :
  autoRoute nodeID routes ∈ current -> advertises current routes.
Proof. intros Hin route Hroute. by exists (autoRoute nodeID routes). Qed.

Lemma ensurePeerRoutes_post (n n' : Store) (nodeID : string) (routes : list string)
    (created : bool) :
  storesRoutes n ->
  (forall data, MarshalRoute (autoRoute nodeID routes) = Ok data ->
                UnmarshalRoute data = Ok (autoRoute nodeID routes)) ->
  ensurePeerRoutes Quote n nodeID routes = (n', (created, None)) ->
  created = false
  /\ storesRoutes n'
  /\ exists current', GetRoutesByNode n' nodeID = Ok current'
                      /\ advertises current' routes.
Proof.
  intros Hs Hcodec. unfold ensurePeerRoutes.
  destruct (GetRoutesByNode n nodeID) as [current|err] eqn:Hcur; [|done].
  destruct (ensureRoutes_cases n nodeID routes current routes)
    as [[Hall ->]|[Hno ->]].
  - intros [= <- <-]. split; [done|]. split; [done|]. by exists current.
  - destruct (PutRoute n (autoRoute nodeID routes)) as [n1 [err|]] eqn:Hput; [done|].
    intros [= <- <-]. split; [done|].
    apply PutRoute_cases in Hput as [(data & Hdata & -> & _)|[_ [e ?]]]; [|done].
    pose proof (Hcodec data Hdata) as Hdec.
    split; [by apply (storesRoutes_put n (autoRoute nodeID routes))|].
    destruct (GetRoutesByNode_put n (autoRoute nodeID routes) data Hs Hdec)
      as (current' & Hget & Hin).
    exists current'. split; [exact Hget|]. by eapply advertises_autoRoute.
Qed.

(** X14: when every requested route is already a destination of one of
    the node's routes, [ensurePeerRoutes] writes nothing and returns
    [false] and no error; this covers the empty request. *)
Theorem ensurePeerRoutes_noop (n : Store) (nodeID : string) (routes : list string)
    (current : list Route) :
  GetRoutesByNode n nodeID = Ok current ->
  advertises current routes ->
  ensurePeerRoutes Quote n nodeID routes = (n, (false, None)).
Proof.
  intros Hcur Hall. unfold ensurePeerRoutes. rewrite Hcur.
  by destruct (ensureRoutes_cases n nodeID routes current routes) as [[_ ->]|[Hno _]].
Qed.

(** X15: after [ensurePeerRoutes] has returned without error, every
    requested route is a destination of one of the node's routes, and
    the store is still a store of routes.  The returned [created] is
    [false] then, also when the call wrote the node's auto route: it is
    [true] only together with an error. *)
Theorem ensurePeerRoutes_advertises (n n' : Store) (nodeID : string)
    (routes : list string) (created : bool) :
  storesRoutes n ->
  (forall data, MarshalRoute (autoRoute nodeID routes) = Ok data ->
                UnmarshalRoute data = Ok (autoRoute nodeID routes)) ->
  ensurePeerRoutes Quote n nodeID routes = (n', (created, None)) ->
  created = false
  /\ storesRoutes n'
  /\ exists current', GetRoutesByNode n' nodeID = Ok current'
                      /\ advertises current' routes.
Proof. apply ensurePeerRoutes_post. Qed.

(** X16: [ensurePeerRoutes] is idempotent: a second call with the same
    node and routes after a successful one changes nothing. *)
Theorem ensurePeerRoutes_idempotent (n n' : Store) (nodeID : string)
    (routes : list string) (created : bool) :
  storesRoutes n ->
  (forall data, MarshalRoute (autoRoute nodeID routes) = Ok data ->
                UnmarshalRoute data = Ok (autoRoute nodeID routes)) ->
  ensurePeerRoutes Quote n nodeID routes = (n', (created, None)) ->
  ensurePeerRoutes Quote n' nodeID routes = (n', (false, None)).
Proof.
  intros Hs Hcodec Hrun.
  destruct (ensurePeerRoutes_post n n' nodeID routes created Hs Hcodec Hrun)
    as (_ & _ & current' & Hcur & Hall).
  unfold ensurePeerRoutes. rewrite Hcur.
  by destruct (ensureRoutes_cases n' nodeID routes current' routes) as [[_ ->]|[Hno _]].
Qed.

(** X17: when a requested route is not yet advertised by the node,
    [ensurePeerRoutes] files under the node's auto route exactly the
    requested routes: destinations that an earlier auto route of the
    node had and that are not requested again are gone. *)
Theorem ensurePeerRoutes_replaces_auto_route (n n' : Store) (nodeID : string)
    (routes : list string) (current : list Route) (created : bool) :
  GetRoutesByNode n nodeID = Ok current ->
  ~ advertises current routes ->
  (forall data, MarshalRoute (autoRoute nodeID routes) = Ok data ->
                UnmarshalRoute data = Ok (autoRoute nodeID routes)) ->
  ensurePeerRoutes Quote n nodeID routes = (n', (created, None)) ->
  GetRoute n' (nodeAutoRoute nodeID) = Ok (autoRoute nodeID routes).
Proof.
  intros Hcur Hnew Hcodec. unfold ensurePeerRoutes. rewrite Hcur.
  destruct (ensureRoutes_cases n nodeID routes current routes)
    as [[Hall _]|[_ ->]]; [done|].
  destruct (PutRoute n (autoRoute nodeID routes)) as [n1 [err|]] eqn:Hput; [done|].
  intros [= <- <-].
  apply PutRoute_cases in Hput as [(data & Hdata & -> & _)|[_ [e ?]]]; [|done].
  apply (GetRoute_put_eq n (autoRoute nodeID routes) data). by apply Hcodec.
Qed.

End WithCodec.

End MembershipFacts.

(** ** More on [FilterGraph] (src/pkg/meshdb/networking/networking.go) *)

Module FilterGraphMoreFacts.
Import GoBytes GoErr MeshStorage V1 Networking FilterGraphInvariants.
Import FilterGraphFacts.

Lemma rowOf_alter_shrinks (f : gmap string Edge -> gmap string Edge)
    (m : gmap string (gmap string Edge)) (v node peer : string) (e : Edge) :
  (forall row p e', f row !! p = Some e' -> row !! p = Some e') ->
  rowOf (alter f v m) node !! peer = Some e -> rowOf m node !! peer = Some e.
Proof.
  intros Hf. unfold rowOf. rewrite lookup_alter.
  case_decide as Hv; [subst|done].
  destruct (m !! node) as [row|]; simpl; [apply Hf|done].
Qed.

Lemma rowOf_alter_insert (m : gmap string (gmap string Edge))
    (v p node peer : string) (e0 e : Edge) :
  rowOf (alter (<[p := e0]>) v m) node !! peer = Some e ->
  (node = v /\ peer = p /\ e = e0) \/ rowOf m node !! peer = Some e.
Proof.
  unfold rowOf. rewrite lookup_alter.
  case_decide as Hv; [subst|by right].
  destruct (m !! node) as [row|]; simpl; [|by right].
  rewrite lookup_insert. case_decide as Hp; [subst|by right].
  intros [= <-]. by left.
Qed.

Lemma rowOf_insert_empty (m : gmap string (gmap string Edge))
    (id node peer : string) (e : Edge) :
  rowOf (<[id := ∅]> m) node !! peer = Some e ->
  node <> id /\ rowOf m node !! peer = Some e.
Proof.
  unfold rowOf. rewrite lookup_insert.
  case_decide as Hid; [subst; simpl; by rewrite lookup_empty|].
  intros Hrow. split; [congruence|done].
Qed.

Lemma delete_shrinks (k : string) (row : gmap string Edge) (p : string) (e : Edge) :
  delete k row !! p = Some e -> row !! p = Some e.
Proof. rewrite lookup_delete. by case_decide. Qed.

Section WithExternals.
Context `{Protojson} `{ACLEval} `{Netip}.
Variable n : Store.
Variable acls : ACLs.
Variable getter : NodeGetter.
Variable thisNode : MeshNode.
Variable full : gmap string (gmap string Edge).

Abbreviation this := (Id thisNode).
Abbreviation inv := (filterInv n acls getter thisNode full).

Lemma checkCidrs_accepted (dst : string) (cidrs : list string) :
  checkCidrs acls thisNode dst cidrs = Ok true ->
  forall cidr, cidr ∈ cidrs ->
    exists prefix, ParsePrefix cidr = Ok prefix
                   /\ Accept acls (routeAction thisNode dst cidr prefix) = true.
Proof.
  induction cidrs as [|c cidrs IH]; simpl; intros Hrun cidr Hin.
  - by apply elem_of_nil in Hin.
  - destruct (ParsePrefix c) as [prefix|] eqn:Hparse; [|done].
    destruct (Accept acls (routeAction thisNode dst c prefix)) eqn:Hacc; [|done].
    simpl in Hrun. apply elem_of_cons in Hin as [->|Hin]; [by exists prefix|by apply IH].
Qed.

Lemma checkRoutes_accepted (dst : string) (routes : list Route) :
  checkRoutes acls thisNode dst routes = Ok true ->
  forall route cidr, route ∈ routes -> cidr ∈ route_DestinationCidrs route ->
    exists prefix, ParsePrefix cidr = Ok prefix
                   /\ Accept acls (routeAction thisNode dst cidr prefix) = true.
Proof.
  induction routes as [|r routes IH]; simpl; intros Hrun route cidr Hin Hcidr.
  - by apply elem_of_nil in Hin.
  - destruct (checkCidrs acls thisNode dst (route_DestinationCidrs r)) as [[]|] eqn:Hr;
      [|done|done].
    apply elem_of_cons in Hin as [->|Hin]; [by eapply checkCidrs_accepted|by eapply IH].
Qed.

Lemma init_inv : inv (initMaps full this).
Proof.
  split; simpl.
  - intros node peer e. unfold rowOf at 1. rewrite lookup_singleton.
    case_decide as Hn; [subst; done|]. simpl. by rewrite lookup_empty.
  - by intros node peer e.
  - rewrite lookup_singleton. by rewrite decide_True by done.
  - intros k Hk. rewrite lookup_singleton. rewrite decide_False by done.
    by intros [? ?].
  - intros k peer e Hk. unfold rowOf. rewrite lookup_singleton.
    rewrite decide_False by done. simpl. by rewrite lookup_empty.
Qed.

Lemma delete_inv (st : maps) (id : string) :
  inv st -> inv (deleteFromThisRow st this id).
Proof.
  intros [Hf Hm Ht Hr He]. split; simpl.
  - intros node peer e Hrow. apply Hf.
    eapply rowOf_alter_shrinks; [|exact Hrow]. intros row p e'. apply delete_shrinks.
  - destruct (shared st); [|done]. intros node peer e Hrow. apply Hm.
    eapply rowOf_alter_shrinks; [|exact Hrow]. intros row p e'. apply delete_shrinks.
  - rewrite lookup_alter. rewrite decide_True by done. by apply fmap_is_Some.
  - intros k Hk. rewrite lookup_alter. rewrite decide_False by done. by apply Hr.
  - intros k peer e Hk Hrow. apply (He k peer e Hk).
    eapply rowOf_alter_shrinks; [|exact Hrow]. intros row p e'. apply delete_shrinks.
Qed.

Lemma makeRow_inv (st : maps) (id : string) :
  (id <> this -> permittedNode n acls getter thisNode id) ->
  inv st -> inv (makeRow st this id).
Proof.
  intros Hid [Hf Hm Ht Hr He]. split; simpl.
  - intros node peer e [_ Hrow]%rowOf_insert_empty. by apply Hf.
  - done.
  - rewrite lookup_insert. by case_decide.
  - intros k Hk. rewrite lookup_insert. case_decide as Hkid; [subst; by auto|by apply Hr].
  - intros k peer e Hk [_ Hrow]%rowOf_insert_empty. by apply (He k peer e).
Qed.

Lemma setEdge_inv (st : maps) (node peerID : string) (e : Edge) :
  rowOf full node !! peerID = Some e ->
  (peerID = this \/ permittedPeer n acls getter thisNode peerID) ->
  inv st -> inv (setEdge st this node peerID e).
Proof.
  intros Hedge Hpeer [Hf Hm Ht Hr He]. split; simpl.
  - intros v p e' [(-> & -> & ->)|Hrow]%rowOf_alter_insert; [done|by apply Hf].
  - destruct (shared st && String.eqb node this) eqn:Hs; [|done].
    apply andb_true_iff in Hs as [_ Hnode%String.eqb_eq]. subst node.
    intros v p e' [(-> & -> & ->)|Hrow]%rowOf_alter_insert; [done|by apply Hm].
  - rewrite lookup_alter. case_decide; [|done]. apply fmap_is_Some. by subst.
  - intros k Hk. rewrite lookup_alter.
    case_decide; [subst|by apply Hr]. intros Hsome%fmap_is_Some. by apply Hr.
  - intros k p e' Hk [(-> & -> & ->)|Hrow]%rowOf_alter_insert; [done|by apply (He k p e')].
Qed.

Lemma filterNode_inv (st st' : maps) (nodeID : string) :
  filterNode n acls getter thisNode st nodeID = Ok st' -> inv st -> inv st'.
Proof.
  unfold filterNode. intros Hrun Hst.
  destruct (String.eqb nodeID this); [by injection Hrun as <-|].
  destruct (Get getter nodeID) as [node|] eqn:Hget; [|done].
  destruct (AllowNodesToCommunicate acls thisNode node) eqn:Hallow; simpl in Hrun;
    [|injection Hrun as <-; by apply delete_inv].
  destruct (GetRoutesByNode n (Id node)) as [routes|] eqn:Hroutes; [|done].
  destruct (checkRoutes acls thisNode (Id node) routes) as [[]|] eqn:Hcheck; [| |done];
    injection Hrun as <-.
  - apply makeRow_inv; [|done]. intros _. exists nodeID, node.
    split; [done|]. split; [done|]. split; [done|].
    exists routes. split; [done|]. by apply checkRoutes_accepted.
  - by apply delete_inv.
Qed.

Lemma filterNodes_inv (nodeIDs : list string) (st st' : maps) :
  filterNodes n acls getter thisNode st nodeIDs = Ok st' -> inv st -> inv st'.
Proof.
  revert st. induction nodeIDs as [|nodeID rest IH]; simpl; intros st Hrun Hst.
  - by injection Hrun as <-.
  - destruct (filterNode n acls getter thisNode st nodeID) as [st1|] eqn:Hone; [|done].
    eapply IH; [exact Hrun|]. by eapply filterNode_inv.
Qed.

Lemma filterPeer_inv (st st' : maps) (node peerID : string) (e : Edge) :
  rowOf full node !! peerID = Some e ->
  filterPeer n acls getter thisNode node st peerID e = Ok st' -> inv st -> inv st'.
Proof.
  unfold filterPeer. intros Hedge Hrun Hst.
  destruct (String.eqb_spec peerID this) as [Heq|Hne].
  { injection Hrun as <-. apply setEdge_inv; [done|by left|done]. }
  destruct (Get getter peerID) as [peer|] eqn:Hget; [|done].
  destruct (AllowNodesToCommunicate acls thisNode peer) eqn:Hallow; simpl in Hrun;
    [|by injection Hrun as <-].
  destruct (GetRoutesByNode n peerID) as [routes|] eqn:Hroutes; [|done].
  destruct (checkRoutes acls thisNode peerID routes) as [[]|] eqn:Hcheck; [| |done];
    injection Hrun as <-; [|done].
  apply setEdge_inv; [done| |done]. right. exists peer.
  split; [done|]. split; [done|].
  exists routes. split; [done|]. by apply checkRoutes_accepted.
Qed.

Lemma filterPeers_inv (edges : list (string * Edge)) (st st' : maps) (node : string) :
  (forall p e, (p, e) ∈ edges -> rowOf full node !! p = Some e) ->
  filterPeers n acls getter thisNode node st edges = Ok st' -> inv st -> inv st'.
Proof.
  revert st. induction edges as [|[p e] rest IH]; simpl; intros st Hedges Hrun Hst.
  - by injection Hrun as <-.
  - destruct (filterPeer n acls getter thisNode node st p e) as [st1|] eqn:Hone; [|done].
    eapply IH; [|exact Hrun|].
    + intros p' e' Hin. apply Hedges. by right.
    + eapply filterPeer_inv; [|exact Hone|exact Hst]. apply Hedges. by left.
Qed.

Lemma filterRows_inv (nodes : list string) (st st' : maps) :
  filterRows n acls getter thisNode st nodes = Ok st' -> inv st -> inv st'.
Proof.
  revert st. induction nodes as [|node rest IH]; simpl; intros st Hrun Hst.
  - by injection Hrun as <-.
  - destruct (fullMap st !! node) as [edges|] eqn:Hrow; [|by eapply IH].
    destruct (filterPeers n acls getter thisNode node st (map_to_list edges))
      as [st1|] eqn:Hone; [|done].
    eapply IH; [exact Hrun|].
    eapply filterPeers_inv; [|exact Hone|exact Hst].
    intros p e Hin%elem_of_map_to_list.
    apply (fi_full _ _ _ _ _ _ Hst). unfold rowOf. by rewrite Hrow.
Qed.

Lemma FilterGraph_inv (peerGraph : PeerGraph)
    (filteredMap : gmap string (gmap string Edge)) (acls0 : ACLs) :
  ListNetworkACLs n = (acls0, None) -> Expand n acls0 = Ok acls ->
  AdjacencyMapOf peerGraph = Ok full ->
  FilterGraph n getter peerGraph thisNode = Ok filteredMap ->
  exists st, filtered st = filteredMap /\ inv st.
Proof.
  intros Hacls Hexp Hfull. unfold FilterGraph. rewrite Hacls, Hexp, Hfull.
  destruct (filterNodes n acls getter thisNode (initMaps full this) (map_to_list full).*1)
    as [st1|] eqn:Hloop1; [|done].
  simpl.
  destruct (filterRows n acls getter thisNode st1 (map_to_list (filtered st1)).*1)
    as [st2|] eqn:Hloop2; [|done].
  simpl. intros [= <-]. exists st2. split; [done|].
  eapply filterRows_inv; [exact Hloop2|].
  eapply filterNodes_inv; [exact Hloop1|]. apply init_inv.
Qed.

(** X18: [FilterGraph] adds nothing: every edge of the map it returns
    is an edge, with the same value, of the adjacency map of the peer
    graph. *)
Theorem FilterGraph_is_subgraph (peerGraph : PeerGraph)
    (filteredMap : gmap string (gmap string Edge)) (acls0 : ACLs) :
  ListNetworkACLs n = (acls0, None) -> Expand n acls0 = Ok acls ->
  AdjacencyMapOf peerGraph = Ok full ->
  FilterGraph n getter peerGraph thisNode = Ok filteredMap ->
  subgraphOf filteredMap full.
Proof.
  intros Hacls Hexp Hfull Hrun.
  destruct (FilterGraph_inv _ _ _ Hacls Hexp Hfull Hrun) as (st & <- & Hst).
  apply (fi_filtered _ _ _ _ _ _ Hst).
Qed.

(** X19: whatever [FilterGraph] keeps passed the ACLs: every row other
    than the one of [thisNode] belongs to a node that may communicate
    with [thisNode] and whose routes are all accepted, and every entry
    of such a row is [thisNode] or a peer of which the same holds. *)
Theorem FilterGraph_keeps_permitted_only (peerGraph : PeerGraph)
    (filteredMap : gmap string (gmap string Edge)) (acls0 : ACLs) :
  ListNetworkACLs n = (acls0, None) -> Expand n acls0 = Ok acls ->
  AdjacencyMapOf peerGraph = Ok full ->
  FilterGraph n getter peerGraph thisNode = Ok filteredMap ->
  (forall k, k <> Id thisNode -> is_Some (filteredMap !! k) ->
     permittedNode n acls getter thisNode k)
  /\ (forall k peer, k <> Id thisNode -> is_Some (rowOf filteredMap k !! peer) ->
        peer = Id thisNode \/ permittedPeer n acls getter thisNode peer).
Proof.
  intros Hacls Hexp Hfull Hrun.
  destruct (FilterGraph_inv _ _ _ Hacls Hexp Hfull Hrun) as (st & <- & Hst).
  split.
  - apply (fi_rows _ _ _ _ _ _ Hst).
  - intros k peer Hk [e He]. by apply (fi_entries _ _ _ _ _ _ Hst k peer e).
Qed.

(** X20: the map [FilterGraph] returns always has a row for
    [thisNode]; when the ACLs let no node communicate with [thisNode]
    it is the only row, so the result is not the empty map. *)
Theorem FilterGraph_row_of_this_node (peerGraph : PeerGraph)
    (filteredMap : gmap string (gmap string Edge)) (acls0 : ACLs) :
  ListNetworkACLs n = (acls0, None) -> Expand n acls0 = Ok acls ->
  AdjacencyMapOf peerGraph = Ok full ->
  FilterGraph n getter peerGraph thisNode = Ok filteredMap ->
  is_Some (filteredMap !! Id thisNode)
  /\ ((forall node, AllowNodesToCommunicate acls thisNode node = false) ->
      forall k, is_Some (filteredMap !! k) <-> k = Id thisNode).
Proof.
  intros Hacls Hexp Hfull Hrun.
  destruct (FilterGraph_inv _ _ _ Hacls Hexp Hfull Hrun) as (st & <- & Hst).
  pose proof (fi_this _ _ _ _ _ _ Hst) as Hthis.
  split; [exact Hthis|].
  intros Hdeny k. split; [|by intros ->].
  intros Hk. destruct (decide (k = this)) as [|Hne]; [done|].
  destruct (fi_rows _ _ _ _ _ _ Hst k Hne Hk) as (nodeID & node & _ & _ & Hallow & _).
  by rewrite Hdeny in Hallow.
Qed.

(** X21: when the ACLs permit all communication from [thisNode] and
    every stored route has CIDRs that parse, [FilterGraph] returns the
    adjacency map of the peer graph unchanged.  [thisNode] has a row in
    that map and the getter resolves every node of it. *)
Theorem FilterGraph_permissive_is_identity (peerGraph : PeerGraph) (acls0 : ACLs) :
  permits n acls thisNode ->
  ListNetworkACLs n = (acls0, None) -> Expand n acls0 = Ok acls ->
  AdjacencyMapOf peerGraph = Ok full ->
  is_Some (full !! Id thisNode) -> getterOK getter full ->
  FilterGraph n getter peerGraph thisNode = Ok full.
Proof. intros Hpermits. by apply FilterGraph_permitted. Qed.

End WithExternals.

End FilterGraphMoreFacts.

(** ** More on the WireGuard peers of a node (src/unnamed/part_008) *)

Module SvcutilMoreFacts.
Import GoBytes GoErr V1 Networking Svcutil SvcutilVocabulary.
Import SvcutilFacts.

Lemma appendMissing_extends (allowedIPs edgeIPs : list string) :
  exists rest, appendMissing allowedIPs edgeIPs = allowedIPs ++ rest
               /\ (NoDup allowedIPs -> NoDup (allowedIPs ++ rest)).
Proof.
  revert allowedIPs. induction edgeIPs as [|ip edgeIPs IH]; simpl; intros allowedIPs.
  - exists []. by rewrite app_nil_r.
  - destruct (contains allowedIPs ip) eqn:Hc; simpl; [apply IH|].
    destruct (IH (allowedIPs ++ [ip])) as (rest & -> & Hnd).
    exists (ip :: rest).
    assert (Heq : (allowedIPs ++ [ip]) ++ rest = allowedIPs ++ ip :: rest)
      by (by rewrite <- app_assoc).
    rewrite <- Heq. split; [done|].
    intros Hl. apply Hnd.
    apply NoDup_app. split; [done|]. split; [|apply NoDup_singleton].
    intros x Hx ->%list_elem_of_singleton.
    apply contains_spec in Hx. congruence.
Qed.

Section WithGraph.
Variable graph : Graph.
Variable adjacencyMap : gmap string (gmap string Edge).
Variable thisPeer : string.

Lemma peersFor_ids (adjacents : list string) (out peers : list WireGuardPeer) :
  graphOK graph ->
  peersFor graph adjacencyMap thisPeer adjacents out = Done peers ->
  wg_Id <$> peers = (wg_Id <$> out) ++ adjacents.
Proof.
  intros Hg. revert out. induction adjacents as [|adjacent rest IH]; simpl; intros out.
  - intros [= <-]. by rewrite app_nil_r.
  - destruct (peerFor graph adjacencyMap thisPeer adjacent) as [p| |] eqn:Hp; [|done|done].
    intros Hrun. rewrite (IH _ Hrun), fmap_app, <- app_assoc. simpl.
    apply peerFor_done in Hp as (node & Hv & -> & _). by rewrite (Hg _ _ Hv).
Qed.

Lemma peerFor_own_first (adjacent : string) (p : WireGuardPeer) :
  peerFor graph adjacencyMap thisPeer adjacent = Done p ->
  exists node rest,
    Vertex graph adjacent = Ok node
    /\ wg_AllowedIps p = ownAddresses node ++ rest
    /\ (NoDup (ownAddresses node) -> NoDup (wg_AllowedIps p)).
Proof.
  unfold peerFor. destruct (Vertex graph adjacent) as [node|] eqn:Hv; [|done].
  unfold recurseAllowedIPs.
  destruct (recurseEdgeAllowedIPs graph adjacencyMap thisPeer node) as [edgeIPs| |];
    [|done|done].
  intros [= <-]. simpl.
  destruct (appendMissing_extends (ownAddresses node) edgeIPs) as (rest & Heq & Hnd).
  exists node, rest. unfold ownAddresses in *. rewrite Heq. done.
Qed.

Lemma peerFor_sources (adjacent : string) (p : WireGuardPeer) (a : string) :
  peerFor graph adjacencyMap thisPeer adjacent = Done p ->
  a ∈ wg_AllowedIps p ->
  exists node, Vertex graph adjacent = Ok node
    /\ (hasAddr node a
        \/ exists t n, eligible adjacencyMap thisPeer t
                       /\ Vertex graph t = Ok n /\ hasAddr n a).
Proof.
  intros (node & Hv & _ & _ & Hrec)%peerFor_done Ha.
  exists node. split; [done|].
  apply recurseAllowedIPs_done in Hrec as (edgeIPs & visited & Hrun & Hmem).
  apply Hmem in Ha as [Ha|Ha]; [by left|right].
  destruct (recurseEdge_ok graph adjacencyMap thisPeer _ _ _ _ _ Hrun) as [Hok _].
  destruct (vo_sound _ _ _ _ _ _ _ Hok a Ha) as [Hnil|(t & n & Hel & _ & Ht & Hn)].
  - by apply elem_of_nil in Hnil.
  - by exists t, n.
Qed.

End WithGraph.

(** X22: the allowed IPs of each returned peer begin with the peer's
    own valid private addresses, IPv4 first, and hold no address twice
    unless the peer's two own addresses are the same text. *)
Theorem allowedIPs_own_first_no_duplicates
    (graph : Graph) (adjacencyMap : gmap string (gmap string Edge)) (peerID : string)
    (peers : list WireGuardPeer) (p : WireGuardPeer) :
  WireGuardPeersFor graph (Ok adjacencyMap) peerID = Done peers ->
  p ∈ peers ->
  exists adjacent node rest,
    is_Some (rowOf adjacencyMap peerID !! adjacent)
    /\ Vertex graph adjacent = Ok node
    /\ wg_AllowedIps p = ownAddresses node ++ rest
    /\ (NoDup (ownAddresses node) -> NoDup (wg_AllowedIps p)).
Proof.
  unfold WireGuardPeersFor. intros Hrun Hp.
  apply peersFor_done in Hrun as (Hfrom & _ & _).
  destruct (Hfrom p Hp) as [Hnil|(adjacent & Hadj & Hone)]; [by apply elem_of_nil in Hnil|].
  destruct (peerFor_own_first _ _ _ _ _ Hone) as (node & rest & Hv & Heq & Hnd).
  exists adjacent, node, rest. split; [|done].
  by apply keys_of_row in Hadj.
Qed.

(** X23: on a graph whose vertices carry their ids, the returned list
    has exactly one peer for each key of the row of the node in the
    filtered map: the IDs are those keys, none is repeated, and the
    length is the size of the row. *)
Theorem WireGuardPeersFor_one_peer_per_neighbour
    (graph : Graph) (adjacencyMap : gmap string (gmap string Edge)) (peerID : string)
    (peers : list WireGuardPeer) :
  graphOK graph ->
  WireGuardPeersFor graph (Ok adjacencyMap) peerID = Done peers ->
  NoDup (wg_Id <$> peers)
  /\ length peers = size (rowOf adjacencyMap peerID)
  /\ (forall id, id ∈ wg_Id <$> peers <-> is_Some (rowOf adjacencyMap peerID !! id)).
Proof.
  unfold WireGuardPeersFor. intros Hg Hrun.
  apply (peersFor_ids _ _ _ _ _ _ Hg) in Hrun. simpl in Hrun.
  fold (rowOf adjacencyMap peerID) in Hrun.
  split; [|split].
  - rewrite Hrun. apply NoDup_fst_map_to_list.
  - rewrite <- (length_fmap wg_Id), Hrun, length_fmap. by rewrite length_map_to_list.
  - intros id. rewrite Hrun. apply keys_of_row.
Qed.

(** X24: [WireGuardPeersFor] returns all peers or none: a failure of
    [FilterGraph] is handed on wrapped, a neighbour without a vertex in
    the graph makes the call fail, and a node without a row in the
    filtered map gets the empty list. *)
Theorem WireGuardPeersFor_all_or_nothing
    (graph : Graph) (adjacencyMap : gmap string (gmap string Edge)) (peerID : string) :
  (forall err, WireGuardPeersFor graph (Err err) peerID
               = Failed (Wrap "filter adjacency map" err))
  /\ (forall adjacent err,
        is_Some (rowOf adjacencyMap peerID !! adjacent) ->
        Vertex graph adjacent = Err err ->
        exists err', WireGuardPeersFor graph (Ok adjacencyMap) peerID = Failed err')
  /\ (adjacencyMap !! peerID = None ->
      WireGuardPeersFor graph (Ok adjacencyMap) peerID = Done []).
Proof.
  split; [done|]. split.
  - intros adjacent err Hadj Hv.
    pose proof (WireGuardPeersFor_returns graph adjacencyMap peerID) as Hret.
    destruct (WireGuardPeersFor graph (Ok adjacencyMap) peerID) as [peers|err'|] eqn:Hrun;
      [|by exists err'|done].
    exfalso. unfold WireGuardPeersFor in Hrun.
    apply peersFor_done in Hrun as (_ & _ & Hall).
    destruct (Hall adjacent) as (p & _ & Hp); [by apply keys_of_row|].
    apply peerFor_done in Hp as (node & Hnode & _). congruence.
  - intros Hrow. unfold WireGuardPeersFor. rewrite Hrow. simpl.
    by rewrite map_to_list_empty.
Qed.

(** X25: when no address belongs to two vertices and the vertices
    carry their ids, the allowed IPs of a returned peer hold no address
    of another direct neighbour of the node. *)
Theorem allowedIPs_exclude_other_neighbours
    (graph : Graph) (adjacencyMap : gmap string (gmap string Edge)) (peerID : string)
    (peers : list WireGuardPeer) (p : WireGuardPeer)
    (other : string) (otherNode : Node) (a : string) :
  graphOK graph -> addressesDistinct graph ->
  WireGuardPeersFor graph (Ok adjacencyMap) peerID = Done peers ->
  p ∈ peers ->
  is_Some (rowOf adjacencyMap peerID !! other) ->
  wg_Id p <> other ->
  Vertex graph other = Ok otherNode ->
  hasAddr otherNode a ->
  a ∉ wg_AllowedIps p.
Proof.
  unfold WireGuardPeersFor. intros Hg Hdist Hrun Hp Hother Hne Hv Haddr Ha.
  apply peersFor_done in Hrun as (Hfrom & _ & _).
  destruct (Hfrom p Hp) as [Hnil|(adjacent & Hadj & Hone)]; [by apply elem_of_nil in Hnil|].
  destruct (peerFor_sources _ _ _ _ _ _ Hone Ha) as (node & Hnode & Hsrc).
  apply peerFor_done in Hone as (node' & Hnode' & Hid & _).
  assert (node' = node) as -> by congruence.
  destruct Hsrc as [Hown|(t & n & [_ Hel] & Ht & Hn)].
  - apply Hne. rewrite Hid, (Hg _ _ Hnode).
    by apply (Hdist adjacent other node otherNode a).
  - assert (t = other) as -> by by apply (Hdist t other n otherNode a).
    destruct Hother as [e He]. congruence.
Qed.

End SvcutilMoreFacts.

Module MembershipExamples.
Import GoBytes GoErr MeshStorage V1 Networking NetworkRoutes Membership.
Import Fixtures StoreFixtures MeshFixtures.
Import StoreOpsFacts RouteFacts MembershipFacts StoreOpsExamples.

Lemma ensurePeerRoutes_noop_witness :
  @GetRoutesByNode lineCodec twoRoutes "n1" = Ok [route1]
  /\ advertises [route1] ["10.90.0.0/16"]
  /\ @ensurePeerRoutes lineCodec quote twoRoutes "n1" ["10.90.0.0/16"]
     = (twoRoutes, (false, None)).
Proof.
  assert (Hcur : @GetRoutesByNode lineCodec twoRoutes "n1" = Ok [route1])
    by (vm_compute; reflexivity).
  assert (Hadv : advertises [route1] ["10.90.0.0/16"]).
  { intros route ->%list_elem_of_singleton. exists route1. split; [by left|].
    simpl. right. by left. }
  split; [exact Hcur|]. split; [exact Hadv|].
  exact (@ensurePeerRoutes_noop lineCodec quote twoRoutes "n1" ["10.90.0.0/16"]
           [route1] Hcur Hadv).
Defined.

Lemma autoRoute_roundtrip (data : string) :
  @MarshalRoute lineCodec (autoRoute "n1" requested) = Ok data ->
  @UnmarshalRoute lineCodec data = Ok (autoRoute "n1" requested).
Proof. intros [= <-]. reflexivity. Qed.

Lemma ensurePeerRoutes_run :
  @ensurePeerRoutes lineCodec quote oneRoute "n1" requested
  = (afterEnsure, (false, None)).
Proof. vm_compute. reflexivity. Qed.

Lemma ensurePeerRoutes_advertises_witness :
  @storesRoutes lineCodec oneRoute
  /\ @ensurePeerRoutes lineCodec quote oneRoute "n1" requested
     = (afterEnsure, (false, None))
  /\ @storesRoutes lineCodec afterEnsure
  /\ exists current', @GetRoutesByNode lineCodec afterEnsure "n1" = Ok current'
                      /\ advertises current' requested.
Proof.
  split; [exact oneRoute_stores|]. split; [exact ensurePeerRoutes_run|].
  exact (proj2 (@ensurePeerRoutes_advertises lineCodec quote oneRoute afterEnsure "n1"
                  requested false oneRoute_stores autoRoute_roundtrip
                  ensurePeerRoutes_run)).
Defined.

Lemma ensurePeerRoutes_idempotent_witness :
  @ensurePeerRoutes lineCodec quote afterEnsure "n1" requested
  = (afterEnsure, (false, None)).
Proof.
  exact (@ensurePeerRoutes_idempotent lineCodec quote oneRoute afterEnsure "n1"
           requested false oneRoute_stores autoRoute_roundtrip ensurePeerRoutes_run).
Defined.

Lemma ensurePeerRoutes_replaces_auto_route_witness :
  @GetRoutesByNode lineCodec oneRoute "n1" = Ok []
  /\ ~ advertises [] requested
  /\ @GetRoute lineCodec afterEnsure "n1-auto" = Ok (autoRoute "n1" requested).
Proof.
  assert (Hcur : @GetRoutesByNode lineCodec oneRoute "n1" = Ok [])
    by (vm_compute; reflexivity).
  assert (Hnew : ~ advertises [] requested).
  { intros Hall. destruct (Hall "10.0.0.0/24") as (r & Hr & _); [by left|].
    by apply elem_of_nil in Hr. }
  split; [exact Hcur|]. split; [exact Hnew|].
  exact (@ensurePeerRoutes_replaces_auto_route lineCodec quote oneRoute afterEnsure "n1"
           requested [] false Hcur Hnew autoRoute_roundtrip ensurePeerRoutes_run).
Defined.

End MembershipExamples.

Module FilterGraphExamples.
Import GoBytes GoErr MeshStorage V1 Networking FilterGraphInvariants Svcutil.
Import Fixtures LinearMesh MeshFixtures.
Import SvcutilFacts FilterGraphFacts ReachabilityFacts FilterGraphMoreFacts.

Lemma mesh_no_acls : @ListNetworkACLs lineCodec meshStore = ([], None).
Proof. vm_compute. reflexivity. Qed.

Lemma FilterGraph_is_subgraph_witness :
  meshFilteredDeny = Ok meshEdgesDeny /\ subgraphOf meshEdgesDeny meshEdges.
Proof.
  split; [exact meshFilteredDeny_eq|].
  exact (@FilterGraph_is_subgraph lineCodec denyRoute colonNetip meshStore []
           meshGetter (meshNodeOf node2) meshEdges meshPeerGraph meshEdgesDeny []
           mesh_no_acls eq_refl eq_refl meshFilteredDeny_eq).
Defined.

Lemma FilterGraph_keeps_permitted_only_witness :
  (forall k, k <> "n2" -> is_Some (meshEdgesDeny !! k) ->
     @permittedNode lineCodec denyRoute colonNetip meshStore [] meshGetter
       (meshNodeOf node2) k)
  /\ (forall k peer, k <> "n2" -> is_Some (rowOf meshEdgesDeny k !! peer) ->
        peer = "n2"
        \/ @permittedPeer lineCodec denyRoute colonNetip meshStore [] meshGetter
             (meshNodeOf node2) peer).
Proof.
  exact (@FilterGraph_keeps_permitted_only lineCodec denyRoute colonNetip meshStore []
           meshGetter (meshNodeOf node2) meshEdges meshPeerGraph meshEdgesDeny []
           mesh_no_acls eq_refl eq_refl meshFilteredDeny_eq).
Defined.

Lemma meshFilteredDenyAll_eq :
  @FilterGraph lineCodec denyAll colonNetip meshStore meshGetter meshPeerGraph
    (meshNodeOf node2) = Ok meshEdgesDenyAll.
Proof. vm_compute. reflexivity. Qed.

Lemma FilterGraph_row_of_this_node_witness :
  is_Some (meshEdgesDenyAll !! "n2")
  /\ (forall k, is_Some (meshEdgesDenyAll !! k) <-> k = "n2").
Proof.
  destruct (@FilterGraph_row_of_this_node lineCodec denyAll colonNetip meshStore []
              meshGetter (meshNodeOf node2) meshEdges meshPeerGraph meshEdgesDenyAll []
              mesh_no_acls eq_refl eq_refl meshFilteredDenyAll_eq) as [Hthis Honly].
  split; [exact Hthis|]. apply Honly. intros node. reflexivity.
Defined.

Lemma FilterGraph_permissive_is_identity_witness :
  @FilterGraph lineCodec permissive colonNetip meshStore meshGetter meshPeerGraph
    (meshNodeOf node1) = Ok meshEdges.
Proof.
  apply (@FilterGraph_permissive_is_identity lineCodec permissive colonNetip meshStore []
           meshGetter (meshNodeOf node1) meshEdges meshPeerGraph []).
  - exact mesh_permits.
  - exact mesh_no_acls.
  - reflexivity.
  - reflexivity.
  - eexists. vm_compute. reflexivity.
  - exact mesh_getterOK.
Defined.

End FilterGraphExamples.

Module SvcutilExamples.
Import GoBytes GoErr V1 Networking Svcutil SvcutilVocabulary.
Import Fixtures LinearMesh MeshFixtures.
Import SvcutilFacts ReachabilityFacts SvcutilMoreFacts.

Lemma mesh_peers_of_n2 :
  WireGuardPeersFor meshGraph (Ok meshEdges) "n2" = Done [peer3; peer1].
Proof. vm_compute. reflexivity. Qed.

Lemma peer1_of_n2 : peer1 ∈ [peer3; peer1].
Proof. right. by left. Qed.

Lemma allowedIPs_own_first_no_duplicates_witness :
  exists adjacent node rest,
    is_Some (rowOf meshEdges "n2" !! adjacent)
    /\ Vertex meshGraph adjacent = Ok node
    /\ wg_AllowedIps peer1 = ownAddresses node ++ rest
    /\ (NoDup (ownAddresses node) -> NoDup (wg_AllowedIps peer1)).
Proof.
  exact (allowedIPs_own_first_no_duplicates meshGraph meshEdges "n2" [peer3; peer1] peer1
           mesh_peers_of_n2 peer1_of_n2).
Defined.

Lemma WireGuardPeersFor_one_peer_per_neighbour_witness :
  NoDup (wg_Id <$> [peer3; peer1])
  /\ length [peer3; peer1] = size (rowOf meshEdges "n2")
  /\ (forall id, id ∈ wg_Id <$> [peer3; peer1] <-> is_Some (rowOf meshEdges "n2" !! id)).
Proof.
  exact (WireGuardPeersFor_one_peer_per_neighbour meshGraph meshEdges "n2" [peer3; peer1]
           meshGraph_ok mesh_peers_of_n2).
Defined.

Lemma WireGuardPeersFor_all_or_nothing_witness :
  (exists err', WireGuardPeersFor meshGraph (Ok danglingEdges) "n1" = Failed err')
  /\ WireGuardPeersFor meshGraph (Ok meshEdges) "n9" = Done [].
Proof.
  split.
  - apply (proj1 (proj2 (WireGuardPeersFor_all_or_nothing meshGraph danglingEdges "n1"))
             "n4" (Errorf "vertex not found")).
    + eexists. vm_compute. reflexivity.
    + reflexivity.
  - apply (proj2 (proj2 (WireGuardPeersFor_all_or_nothing meshGraph meshEdges "n9"))).
    vm_compute. reflexivity.
Defined.

Lemma allowedIPs_exclude_other_neighbours_witness :
  "172.16.0.3/32" ∉ wg_AllowedIps peer1.
Proof.
  apply (allowedIPs_exclude_other_neighbours meshGraph meshEdges "n2" [peer3; peer1]
           peer1 "n3" node3 "172.16.0.3/32").
  - exact meshGraph_ok.
  - exact mesh_addressesDistinct.
  - exact mesh_peers_of_n2.
  - exact peer1_of_n2.
  - eexists. vm_compute. reflexivity.
  - discriminate.
  - reflexivity.
  - left. reflexivity.
Defined.

End SvcutilExamples.

(** ** Resolving addresses and the bootstrap configuration
      (src/pkg/raft/raft.go) *)

Module RaftNodeFacts.
Import GoErr RaftNode.

Lemma resolveLoop_resolved (net : Network) (remaining tries : nat) (addr : string) :
  resolveLoop net remaining tries = Resolved (Some addr) <->
  exists k, k < remaining /\ attempt net (tries + k) = Ok addr
    /\ forall j, j < k ->
         (exists e, attempt net (tries + j) = Err e) /\ ctxDone net (tries + j) = None.
Proof.
  revert tries. induction remaining as [|remaining IH]; intros tries.
  - simpl. split; [done|]. intros (k & Hk & _). lia.
  - cbn [resolveLoop]. destruct (attempt net tries) as [a|e] eqn:Hfirst.
    + split.
      * intros [= ->]. exists 0. rewrite Nat.add_0_r.
        split; [lia|]. split; [done|]. intros j Hj. lia.
      * intros (k & Hk & Hok & Hbefore). destruct k as [|k].
        -- rewrite Nat.add_0_r in Hok. congruence.
        -- destruct (Hbefore 0) as [[e He] _]; [lia|].
           rewrite Nat.add_0_r in He. congruence.
    + destruct remaining as [|remaining'].
      * split; [done|]. intros (k & Hk & Hok & _).
        assert (k = 0) as -> by lia. rewrite Nat.add_0_r in Hok. congruence.
      * destruct (ctxDone net tries) as [ctxErr|] eqn:Hctx.
        -- split; [done|]. intros (k & Hk & Hok & Hbefore). destruct k as [|k].
           ++ rewrite Nat.add_0_r in Hok. congruence.
           ++ destruct (Hbefore 0) as [_ Hnone]; [lia|].
              rewrite Nat.add_0_r in Hnone. congruence.
        -- rewrite IH. split.
           ++ intros (k & Hk & Hok & Hbefore). exists (S k).
              split; [lia|]. rewrite Nat.add_succ_r. split; [done|].
              intros [|j] Hj.
              ** rewrite Nat.add_0_r. split; [by exists e|done].
              ** rewrite Nat.add_succ_r. apply Hbefore. lia.
           ++ intros (k & Hk & Hok & Hbefore). destruct k as [|k].
              ** rewrite Nat.add_0_r in Hok. congruence.
              ** exists k. split; [lia|]. rewrite Nat.add_succ_r in Hok.
                 split; [done|]. intros j Hj.
                 specialize (Hbefore (S j)). rewrite Nat.add_succ_r in Hbefore.
                 apply Hbefore. lia.
Qed.

Lemma resolveLoop_exhausted (net : Network) (remaining tries : nat) :
  (forall j, j < S remaining -> exists e, attempt net (tries + j) = Err e) ->
  (forall j, ctxDone net j = None) ->
  exists e, attempt net (tries + remaining) = Err e
            /\ resolveLoop net (S remaining) tries
               = ResolveError (Wrap "resolve tcp address" e).
Proof.
  revert tries. induction remaining as [|remaining IH]; intros tries Hfail Hctx.
  - destruct (Hfail 0) as [e He]; [lia|]. exists e. split; [done|].
    rewrite Nat.add_0_r in He. cbn [resolveLoop]. by rewrite He.
  - destruct (Hfail 0) as [e0 He0]; [lia|]. rewrite Nat.add_0_r in He0.
    destruct (IH (S tries)) as (e & He & Hrun); [|done|].
    { intros j Hj. destruct (Hfail (S j)) as [e' He']; [lia|].
      exists e'. by rewrite Nat.add_succ_r in He'. }
    exists e. rewrite Nat.add_succ_r. split; [done|].
    change (resolveLoop net (S (S remaining)) tries)
      with (match attempt net tries with
            | Ok addr => Resolved (Some addr)
            | Err e1 =>
                match ctxDone net tries with
                | Some ctxErr => ResolveCancelled (Wrap "resolve tcp address" e1) ctxErr
                | None => resolveLoop net (S remaining) (S tries)
                end
            end).
    by rewrite He0, Hctx.
Qed.

(** X26: [resolveTCPAddr] returns the address of the first resolution
    that succeeds among at most [maxRetries] attempts, provided the
    context is not done in a wait before it; when all attempts fail it
    returns the wrapped error of the last one; and with [maxRetries] of
    zero or less it makes no attempt and returns neither an address nor
    an error. *)
Theorem resolveTCPAddr_retries (net : Network) (maxRetries : Z) :
  (forall addr,
      resolveTCPAddr net maxRetries = Resolved (Some addr) <->
      exists k, (Z.of_nat k < maxRetries)%Z /\ attempt net k = Ok addr
        /\ forall j, j < k ->
             (exists e, attempt net j = Err e) /\ ctxDone net j = None)
  /\ ((0 < maxRetries)%Z ->
      (forall j, (Z.of_nat j < maxRetries)%Z -> exists e, attempt net j = Err e) ->
      (forall j, ctxDone net j = None) ->
      exists e, attempt net (Z.to_nat maxRetries - 1) = Err e
                /\ resolveTCPAddr net maxRetries
                   = ResolveError (Wrap "resolve tcp address" e))
  /\ ((maxRetries <= 0)%Z -> resolveTCPAddr net maxRetries = Resolved None).
Proof.
  unfold resolveTCPAddr. split; [|split].
  - intros addr. rewrite resolveLoop_resolved. simpl.
    split; intros (k & Hk & Hrest); exists k; (split; [lia|exact Hrest]).
  - intros Hpos Hfail Hctx.
    destruct (Z.to_nat maxRetries) as [|remaining] eqn:Hn; [lia|].
    destruct (resolveLoop_exhausted net remaining 0) as (e & He & Hrun); [|done|].
    { intros j Hj. apply Hfail. lia. }
    exists e. simpl in He. replace (S remaining - 1) with remaining by lia. by split.
  - intros Hle. by replace (Z.to_nat maxRetries) with 0 by lia.
Qed.

Lemma resolveTCPAddr_retries_witness :
  resolveTCPAddr flakyNetwork 3 = Resolved (Some "10.0.0.1:9443")
  /\ (exists e, attempt flakyNetwork (Z.to_nat 2 - 1) = Err e
                /\ resolveTCPAddr flakyNetwork 2
                   = ResolveError (Wrap "resolve tcp address" e))
  /\ resolveTCPAddr flakyNetwork 0 = Resolved None.
Proof.
  split; [|split].
  - apply (proj1 (resolveTCPAddr_retries flakyNetwork 3)). exists 2.
    split; [lia|]. split; [reflexivity|].
    intros [|[|j]] Hj; [| |lia]; (split; [by eexists|done]).
  - apply (proj1 (proj2 (resolveTCPAddr_retries flakyNetwork 2))).
    + lia.
    + intros [|[|j]] Hj; [| |lia]; by eexists.
    + done.
  - apply (proj2 (proj2 (resolveTCPAddr_retries flakyNetwork 0))). lia.
Defined.

Section BootstrapFacts.
Variable resolve : string -> result string.
Variable Itoa : Z -> string.

Lemma appendServers_spec (self : string) (entries : list (string * string))
    (servers out : list Server) :
  appendServers resolve self entries servers = Ok out ->
  srv_ID <$> out = (srv_ID <$> servers) ++ filter (fun id => id <> self) entries.*1
  /\ (Forall isVoter servers -> Forall isVoter out)
  /\ exists more, out = servers ++ more.
Proof.
  revert servers. induction entries as [|[nodeID listenAddres] rest IH]; simpl;
    intros servers.
  - intros [= <-]. rewrite app_nil_r. split; [done|]. split; [done|].
    exists []. by rewrite app_nil_r.
  - rewrite filter_cons. simpl.
    destruct (String.eqb_spec nodeID self) as [->|Hne].
    + rewrite decide_False by (intros Hx; by apply Hx). apply IH.
    + rewrite decide_True by done.
      destruct (resolve listenAddres) as [addr|]; [|done].
      intros (Hids & Hvoters & more & Hmore)%IH.
      rewrite fmap_app, <- app_assoc in Hids. split; [exact Hids|]. split.
      * intros Hs. apply Hvoters. apply Forall_app. split; [done|].
        by apply Forall_singleton.
      * eexists. rewrite Hmore, <- app_assoc. done.
Qed.

(** X27: the configuration [Bootstrap] hands to raft lists the local
    node first, with the resolved advertise address, and after it every
    other server of the options once; all are voters and no ID appears
    twice, also when the options list the local node among the
    servers. *)
Theorem bootstrapConfiguration_servers (started : bool) (nodeID : string)
    (listenPort : Z) (AdvertiseAddress : string) (Servers : gmap string string)
    (servers : list Server) :
  bootstrapConfiguration resolve Itoa started nodeID listenPort AdvertiseAddress Servers
  = Ok servers ->
  started = true
  /\ (exists addr rest,
        resolve (if String.eqb AdvertiseAddress ""
                 then "localhost:" +:+ Itoa listenPort else AdvertiseAddress) = Ok addr
        /\ servers = {| srv_Suffrage := Voter; srv_ID := nodeID; srv_Address := addr |}
                     :: rest)
  /\ NoDup (srv_ID <$> servers)
  /\ (forall id, id ∈ srv_ID <$> servers <-> id = nodeID \/ is_Some (Servers !! id))
  /\ Forall isVoter servers.
Proof.
  unfold bootstrapConfiguration. destruct started; simpl; [|done].
  destruct (resolve _) as [addr|] eqn:Haddr; [|done].
  intros (Hids & Hvoters & more & Hmore)%appendServers_spec. simpl in Hids.
  split; [done|]. split; [by exists addr, more|].
  rewrite Hids. split; [|split].
  - apply NoDup_cons. split.
    + intros [Hne _]%list_elem_of_filter. by apply Hne.
    + apply NoDup_filter, NoDup_fst_map_to_list.
  - intros id. rewrite elem_of_cons, list_elem_of_filter.
    rewrite FilterGraphFacts.keys_of_map.
    destruct (decide (id = nodeID)); naive_solver.
  - apply Hvoters. by apply Forall_singleton.
Qed.

End BootstrapFacts.

Lemma bootstrapConfiguration_servers_witness :
  exists servers,
    bootstrapConfiguration literalResolve portText true "a" 9443 ""
      {[ "a" := "10.0.0.1:9443"; "b" := "10.0.0.2:9443" ]} = Ok servers
    /\ head servers = Some {| srv_Suffrage := Voter; srv_ID := "a";
                              srv_Address := "localhost:9443" |}
    /\ NoDup (srv_ID <$> servers)
    /\ Forall isVoter servers.
Proof.
  eexists. split; [vm_compute; reflexivity|].
  destruct (bootstrapConfiguration_servers literalResolve portText true "a" 9443 ""
              {[ "a" := "10.0.0.1:9443"; "b" := "10.0.0.2:9443" ]}
              [{| srv_Suffrage := Voter; srv_ID := "a"; srv_Address := "localhost:9443" |};
               {| srv_Suffrage := Voter; srv_ID := "b"; srv_Address := "10.0.0.2:9443" |}])
    as (_ & _ & Hnodup & _ & Hvoters); [vm_compute; reflexivity|].
  split; [reflexivity|]. split; [exact Hnodup|exact Hvoters].
Defined.

End RaftNodeFacts.

(** ** The plugin manager (src/pkg/plugins/plugins.go) *)

Module PluginsFacts.
Import GoErr Plugins.

Section WithAPI.
Variable ConfigMap : Type.
Variable Struct : Type.
Variable NewStruct : ConfigMap -> result Struct.
Variable AUTH : Z.
Variable mtlsPlugin : PluginClient Struct.
Variable basicauthPlugin : PluginClient Struct.
Variable quoted : string -> string.

Abbreviation builtIns := (BuiltIns Struct mtlsPlugin basicauthPlugin).
Abbreviation load :=
  (loadPlugins ConfigMap Struct NewStruct AUTH mtlsPlugin basicauthPlugin quoted).
Abbreviation reportsAuth := (authenticates Struct AUTH).

Lemma authAfter_spec (caps : list Z) (builtIn : PluginClient Struct)
    (auth : option (PluginClient Struct)) :
  authAfter Struct AUTH caps builtIn auth
  = if decide (AUTH ∈ caps) then Some builtIn else auth.
Proof.
  revert auth. induction caps as [|cap rest IH]; intros auth; cbn [authAfter].
  - rewrite decide_False; [done|]. by intros ?%elem_of_nil.
  - rewrite IH. destruct (decide (AUTH ∈ rest)) as [Hin|Hout].
    + rewrite decide_True; [done|]. by right.
    + destruct (Z.eqb_spec cap AUTH) as [->|Hne].
      * rewrite decide_True; [done|]. by left.
      * rewrite decide_False; [done|].
        intros [?|?]%elem_of_cons; [congruence|done].
Qed.

Lemma builtIns_names (name : string) (c : PluginClient Struct) :
  builtIns !! name = Some c -> name = "mtls" \/ name = "basic-auth".
Proof.
  unfold BuiltIns. intros Hc.
  destruct (decide (name = "mtls")) as [|Hmtls]; [by left|].
  destruct (decide (name = "basic-auth")) as [|Hbasic]; [by right|].
  exfalso. revert Hc. rewrite lookup_insert_ne by done.
  by rewrite lookup_singleton_ne by done.
Qed.

Lemma loadPlugins_spec (plugins : list (string * Config ConfigMap))
    (m0 m : manager Struct) :
  load m0 plugins = Ok m ->
  (forall name c, mgr_plugins Struct m0 !! name = Some c -> builtIns !! name = Some c) ->
  (forall name c,
      mgr_plugins Struct m !! name = Some c <->
      mgr_plugins Struct m0 !! name = Some c
      \/ (name ∈ plugins.*1 /\ builtIns !! name = Some c))
  /\ (forall c, mgr_auth Struct m = Some c ->
        mgr_auth Struct m0 = Some c
        \/ exists name, name ∈ plugins.*1 /\ builtIns !! name = Some c /\ reportsAuth c)
  /\ (is_Some (mgr_auth Struct m0)
      \/ (exists name c, name ∈ plugins.*1 /\ builtIns !! name = Some c /\ reportsAuth c) ->
      is_Some (mgr_auth Struct m)).
Proof.
  revert m0. induction plugins as [|[name cfg] rest IH]; intros m0;
    cbn [loadPlugins fmap list_fmap fst].
  - intros [= <-] _. split; [|split].
    + intros name c. split; [by left|]. intros [?|[Hin _]]; [done|].
      by apply elem_of_nil in Hin.
    + intros c Hc. by left.
    + intros [?|(name & c & Hin & _)]; [done|]. by apply elem_of_nil in Hin.
  - unfold loadPlugin at 1.
    destruct (builtIns !! name) as [builtIn|] eqn:Hb.
    + destruct (GetInfo Struct builtIn) as [caps|] eqn:Hinfo; [|done].
      destruct (NewStruct (cfg_Config ConfigMap cfg)) as [pcfg|]; [|done].
      destruct (Configure Struct builtIn pcfg); [done|].
      intros Hrun Hinv.
      destruct (IH _ Hrun) as (Hplugins & Hauth & Hhas).
      { cbn [mgr_plugins]. intros name' c.
        destruct (decide (name' = name)) as [->|Hname].
        - rewrite lookup_insert_eq. congruence.
        - rewrite lookup_insert_ne by done. apply Hinv. }
      cbn [mgr_plugins mgr_auth] in Hplugins, Hauth, Hhas.
      rewrite authAfter_spec in Hauth, Hhas.
      split; [|split].
      * intros name' c. rewrite Hplugins, elem_of_cons.
        destruct (decide (name' = name)) as [->|Hname].
        -- rewrite lookup_insert_eq. split.
           ++ intros [[= <-]|[_ Hc]]; right; (split; [by left|congruence]).
           ++ intros [Hc|[_ Hc]]; left; [apply Hinv in Hc|]; congruence.
        -- rewrite lookup_insert_ne by done. split.
           ++ intros [?|[? ?]]; [by left|]. right. split; [by right|done].
           ++ intros [?|[[?|?] ?]]; [by left|congruence|]. right. by split.
      * intros c Hc. destruct (Hauth c Hc) as [Hfirst|(name' & Hin & Hc' & Hrep)].
        -- case_decide as Hcaps; [|by left]. injection Hfirst as <-.
           right. exists name. split; [by left|]. split; [done|]. by exists caps.
        -- right. exists name'. split; [by right|done].
      * intros [Hsome|(name' & c & [->|Hin]%elem_of_cons & Hc & caps' & Hinfo' & Hcaps)];
          apply Hhas.
        -- left. by case_decide.
        -- left. assert (c = builtIn) as -> by congruence.
           rewrite decide_True; [done|]. congruence.
        -- right. exists name', c. split; [done|]. split; [done|]. by exists caps'.
    + intros Hrun Hinv. destruct (IH _ Hrun Hinv) as (Hplugins & Hauth & Hhas).
      split; [|split].
      * intros name' c. rewrite Hplugins, elem_of_cons. split.
        -- intros [?|[? ?]]; [by left|]. right. split; [by right|done].
        -- intros [?|[[->|?] ?]]; [by left|congruence|]. right. by split.
      * intros c Hc. destruct (Hauth c Hc) as [?|(name' & Hin & Hrest)]; [by left|].
        right. exists name'. split; [by right|done].
      * intros [Hsome|(name' & c & [->|Hin]%elem_of_cons & Hc & Hrep)]; apply Hhas.
        -- by left.
        -- congruence.
        -- right. by exists name', c.
Qed.

(** X28: a manager built by [New] holds exactly the configured plugins
    that are built in, that is at most "mtls" and "basic-auth"; a
    configured plugin of another name is skipped without an error.  The
    manager has an auth plugin exactly when one of the plugins it holds
    reports the capability to authenticate. *)
Theorem New_registers_builtins (Plugins : gmap string (Config ConfigMap))
    (m : manager Struct) :
  New ConfigMap Struct NewStruct AUTH mtlsPlugin basicauthPlugin quoted Plugins = Ok m ->
  (forall name c,
      Get Struct m name = Some c <->
      is_Some (Plugins !! name) /\ builtIns !! name = Some c)
  /\ (forall name, is_Some (Get Struct m name) -> name = "mtls" \/ name = "basic-auth")
  /\ (HasAuth Struct m = true <->
      exists name c, is_Some (Plugins !! name) /\ builtIns !! name = Some c
                     /\ reportsAuth c).
Proof.
  unfold New. intros Hrun.
  destruct (loadPlugins_spec _ _ _ Hrun) as (Hplugins & Hauth & Hhas).
  { simpl. intros name c. by rewrite lookup_empty. }
  simpl in *.
  assert (Hget : forall name c,
             Get Struct m name = Some c <->
             is_Some (Plugins !! name) /\ builtIns !! name = Some c).
  { intros name c. unfold Get. rewrite Hplugins, lookup_empty.
    rewrite FilterGraphFacts.keys_of_map. naive_solver. }
  split; [exact Hget|]. split.
  - intros name [c Hc]. apply Hget in Hc as [_ Hc]. by eapply builtIns_names.
  - unfold HasAuth. split.
    + destruct (mgr_auth Struct m) as [c|] eqn:Hc; [|done]. intros _.
      destruct (Hauth c eq_refl) as [?|(name & Hin & Hb & Hrep)]; [done|].
      exists name, c. split; [|done]. by apply FilterGraphFacts.keys_of_map.
    + intros (name & c & Hin & Hb & Hrep).
      destruct Hhas as [c' ->]; [|done].
      right. exists name, c. split; [|done]. by apply FilterGraphFacts.keys_of_map.
Qed.

End WithAPI.

Lemma New_registers_builtins_witness :
  exists m,
    New string string (fun c => Ok c) 2 sampleMTLS sampleBasicAuth (fun name => name)
      sampleOptions = Ok m
    /\ (forall name c,
          Get string m name = Some c <->
          is_Some (sampleOptions !! name)
          /\ BuiltIns string sampleMTLS sampleBasicAuth !! name = Some c)
    /\ (forall name, is_Some (Get string m name) -> name = "mtls" \/ name = "basic-auth")
    /\ (HasAuth string m = true <->
        exists name c, is_Some (sampleOptions !! name)
                       /\ BuiltIns string sampleMTLS sampleBasicAuth !! name = Some c
                       /\ authenticates string 2 c).
Proof.
  eexists. split; [vm_compute; reflexivity|].
  apply (New_registers_builtins string string (fun c => Ok c) 2 sampleMTLS sampleBasicAuth
           (fun name => name) sampleOptions).
  vm_compute. reflexivity.
Defined.

End PluginsFacts.

(** ** [FilterGraph] and nodes the getter does not know
      (src/pkg/meshdb/networking/networking.go) *)

Module FilterGraphErrorFacts.
Import GoBytes GoErr MeshStorage V1 Networking.
Import FilterGraphFacts.

Section WithExternals.
Context `{Protojson} `{ACLEval} `{Netip}.
Variable n : Store.
Variable getter : NodeGetter.
Variable thisNode : MeshNode.

Lemma filterNodes_fails (acls : ACLs) (nodeIDs : list string) (nodeID : string)
    (e : error) (st : maps) :
  nodeID ∈ nodeIDs -> nodeID <> Id thisNode -> Get getter nodeID = Err e ->
  exists err, filterNodes n acls getter thisNode st nodeIDs = Err err.
Proof.
  intros Hin Hne%String.eqb_neq Hget. revert st.
  induction nodeIDs as [|id rest IH]; intros st; [by apply elem_of_nil in Hin|].
  simpl. apply elem_of_cons in Hin as [<-|Hin].
  - unfold filterNode. rewrite Hne, Hget. by eexists.
  - destruct (filterNode n acls getter thisNode st id) as [st'|err]; [|by eexists].
    by apply IH.
Qed.

(** X29: [FilterGraph] looks up every node of the peer graph other
    than [thisNode] itself; when the getter fails for one of them the
    whole call fails and no filtered map is returned. *)
Theorem FilterGraph_fails_on_unknown_node (peerGraph : PeerGraph)
    (full : gmap string (gmap string Edge)) (nodeID : string) (e : error) :
  AdjacencyMapOf peerGraph = Ok full ->
  is_Some (full !! nodeID) -> nodeID <> Id thisNode ->
  Get getter nodeID = Err e ->
  exists err, FilterGraph n getter peerGraph thisNode = Err err.
Proof.
  intros Hfull Hrow Hne Hget. unfold FilterGraph.
  destruct (ListNetworkACLs n) as [acls0 [err|]]; [by eexists|].
  destruct (Expand n acls0) as [acls|err]; [|by eexists].
  rewrite Hfull.
  destruct (filterNodes_fails acls (map_to_list full).*1 nodeID e
              (initMaps full (Id thisNode))) as [err ->]; [|done|done|].
  - by apply keys_of_map.
  - simpl. by eexists.
Qed.

End WithExternals.

Lemma FilterGraph_fails_on_unknown_node_witness :
  exists err,
    @FilterGraph Fixtures.lineCodec LinearMesh.permissive LinearMesh.colonNetip
      LinearMesh.meshStore LinearMesh.meshGetter
      {| AdjacencyMapOf := Ok MeshFixtures.unknownRow |}
      (LinearMesh.meshNodeOf LinearMesh.node1) = Err err.
Proof.
  apply (@FilterGraph_fails_on_unknown_node Fixtures.lineCodec LinearMesh.permissive
           LinearMesh.colonNetip LinearMesh.meshStore LinearMesh.meshGetter
           (LinearMesh.meshNodeOf LinearMesh.node1)
           {| AdjacencyMapOf := Ok MeshFixtures.unknownRow |}
           MeshFixtures.unknownRow "n4" (Errorf "vertex not found")).
  - reflexivity.
  - eexists. vm_compute. reflexivity.
  - discriminate.
  - reflexivity.
Defined.

End FilterGraphErrorFacts.
